(** * The metrics engine of [scripts/data_analysis.py]

    A shallow embedding of the four public operations of the analysis
    module ([calculate_market_metrics], [analyze_regional_performance],
    [calculate_time_series_metrics], [segment_customer_base]) together with
    the dataframe primitives they call (group-by aggregation, pivoting,
    index alignment on column assignment, ranking, quantile and equal-width
    binning), followed by the properties of the specification.

    The preflight script [scripts/validate_data.py] and the cleaning
    functions of [scripts/data_cleaning.py] ([remove_duplicates],
    [fill_missing_values], [load_data], [clean_dataset]) are embedded as
    well; their properties, and further properties of the analysis module,
    close the file.

    Conventions.
    - A table row carries the nine fields of the sales record with the
      types of the data model; [df_columns] says which column labels the
      frame really has, [df_extra] holds every other column.
    - Floating-point results are modelled by [fnum]: exact rationals
      extended with the two infinities and NaN.  Rounding is not modelled.
    - Sales_Volume is an int64 column.  Sums of it, and differences of
      such sums in a table that holds integers, wrap around modulo 2^64
      ([int64]); a frame read from a file holds no value outside that
      range.  Counts of rows are exact.
    - An in-place method called on a column taken out of a frame changes
      the frame or not by the mode pandas runs in ([inplace_mode]).
    - Python exceptions are values of [exn]; a call that may raise returns
      a [result]. *)

From Stdlib Require Import ZArith QArith Qabs Qround Lqa Lia.
From Stdlib Require Import List String Ascii Bool Permutation Sorted.
From Stdlib Require OrderedTypeEx.
Import ListNotations.

Set Implicit Arguments.
Open Scope string_scope.
Open Scope list_scope.

(* ================================================================= *)
(** ** Exceptions *)

Inductive exn : Type :=
| DataAnalysisError (msg : string)
| ValueError (msg : string)
| IndexError (msg : string).

Inductive result (A : Type) : Type :=
| Ok (a : A)
| Raise (e : exn).

Arguments Ok {A} a.
Arguments Raise {A} e.

(** [str(exc)] *)
Definition exn_text (e : exn) : string :=
  match e with
  | DataAnalysisError msg | ValueError msg | IndexError msg => msg
  end.

Definition bind {A B : Type} (m : result A) (k : A -> result B) : result B :=
  match m with
  | Ok a => k a
  | Raise e => Raise e
  end.

(** [try: m except Exception as exc: h exc] *)
Definition try_except {A : Type} (m : result A) (h : exn -> result A) : result A :=
  match m with
  | Ok a => Ok a
  | Raise e => h e
  end.

Declare Scope result_scope.
Delimit Scope result_scope with result.
Notation "x <- m ;; k" := (bind m (fun x => k))
  (at level 100, m at next level, right associativity) : result_scope.
Notation "m ;;; k" := (bind m (fun _ => k))
  (at level 100, right associativity) : result_scope.

(* ================================================================= *)
(** ** Numbers: rationals extended with infinities and NaN *)

Inductive fnum : Type :=
| Fin (q : Q)
| PInf
| NInf
| NaN.

Definition Qlt_bool (a b : Q) : bool := negb (Qle_bool b a).

Definition of_Z (z : Z) : fnum := Fin (inject_Z z).

Definition is_nan (x : fnum) : bool :=
  match x with NaN => true | _ => false end.

Definition fneg (x : fnum) : fnum :=
  match x with
  | Fin q => Fin (- q)
  | PInf => NInf
  | NInf => PInf
  | NaN => NaN
  end.

Definition fadd (x y : fnum) : fnum :=
  match x, y with
  | NaN, _ | _, NaN => NaN
  | Fin a, Fin b => Fin (a + b)
  | PInf, NInf | NInf, PInf => NaN
  | PInf, _ | _, PInf => PInf
  | NInf, _ | _, NInf => NInf
  end.

Definition fsub (x y : fnum) : fnum := fadd x (fneg y).

(** The sign of an infinity scaled by the finite [q]; a zero factor has no
    sign to give and yields NaN. *)
Definition scale_inf (positive : bool) (q : Q) : fnum :=
  if Qeq_bool q 0 then NaN
  else if Bool.eqb positive (Qlt_bool 0 q) then PInf else NInf.

Definition fmul (x y : fnum) : fnum :=
  match x, y with
  | NaN, _ | _, NaN => NaN
  | Fin a, Fin b => Fin (a * b)
  | Fin a, PInf | PInf, Fin a => scale_inf true a
  | Fin a, NInf | NInf, Fin a => scale_inf false a
  | PInf, PInf | NInf, NInf => PInf
  | PInf, NInf | NInf, PInf => NInf
  end.

Definition fdiv (x y : fnum) : fnum :=
  match x, y with
  | NaN, _ | _, NaN => NaN
  | Fin a, Fin b =>
      if Qeq_bool b 0 then
        if Qeq_bool a 0 then NaN
        else if Qlt_bool 0 a then PInf else NInf
      else Fin (a / b)
  | Fin _, (PInf | NInf) => Fin 0
  | PInf, Fin b => if Qle_bool 0 b then PInf else NInf
  | NInf, Fin b => if Qle_bool 0 b then NInf else PInf
  | (PInf | NInf), (PInf | NInf) => NaN
  end.

(** Equality of extended numbers up to the representation of a rational. *)
Definition feq (x y : fnum) : Prop :=
  match x, y with
  | Fin a, Fin b => a == b
  | PInf, PInf | NInf, NInf | NaN, NaN => True
  | _, _ => False
  end.

Definition fsum (l : list fnum) : fnum := fold_right fadd (Fin 0) l.

(** An integer column holds 64-bit signed integers, and arithmetic on
    them wraps around: [int64 z] is the value of that type congruent to
    [z] modulo 2^64. *)
Definition int64 (z : Z) : Z := ((z + 2 ^ 63) mod 2 ^ 64 - 2 ^ 63)%Z.

(** The sum of the integers of a list, as a whole number. *)
Definition exact_sum (l : list Z) : Z := fold_right Z.add 0%Z l.

(** [.sum()] of an int64 column or group: the additions wrap around. *)
Definition Zsum (l : list Z) : Z := int64 (exact_sum l).

(** [Series.mean()]: NaN entries are skipped; the mean of nothing is NaN
    and no exception is raised. *)
Definition series_mean (l : list fnum) : fnum :=
  let xs := filter (fun x => negb (is_nan x)) l in
  match xs with
  | [] => NaN
  | _ => fdiv (fsum xs) (of_Z (Z.of_nat (List.length xs)))
  end.

(** [Series.pct_change()]: each entry divided by the previous one, minus
    one; the first entry has no predecessor. *)
Definition pct_change (l : list fnum) : list fnum :=
  match l with
  | [] => []
  | _ :: t => NaN :: map (fun pc => fsub (fdiv (snd pc) (fst pc)) (Fin 1)) (combine l t)
  end.

(* ================================================================= *)
(** ** Sorted unique keys and group-by *)

Section Keys.
Variable K : Type.
Variable eqb : K -> K -> bool.
Variable leb : K -> K -> bool.

Fixpoint mem (k : K) (l : list K) : bool :=
  match l with
  | [] => false
  | x :: t => eqb k x || mem k t
  end.

(** Distinct values in order of first appearance. *)
Fixpoint unique (l : list K) : list K :=
  match l with
  | [] => []
  | x :: t => x :: filter (fun y => negb (eqb y x)) (unique t)
  end.

Fixpoint insert (k : K) (l : list K) : list K :=
  match l with
  | [] => [k]
  | x :: t => if leb k x then k :: l else x :: insert k t
  end.

Definition sort (l : list K) : list K := fold_right insert [] l.

(** The keys of a group-by: distinct, ascending. *)
Definition group_keys (l : list K) : list K := sort (unique l).

Variable V : Type.

(** The values of the rows whose key is [k], in row order. *)
Definition group (rows : list (K * V)) (k : K) : list V :=
  map snd (filter (fun r => eqb (fst r) k) rows).

(** [groupby(key)[val].agg(f)]: a series indexed by the sorted keys. *)
Definition groupby_agg (W : Type) (f : list V -> W) (rows : list (K * V))
  : list (K * W) :=
  map (fun k => (k, f (group rows k))) (group_keys (map fst rows)).

(** Label lookup in a series. *)
Fixpoint lookup (s : list (K * V)) (k : K) : option V :=
  match s with
  | [] => None
  | (k', v) :: t => if eqb k k' then Some v else lookup t k
  end.

(** [Series.reindex(index)]: the values at the labels of [index], [nan]
    where the series has no such label. *)
Definition reindex (nan : V) (s : list (K * V)) (index : list K) : list V :=
  map (fun k => match lookup s k with Some v => v | None => nan end) index.
End Keys.

Arguments lookup {K} eqb {V} s k.
Arguments reindex {K} eqb {V} nan s index.
Arguments group {K} eqb {V} rows k.
Arguments groupby_agg {K} eqb leb {V W} f rows.

(** Keys that are pairs, as in [groupby(['Region', 'Model'])]. *)
Definition pair_eqb {A B : Type} (ea : A -> A -> bool) (eb : B -> B -> bool)
  (x y : A * B) : bool :=
  ea (fst x) (fst y) && eb (snd x) (snd y).

Definition pair_leb {A B : Type} (ea : A -> A -> bool) (la : A -> A -> bool)
  (lb : B -> B -> bool) (x y : A * B) : bool :=
  if ea (fst x) (fst y) then lb (snd x) (snd y) else la (fst x) (fst y).

(* ================================================================= *)
(** ** Tables *)

(** Row labels and customer identifiers: integers or strings. *)
Inductive label : Type :=
| LInt (z : Z)
| LStr (s : string).

Definition label_eqb (a b : label) : bool :=
  match a, b with
  | LInt x, LInt y => Z.eqb x y
  | LStr x, LStr y => String.eqb x y
  | _, _ => false
  end.

Definition label_leb (a b : label) : bool :=
  match a, b with
  | LInt x, LInt y => Z.leb x y
  | LStr x, LStr y => String.leb x y
  | LInt _, LStr _ => true
  | LStr _, LInt _ => false
  end.

(** A cell of a column outside the sales record. *)
Inductive cell : Type :=
| CInt (z : Z)
| CNum (x : fnum)
| CStr (s : string)
| CBool (b : bool)
| CNaN.

Record Row : Type := {
  Model : string;
  Year : Z;
  Region : string;
  Market_Segment : string;
  Sales_Volume : Z;
  Price_USD : Q;
  Customer_ID : label;
  Vehicle_Type : option string;
  Green_Vehicle : bool
}.

Record DataFrame : Type := {
  df_columns : list string;
  df_rows : list (label * Row);
  df_extra : list (string * list cell)
}.

Definition df_index (df : DataFrame) : list label := map fst (df_rows df).
Definition records (df : DataFrame) : list Row := map snd (df_rows df).

(** [df.empty]: one of the two axes has length zero. *)
Definition empty (df : DataFrame) : bool :=
  match df_rows df, df_columns df with
  | [], _ | _, [] => true
  | _, _ => false
  end.

(* ================================================================= *)
(** ** Validation *)

Definition repr_str (s : string) : string := "'" ++ s ++ "'".

(** [repr] of a list of plain column names, as an f-string prints it. *)
Definition repr_list (l : list string) : string :=
  "[" ++ String.concat ", " (map repr_str l) ++ "]".

Definition missing_columns (df : DataFrame) (required : list string) : list string :=
  filter (fun c => negb (mem String.eqb c (df_columns df))) required.

Definition _ensure_columns (df : DataFrame) (required : list string) : result unit :=
  match missing_columns df required with
  | [] => Ok tt
  | missing =>
      Raise (DataAnalysisError ("Missing required columns: " ++ repr_list missing))
  end.

(** The guard that opens each operation:
    [if df is None or df.empty: raise DataAnalysisError(...)]. *)
Definition require_non_empty (name : string) (df : option DataFrame) : result DataFrame :=
  match df with
  | None => Raise (DataAnalysisError (name ++ " requires a non-empty DataFrame"))
  | Some d =>
      if empty d
      then Raise (DataAnalysisError (name ++ " requires a non-empty DataFrame"))
      else Ok d
  end.

(* ================================================================= *)
(** ** Pivots *)

(** A reshaped table: [p_data] holds one list per column label, each
    running along [p_index]. *)
Record Pivot (R C V : Type) : Type := {
  p_index : list R;
  p_columns : list C;
  p_data : list (list V)
}.

Section PivotOps.
Variables R C : Type.
Variables (r_eqb r_leb : R -> R -> bool) (c_eqb c_leb : C -> C -> bool).

(** The summed value of the rows keyed [(r, c)]; undefined when there
    is no such row. *)
Definition cell_sum (rows : list ((R * C) * Z)) (r : R) (c : C) : option Z :=
  match group (pair_eqb r_eqb c_eqb) rows (r, c) with
  | [] => None
  | vs => Some (Zsum vs)
  end.

(** [groupby([r, c])[v].sum().unstack()], which is also
    [pivot_table(values=v, index=r, columns=c, aggfunc='sum')]. *)
Definition pivot_sum (rows : list ((R * C) * Z)) : Pivot R C (option Z) :=
  let index := group_keys r_eqb r_leb (map (fun x => fst (fst x)) rows) in
  let columns := group_keys c_eqb c_leb (map (fun x => snd (fst x)) rows) in
  {| p_index := index;
     p_columns := columns;
     p_data := map (fun c => map (fun r => cell_sum rows r c) index) columns |}.

Variable V : Type.

(** [table[c]]: the column labelled [c] as a series over the index. *)
Definition pivot_col (p : Pivot R C V) (c : C) : list (R * V) :=
  match lookup c_eqb (combine (p_columns p) (p_data p)) c with
  | Some vs => combine (p_index p) vs
  | None => []
  end.

(** The cell at row [r] and column [c]. *)
Definition pivot_at (p : Pivot R C V) (r : R) (c : C) : option V :=
  lookup r_eqb (pivot_col p c) r.
End PivotOps.

Arguments pivot_sum {R C} r_eqb r_leb c_eqb c_leb rows.
Arguments cell_sum {R C} r_eqb c_eqb rows r c.
Arguments pivot_col {R C} c_eqb {V} p c.
Arguments pivot_at {R C} r_eqb c_eqb {V} p r c.

Definition of_cell (c : option Z) : fnum :=
  match c with
  | Some z => of_Z z
  | None => NaN
  end.

(** [.fillna(0)] *)
Definition fillna0 {R C : Type} (p : Pivot R C (option Z)) : Pivot R C Z :=
  {| p_index := p_index p;
     p_columns := p_columns p;
     p_data := map (map (fun c => match c with Some z => z | None => 0%Z end)) (p_data p) |}.

(* ================================================================= *)
(** ** Market metrics *)

Record Metrics : Type := {
  metrics_index : list string;
  Market_Share : list Z;
  Market_Share_Pct : list fnum;
  Avg_Price : option (list fnum);
  YoY_Growth : option (list fnum)
}.

(** The dtype of a reshaped table of int64 sums: it is int64 when every
    cell is defined; one undefined cell makes the whole table float64,
    with NaN in the undefined cells. *)
Definition is_integer {R C : Type} (p : Pivot R C (option Z)) : bool :=
  forallb (forallb (fun c : option Z => match c with Some _ => true | None => false end))
          (p_data p).

(** [a - b] on two cells of such a table: an int64 subtraction, which
    wraps around, in an int64 table and a float subtraction otherwise. *)
Definition cell_sub (integer : bool) (a b : option Z) : fnum :=
  if integer
  then match a, b with
       | Some x, Some y => of_Z (int64 (x - y))
       | _, _ => NaN
       end
  else fsub (of_cell a) (of_cell b).

(** [(yearly_sales[last] - yearly_sales[prev]) / yearly_sales[prev] * 100];
    the division is a float division in both cases. *)
Definition yoy (integer : bool) (last prev : option Z) : fnum :=
  fmul (fdiv (cell_sub integer last prev) (of_cell prev)) (Fin 100).

Definition yoy_series (yearly_sales : Pivot string Z (option Z)) (last prev : Z)
  : list (string * fnum) :=
  map (fun s => (s, yoy (is_integer yearly_sales)
                        (match pivot_at String.eqb Z.eqb yearly_sales s last with
                         | Some c => c | None => None end)
                        (match pivot_at String.eqb Z.eqb yearly_sales s prev with
                         | Some c => c | None => None end)))
      (p_index yearly_sales).

(** A column that the source leaves out after a warning is [None].  The
    warnings themselves, being text printed on the side, are not
    modelled.  Group-by sums and means of well-typed columns do not raise,
    so on such tables the three handlers are not entered. *)
Definition calculate_market_metrics (df : option DataFrame) : result Metrics :=
  (df <- require_non_empty "calculate_market_metrics" df ;;
   _ensure_columns df ["Market_Segment"; "Sales_Volume"; "Price_USD"; "Year"] ;;;
   let rows := records df in
   (* Sales by segment *)
   shares <- try_except
     ((* metrics['Market_Share'] = df.groupby('Market_Segment')['Sales_Volume'].sum() *)
      let share := groupby_agg String.eqb String.leb Zsum
                     (map (fun r => (Market_Segment r, Sales_Volume r)) rows) in
      let total := Zsum (map snd share) in
      Ok (share,
          if (total =? 0)%Z
          then map (fun _ => Fin 0) share
          else map (fun kv => fmul (fdiv (of_Z (snd kv)) (of_Z total)) (Fin 100)) share))
     (fun exc =>
        Raise (DataAnalysisError ("Failed to compute market share: " ++ exn_text exc))) ;;
   let index := map fst (fst shares) in
   (* Average price by segment *)
   avg <- try_except
     (Ok (Some (reindex String.eqb NaN
                  (groupby_agg String.eqb String.leb series_mean
                     (map (fun r => (Market_Segment r, Fin (Price_USD r))) rows))
                  index)))
     (fun _ => Ok None) ;;
   (* Growth metrics *)
   growth <- try_except
     (let yearly_sales := pivot_sum String.eqb String.leb Z.eqb Z.leb
                            (map (fun r => ((Market_Segment r, Year r), Sales_Volume r))
                                 rows) in
      Ok (Some
            match rev (p_columns yearly_sales) with
            | last :: prev :: _ =>
                reindex String.eqb NaN (yoy_series yearly_sales last prev) index
            | _ => map (fun _ => Fin 0) index
            end))
     (fun _ => Ok None) ;;
   Ok {| metrics_index := index;
         Market_Share := map snd (fst shares);
         Market_Share_Pct := snd shares;
         Avg_Price := avg;
         YoY_Growth := growth |})%result.

(** The value of a column at a label of the index. *)
Definition column_at {V : Type} (index : list string) (col : list V) (s : string)
  : option V :=
  lookup String.eqb (combine index col) s.

(** The value of a metrics column at a segment. *)
Definition at_segment {V : Type} (m : Metrics) (col : Metrics -> list V) (s : string)
  : option V :=
  column_at (metrics_index m) (col m) s.

(* ================================================================= *)
(** ** Regional performance *)

(** A row of [top_models]: the label it got from [reset_index()] and the
    three columns Region, Model, Sales_Volume. *)
Record TopRow : Type := {
  tm_label : nat;
  tm_region : string;
  tm_model : string;
  tm_volume : Z
}.

Record RegionalResults : Type := {
  sales : Pivot string Z (option Z);
  top_models : option (list TopRow);
  segment_share : option (Pivot string string Z)
}.

(** [.reset_index()] on the grouped sums: rows numbered from 0 in group
    order. *)
Definition reset_index (s : list ((string * string) * Z)) : list TopRow :=
  map (fun ix => {| tm_label := fst ix;
                    tm_region := fst (fst (snd ix));
                    tm_model := snd (fst (snd ix));
                    tm_volume := snd (snd ix) |})
      (combine (seq 0 (List.length s)) s).

(** [.groupby('Region').head(n)]: the rows that are among the first [n]
    of their region, in the order of the frame. *)
Fixpoint groupby_head (n : nat) (seen : list string) (l : list TopRow) : list TopRow :=
  match l with
  | [] => []
  | x :: t =>
      if Nat.ltb (count_occ string_dec seen (tm_region x)) n
      then x :: groupby_head n (tm_region x :: seen) t
      else groupby_head n (tm_region x :: seen) t
  end.

(** What [sort_values('Sales_Volume', ascending=False)] guarantees with
    its default kind (quicksort): the rows of the frame, in an order that
    is descending by volume.  The relative order of rows of equal volume is
    the sorting routine's business and is not fixed here. *)
Definition sorts_descending (sort_values : list TopRow -> list TopRow) : Prop :=
  forall l,
    Permutation l (sort_values l) /\
    StronglySorted (fun a b => (tm_volume b <= tm_volume a)%Z) (sort_values l).

Section Regional.
Variable sort_values : list TopRow -> list TopRow.

Definition regional_top_models (rows : list Row) : list TopRow :=
  groupby_head 3 []
    (sort_values
       (reset_index
          (groupby_agg (pair_eqb String.eqb String.eqb)
             (pair_leb String.eqb String.leb String.leb) Zsum
             (map (fun r => ((Region r, Model r), Sales_Volume r)) rows)))).

(** The result is a dictionary; a key that the source leaves out after
    a warning is [None]. *)
Definition analyze_regional_performance (df : option DataFrame) : result RegionalResults :=
  (df <- require_non_empty "analyze_regional_performance" df ;;
   _ensure_columns df ["Region"; "Year"; "Sales_Volume"; "Model"; "Market_Segment"] ;;;
   let rows := records df in
   (* Regional sales volume *)
   by_year <- try_except
     (Ok (pivot_sum String.eqb String.leb Z.eqb Z.leb
            (map (fun r => ((Region r, Year r), Sales_Volume r)) rows)))
     (fun exc =>
        Raise (DataAnalysisError ("Failed to compute regional sales: " ++ exn_text exc))) ;;
   (* Popular models by region *)
   top <- try_except (Ok (Some (regional_top_models rows))) (fun _ => Ok None) ;;
   (* Market segment preferences *)
   share <- try_except
     (Ok (Some (fillna0 (pivot_sum String.eqb String.leb String.eqb String.leb
                           (map (fun r => ((Region r, Market_Segment r), Sales_Volume r))
                                rows)))))
     (fun _ => Ok None) ;;
   Ok {| sales := by_year; top_models := top; segment_share := share |})%result.
End Regional.

(** A sorting routine that meets [sorts_descending]: insertion from the
    right, which keeps rows of equal volume in frame order. *)
Definition volume_geb (a b : TopRow) : bool := (tm_volume b <=? tm_volume a)%Z.
Definition sort_stable (l : list TopRow) : list TopRow := sort volume_geb l.

(* ================================================================= *)
(** ** Time series *)

Record TimeSeries : Type := {
  ts_index : list Z;
  ts_Sales_Volume : list Z;
  ts_Price_USD : list fnum;
  ts_Green_Vehicle : list Z;
  Sales_YoY : list fnum;
  Price_YoY : list fnum
}.

Record TrendMetrics : Type := {
  avg_yearly_growth : fnum;
  price_trend : fnum;
  green_vehicle_growth : fnum
}.

(** [series.iloc[i]] with Python's negative positions. *)
Definition iloc {V : Type} (l : list V) (i : Z) : result V :=
  let n := Z.of_nat (List.length l) in
  let j := if (i <? 0)%Z then (n + i)%Z else i in
  if (j <? 0)%Z then Raise (IndexError "single positional indexer is out-of-bounds")
  else match nth_error l (Z.to_nat j) with
       | Some v => Ok v
       | None => Raise (IndexError "single positional indexer is out-of-bounds")
       end.

(** [.sum()] of a boolean column or group: the number of its true
    entries.  A count of rows is far below 2^63, so this sum is exact. *)
Definition count_true (l : list bool) : Z :=
  exact_sum (map (fun b : bool => if b then 1%Z else 0%Z) l).

Definition calculate_time_series_metrics (df : option DataFrame)
  : result (TimeSeries * TrendMetrics) :=
  (df <- require_non_empty "calculate_time_series_metrics" df ;;
   _ensure_columns df ["Year"; "Sales_Volume"; "Price_USD"; "Green_Vehicle"] ;;;
   let rows := records df in
   let volume := groupby_agg Z.eqb Z.leb Zsum (map (fun r => (Year r, Sales_Volume r)) rows) in
   let price := groupby_agg Z.eqb Z.leb series_mean (map (fun r => (Year r, Fin (Price_USD r))) rows) in
   let green := groupby_agg Z.eqb Z.leb count_true (map (fun r => (Year r, Green_Vehicle r)) rows) in
   let sales_yoy := map (fun x => fmul x (Fin 100)) (pct_change (map (fun kv => of_Z (snd kv)) volume)) in
   let price_yoy := map (fun x => fmul x (Fin 100)) (pct_change (map snd price)) in
   let ts_data := {| ts_index := map fst volume;
                     ts_Sales_Volume := map snd volume;
                     ts_Price_USD := map snd price;
                     ts_Green_Vehicle := map snd green;
                     Sales_YoY := sales_yoy;
                     Price_YoY := price_yoy |} in
   avg <- try_except (Ok (series_mean (Sales_YoY ts_data))) (fun _ => Ok (Fin 0)) ;;
   trend <- try_except (Ok (series_mean (Price_YoY ts_data))) (fun _ => Ok (Fin 0)) ;;
   growth <- try_except
               (first <- iloc (ts_Green_Vehicle ts_data) 0 ;;
                if (0 <? first)%Z
                then (last <- iloc (ts_Green_Vehicle ts_data) (-1) ;;
                      first <- iloc (ts_Green_Vehicle ts_data) 0 ;;
                      Ok (fmul (fsub (fdiv (of_Z last) (of_Z first)) (Fin 1)) (Fin 100)))
                else Ok (Fin 0))
               (fun _ => Ok (Fin 0)) ;;
   Ok (ts_data, {| avg_yearly_growth := avg;
                   price_trend := trend;
                   green_vehicle_growth := growth |}))%result.

(* ================================================================= *)
(** ** Ranking and binning *)

Section Rank.
Variable A : Type.
Variables ltb eqb : A -> A -> bool.

Definition count (f : A -> bool) (l : list A) : nat := List.length (filter f l).

(** The rank of each entry of [l]: one more than the number of entries of
    the whole series below it plus the number of equal entries before
    it. *)
Fixpoint rank_from (all seen l : list A) : list Z :=
  match l with
  | [] => []
  | x :: t =>
      (1 + Z.of_nat (count (fun y => ltb y x) all)
         + Z.of_nat (count (fun y => eqb y x) seen))%Z
      :: rank_from all (x :: seen) t
  end.

(** [Series.rank(method='first')] *)
Definition rank_first (l : list A) : list Z := rank_from l [] l.
End Rank.

Definition Z_range (n : nat) : list Z := map Z.of_nat (seq 0 n).

(** [np.linspace(a, b, m)] *)
Definition linspace (a b : Q) (m : nat) : list Q :=
  map (fun k => a + inject_Z k * (b - a) / inject_Z (Z.of_nat (m - 1))) (Z_range m).

(** Linear-interpolation quantile of a sorted series at the fraction [p]. *)
Definition quantile (sorted : list Q) (p : Q) : Q :=
  let n := List.length sorted in
  let pos := inject_Z (Z.of_nat (n - 1)) * p in
  let i := Qfloor pos in
  let lo := nth (Z.to_nat i) sorted 0 in
  let hi := nth (Nat.min (Z.to_nat i + 1) (n - 1)) sorted 0 in
  lo + (hi - lo) * (pos - inject_Z i).

(** The binning shared by [qcut] and [cut]: the bin of [v] is the number of
    edges strictly below it (intervals are closed on the right); a value
    outside every interval is undefined; edges that are not distinct are
    refused. *)
Definition bins_to_cuts (include_lowest : bool) (bins : list Q) (labels : list string)
  (x : list Q) : result (list cell) :=
  if Nat.ltb (List.length (unique Qeq_bool bins)) (List.length bins)
     && negb (Nat.eqb (List.length bins) 2)
  then Raise (ValueError "Bin edges must be unique")
  else
    Ok (map (fun v =>
               let id := count (fun b => Qlt_bool b v) bins in
               let id := if include_lowest && Qeq_bool v (hd 0 bins) then 1%nat else id in
               if Nat.eqb id 0 || Nat.eqb id (List.length bins) then CNaN
               else match nth_error labels (id - 1) with
                    | Some s => CStr s
                    | None => CNaN
                    end) x).

Definition quantile_edges (x : list Q) (q : nat) : list Q :=
  map (quantile (sort Qle_bool x)) (linspace 0 1 (q + 1)).

(** [pd.qcut(x, q, labels)] *)
Definition qcut (x : list Q) (q : nat) (labels : list string) : result (list cell) :=
  bins_to_cuts true (quantile_edges x q) labels x.

Definition qmin (a b : Q) : Q := if Qle_bool a b then a else b.
Definition qmax (a b : Q) : Q := if Qle_bool a b then b else a.

Definition width_edges (x0 : Q) (t : list Q) (nbins : nat) : list Q :=
  let mn := fold_right qmin x0 t in
  let mx := fold_right qmax x0 t in
  if Qeq_bool mn mx then
    linspace (mn - (if Qeq_bool mn 0 then 1 # 1000 else (1 # 1000) * Qabs mn))
             (mx + (if Qeq_bool mx 0 then 1 # 1000 else (1 # 1000) * Qabs mx))
             (nbins + 1)
  else
    match linspace mn mx (nbins + 1) with
    | b0 :: bs => (b0 - (mx - mn) * (1 # 1000)) :: bs
    | [] => []
    end.

(** [pd.cut(x, bins=nbins, labels)] *)
Definition cut (x : list Q) (nbins : nat) (labels : list string) : result (list cell) :=
  match x with
  | [] => Raise (ValueError "Cannot cut empty array")
  | x0 :: t => bins_to_cuts false (width_edges x0 t nbins) labels x
  end.

Fixpoint dropna {V : Type} (l : list (option V)) : list V :=
  match l with
  | [] => []
  | Some v :: t => v :: dropna t
  | None :: t => dropna t
  end.

(** [Series.mode()]: the most frequent defined values, ascending. *)
Definition series_mode (l : list (option string)) : list string :=
  let vals := dropna l in
  let keys := group_keys String.eqb String.leb vals in
  let occ := fun k => count_occ string_dec vals k in
  let best := fold_right Nat.max 0%nat (map occ keys) in
  filter (fun k => Nat.eqb (occ k) best) keys.

(* ================================================================= *)
(** ** Customer segmentation *)

Definition price_labels : list string := ["Budget"; "Value"; "Mid-Range"; "Premium"; "Luxury"].
Definition frequency_labels : list string := ["Low"; "Medium"; "High"].

Definition Qrank (x : list Q) : list Q := map inject_Z (rank_first Qlt_bool Qeq_bool x).

(** The [try]/[except] that computes Price_Category. *)
Definition price_category (prices : list Q) : result (list cell) :=
  try_except (qcut (Qrank prices) 5 price_labels)
             (fun _ => cut prices 5 price_labels).

(** [lambda x: x.mode().iat[0] if not x.mode().empty else np.nan] *)
Definition first_mode (x : list (option string)) : cell :=
  match series_mode x with
  | [] => CNaN
  | m :: _ => CStr m
  end.

(** [df.groupby('Customer_ID')['Vehicle_Type'].agg(...)]: a series indexed
    by customer. *)
Definition primary_type_by_customer (rows : list Row) : list (label * cell) :=
  groupby_agg label_eqb label_leb first_mode
    (map (fun r => (Customer_ID r, Vehicle_Type r)) rows).

(** [df.groupby('Customer_ID').size().to_dict()] *)
Definition purchase_freq (rows : list Row) : list (label * Z) :=
  groupby_agg label_eqb label_leb (fun g : list unit => Z.of_nat (List.length g))
    (map (fun r => (Customer_ID r, tt)) rows).

(** [frame[name] = values]: the column is replaced where it exists and
    appended otherwise; the rows are untouched. *)
Fixpoint assoc_set {V : Type} (name : string) (v : V) (l : list (string * V))
  : list (string * V) :=
  match l with
  | [] => [(name, v)]
  | (n, w) :: t => if String.eqb n name then (n, v) :: t else (n, w) :: assoc_set name v t
  end.

Definition setitem (df : DataFrame) (name : string) (values : list cell) : DataFrame :=
  {| df_columns := if mem String.eqb name (df_columns df)
                   then df_columns df else df_columns df ++ [name];
     df_rows := df_rows df;
     df_extra := assoc_set name values (df_extra df) |}.

(** [frame[name]] for a column outside the sales record. *)
Definition getitem (df : DataFrame) (name : string) : option (list cell) :=
  lookup String.eqb (df_extra df) name.

(** *** Frames as objects

    The operation copies its argument and then assigns columns to the
    copy, so frames live in a store and are passed by reference. *)

Definition ref : Type := nat.
Definition heap : Type := list DataFrame.
Definition M (A : Type) : Type := heap -> result A * heap.

Definition ret {A : Type} (a : A) : M A := fun h => (Ok a, h).
Definition raise {A : Type} (e : exn) : M A := fun h => (Raise e, h).
Definition lift {A : Type} (r : result A) : M A := fun h => (r, h).

Definition mbind {A B : Type} (m : M A) (k : A -> M B) : M B :=
  fun h => match m h with
           | (Ok a, h') => k a h'
           | (Raise e, h') => (Raise e, h')
           end.

(** [try: m except Exception: handler]; what [m] stored before raising
    stays stored. *)
Definition attempt {A : Type} (m : M A) (handler : exn -> M A) : M A :=
  fun h => match m h with
           | (Ok a, h') => (Ok a, h')
           | (Raise e, h') => handler e h'
           end.

Declare Scope heap_scope.
Delimit Scope heap_scope with heap.
Notation "x <~ m ;; k" := (mbind m (fun x => k))
  (at level 100, m at next level, right associativity) : heap_scope.
Notation "m ;;; k" := (mbind m (fun _ => k))
  (at level 100, right associativity) : heap_scope.

(** Reading the frame a reference points to.  Every reference handed out
    by [copy] or held by a caller is allocated; the failure case is there
    only to make the function total. *)
Definition load (r : ref) : M DataFrame :=
  fun h => match nth_error h r with
           | Some d => (Ok d, h)
           | None => (Raise (ValueError "unallocated frame"), h)
           end.

Fixpoint update (h : heap) (r : ref) (d : DataFrame) : heap :=
  match h, r with
  | [], _ => []
  | _ :: t, O => d :: t
  | x :: t, S r' => x :: update t r' d
  end.

(** [r[name] = values] *)
Definition store (r : ref) (name : string) (values : list cell) : M unit :=
  fun h => match nth_error h r with
           | Some d => (Ok tt, update h r (setitem d name values))
           | None => (Raise (ValueError "unallocated frame"), h)
           end.

(** [r[name] = scalar] *)
Definition store_scalar (r : ref) (name : string) (value : cell) : M unit :=
  (d <~ load r ;; store r name (map (fun _ => value) (df_rows d)))%heap.

(** [r.copy()] *)
Definition copy (r : ref) : M ref :=
  fun h => match nth_error h r with
           | Some d => (Ok (List.length h), h ++ [d])
           | None => (Raise (ValueError "unallocated frame"), h)
           end.

Definition segment_customer_base (df : option ref) : M ref :=
  match df with
  | None => raise (DataAnalysisError "segment_customer_base requires a non-empty DataFrame")
  | Some df =>
    (d <~ load df ;;
     lift (require_non_empty "segment_customer_base" (Some d)) ;;;
     lift (_ensure_columns d ["Price_USD"; "Customer_ID"; "Vehicle_Type"]) ;;;
     segments <~ copy df ;;
     (* Price sensitivity *)
     attempt (d <~ load df ;;
              c <~ lift (qcut (Qrank (map Price_USD (records d))) 5 price_labels) ;;
              store segments "Price_Category" c)
             (fun _ =>
              d <~ load df ;;
              c <~ lift (cut (map Price_USD (records d)) 5 price_labels) ;;
              store segments "Price_Category" c) ;;;
     (* Vehicle type preference: the series is indexed by customer and is
        aligned on the row labels of [segments] when it is assigned *)
     attempt (d <~ load df ;;
              s <~ load segments ;;
              store segments "Primary_Type"
                (reindex label_eqb CNaN (primary_type_by_customer (records d)) (df_index s)))
             (fun _ => store_scalar segments "Primary_Type" CNaN) ;;;
     (* Purchase frequency *)
     attempt (d <~ load df ;;
              let freq_map := purchase_freq (records d) in
              s <~ load segments ;;
              let mapped := map (fun r => lookup label_eqb freq_map (Customer_ID r)) (records s) in
              store segments "Purchase_Frequency"
                (map (fun c => match c with Some n => CInt n | None => CNaN end) mapped) ;;;
              c <~ lift (qcut (map inject_Z (rank_first Z.ltb Z.eqb (dropna mapped))) 3
                           frequency_labels) ;;
              store segments "Purchase_Frequency" c)
             (fun _ => store_scalar segments "Purchase_Frequency" (CStr "Unknown")) ;;;
     ret segments)%heap
  end.

(** The columns the three blocks of [segment_customer_base] assign, as
    functions of the argument frame. *)
Definition primary_type_column (d : DataFrame) : list cell :=
  reindex label_eqb CNaN (primary_type_by_customer (records d)) (df_index d).

Definition mapped_frequency (d : DataFrame) : list (option Z) :=
  map (fun r => lookup label_eqb (purchase_freq (records d)) (Customer_ID r)) (records d).

Definition purchase_frequency_column (d : DataFrame) : list cell :=
  match qcut (map inject_Z (rank_first Z.ltb Z.eqb (dropna (mapped_frequency d)))) 3
          frequency_labels with
  | Ok c => c
  | Raise _ => map (fun _ => CStr "Unknown") (df_rows d)
  end.

(* ================================================================= *)
(** ** Vocabulary of the properties *)

Definition raised {A : Type} (r : result A) : option exn :=
  match r with
  | Ok _ => None
  | Raise e => Some e
  end.

(** The two guards every operation starts with. *)
Definition validate (name : string) (required : list string) (df : option DataFrame)
  : result DataFrame :=
  (d <- require_non_empty name df ;; _ensure_columns d required ;;; Ok d)%result.





Definition market_required : list string :=
  ["Market_Segment"; "Sales_Volume"; "Price_USD"; "Year"].
Definition regional_required : list string :=
  ["Region"; "Year"; "Sales_Volume"; "Model"; "Market_Segment"].
Definition time_series_required : list string :=
  ["Year"; "Sales_Volume"; "Price_USD"; "Green_Vehicle"].
Definition segmentation_required : list string :=
  ["Price_USD"; "Customer_ID"; "Vehicle_Type"].

(** A table the operations accept: not empty and with the required
    columns. *)
Definition accepted (required : list string) (d : DataFrame) : Prop :=
  empty d = false /\ missing_columns d required = [].

(** Sales of a segment and of the whole table, read off the rows. *)
Definition segment_rows (d : DataFrame) (s : string) : list Row :=
  filter (fun r => String.eqb (Market_Segment r) s) (records d).

Definition segment_volume (d : DataFrame) (s : string) : Z :=
  Zsum (map Sales_Volume (segment_rows d s)).

Definition total_volume (d : DataFrame) : Z := Zsum (map Sales_Volume (records d)).

(** The volumes of the table add up without wrapping around: none is
    negative and their sum, as a whole number, is below 2^63. *)
Definition no_wraparound (d : DataFrame) : Prop :=
  (forall r, In r (records d) -> (0 <= Sales_Volume r)%Z)
  /\ (exact_sum (map Sales_Volume (records d)) < 2 ^ 63)%Z.

(** The segment and volume columns, and the segments that occur. *)
Definition market_rows (d : DataFrame) : list (string * Z) :=
  map (fun r => (Market_Segment r, Sales_Volume r)) (records d).

Definition segments_of (d : DataFrame) : list string :=
  group_keys String.eqb String.leb (map fst (market_rows d)).

Definition Qsum (l : list Q) : Q := fold_right Qplus 0 l.

(** The years that occur, ascending. *)
Definition years_of (d : DataFrame) : list Z :=
  group_keys Z.eqb Z.leb (map Year (records d)).

(** The summed volume of a segment in a year; undefined when the segment
    has no row in that year. *)
Definition volume_in (d : DataFrame) (s : string) (y : Z) : option Z :=
  match map Sales_Volume
            (filter (fun r => String.eqb (Market_Segment r) s && Z.eqb (Year r) y)
                    (records d)) with
  | [] => None
  | vs => Some (Zsum vs)
  end.

(** [y1] is the latest year of the table and [y2] the one before it. *)
Definition latest_two (d : DataFrame) (y1 y2 : Z) : Prop :=
  In y1 (map Year (records d)) /\ In y2 (map Year (records d)) /\ (y2 < y1)%Z
  /\ forall r, In r (records d) ->
               (Year r <= y1)%Z /\ ((Year r < y1)%Z -> (Year r <= y2)%Z).

(** The pivot [calculate_market_metrics] builds for the growth column. *)
Definition yearly_sales_of (d : DataFrame) : Pivot string Z (option Z) :=
  pivot_sum String.eqb String.leb Z.eqb Z.leb
    (map (fun r => ((Market_Segment r, Year r), Sales_Volume r)) (records d)).

(** The volume a segment sold in a year, which is 0 when it has no row in
    that year. *)
Definition volume_of (d : DataFrame) (s : string) (y : Z) : Z :=
  Zsum (map Sales_Volume
            (filter (fun r => String.eqb (Market_Segment r) s && Z.eqb (Year r) y)
                    (records d))).

(** Every segment of the table has a row in every year of the table. *)
Definition complete (d : DataFrame) : bool :=
  forallb (fun y => forallb (fun s => match volume_in d s y with
                                      | Some _ => true
                                      | None => false
                                      end) (segments_of d))
          (years_of d).


Definition model_volume (d : DataFrame) (region model : string) : Z :=
  Zsum (map Sales_Volume
            (filter (fun r => String.eqb (Region r) region && String.eqb (Model r) model)
                    (records d))).

(** The grouped sums per (Region, Model) after [reset_index()], which is
    the frame handed to [sort_values]. *)
Definition grouped_models (d : DataFrame) : list TopRow :=
  reset_index
    (groupby_agg (pair_eqb String.eqb String.eqb)
       (pair_leb String.eqb String.leb String.leb) Zsum
       (map (fun r => ((Region r, Model r), Sales_Volume r)) (records d))).

(** The rows of a region in a frame of grouped sums. *)
Definition in_region (region : string) (l : list TopRow) : list TopRow :=
  filter (fun x => String.eqb (tm_region x) region) l.

(** [x] comes before [y] in [l]. *)
Definition before (x y : TopRow) (l : list TopRow) : Prop :=
  exists l1 l2 l3, l = l1 ++ x :: l2 ++ y :: l3.

(** Green vehicles sold in a year, and the first and last year. *)
Definition green_count (d : DataFrame) (y : Z) : Z :=
  count_true (map Green_Vehicle (filter (fun r => Z.eqb (Year r) y) (records d))).

Definition first_year (d : DataFrame) (y : Z) : Prop :=
  In y (map Year (records d)) /\ forall r, In r (records d) -> (y <= Year r)%Z.

Definition last_year (d : DataFrame) (y : Z) : Prop :=
  In y (map Year (records d)) /\ forall r, In r (records d) -> (Year r <= y)%Z.

(** The ranks 1 to [n] as a sorted series, and the quantile edges of
    such a series for five bins: six equally spaced points from 1 to
    [n]. *)
Definition one_to_n (n : nat) : list Q := map inject_Z (map Z.of_nat (seq 1 n)).





(** Rows of one region with equal volume appear in the order they had
    before the sort, that is, by the label [reset_index()] gave them. *)
Definition ties_in_frame_order (top : list TopRow) : Prop :=
  forall x y, before x y top ->
              tm_region x = tm_region y -> tm_volume x = tm_volume y ->
              (tm_label x < tm_label y)%nat.

(** The sort keeps rows of equal volume in the order they had. *)
Definition keeps_ties (sort_values : list TopRow -> list TopRow) : Prop :=
  forall l x y,
    before x y (sort_values l) -> tm_volume x = tm_volume y -> before x y l.

(** The column [name] of the frame that [segment_customer_base] returns
    for the argument [d], alone in the store. *)
Definition segmented_column (d : DataFrame) (name : string) : option (list cell) :=
  match segment_customer_base (Some 0%nat) [d] with
  | (Ok r, h) =>
      match nth_error h r with
      | Some out => getitem out name
      | None => None
      end
  | (Raise _, _) => None
  end.

Definition derived_columns : list string :=
  ["Price_Category"; "Primary_Type"; "Purchase_Frequency"].

(* ================================================================= *)
(** ** Sample tables *)

Definition all_columns : list string :=
  ["Model"; "Year"; "Region"; "Market_Segment"; "Sales_Volume"; "Price_USD";
   "Customer_ID"; "Vehicle_Type"; "Green_Vehicle"].

Definition mk_row (i : Z) (model : string) (year : Z) (region segment : string)
  (volume : Z) (price : Q) (customer : label) (vehicle : option string) (green : bool)
  : label * Row :=
  (LInt i,
   {| Model := model; Year := year; Region := region; Market_Segment := segment;
      Sales_Volume := volume; Price_USD := price; Customer_ID := customer;
      Vehicle_Type := vehicle; Green_Vehicle := green |}).

(** Four sales over two years, two regions and two segments, read from a
    file (rows labelled 0 to 3). *)
Definition sample : DataFrame :=
  {| df_columns := all_columns;
     df_rows := [mk_row 0 "X5" 2020 "EU" "B" 100 50000 (LStr "C1") (Some "Sedan") true;
                 mk_row 1 "X3" 2021 "EU" "A" 60 40000 (LStr "C1") (Some "Sedan") false;
                 mk_row 2 "X1" 2021 "US" "B" 200 30000 (LStr "C1") (Some "SUV") true;
                 mk_row 3 "X1" 2020 "US" "A" 40 30000 (LStr "C2") None true];
     df_extra := [] |}.

(** Three segments that each sold 2^63 - 1 vehicles, the largest int64
    value, in one row. *)
Definition overflow_table : DataFrame :=
  {| df_columns := all_columns;
     df_rows := [mk_row 0 "X1" 2020 "EU" "A" 9223372036854775807 30000
                        (LStr "C1") (Some "SUV") false;
                 mk_row 1 "X3" 2020 "EU" "B" 9223372036854775807 40000
                        (LStr "C2") (Some "SUV") false;
                 mk_row 2 "X5" 2020 "EU" "C" 9223372036854775807 60000
                        (LStr "C3") (Some "SUV") false];
     df_extra := [] |}.

(** Segment B sold 30 in 2020 and has no row in 2021. *)
Definition vanished_segment_table : DataFrame :=
  {| df_columns := all_columns;
     df_rows := [mk_row 0 "X1" 2020 "EU" "A" 50 30000 (LStr "C1") (Some "SUV") false;
                 mk_row 1 "X3" 2020 "EU" "B" 30 40000 (LStr "C2") (Some "SUV") true;
                 mk_row 2 "X5" 2021 "US" "A" 20 60000 (LStr "C2") (Some "SUV") true];
     df_extra := [] |}.


(** One region in which eighteen models sold the same volume. *)
Definition tied_models : list string :=
  ["M01"; "M02"; "M03"; "M04"; "M05"; "M06"; "M07"; "M08"; "M09";
   "M10"; "M11"; "M12"; "M13"; "M14"; "M15"; "M16"; "M17"; "M18"].

Definition tie_table : DataFrame :=
  {| df_columns := all_columns;
     df_rows := map (fun im => mk_row (Z.of_nat (fst im)) (snd im) 2020 "EU" "A" 50 30000
                                      (LStr "C1") (Some "SUV") false)
                    (combine (seq 0 18) tied_models);
     df_extra := [] |}.

(** No green vehicle in the first year, one in the second. *)
Definition late_green_table : DataFrame :=
  {| df_columns := all_columns;
     df_rows := [mk_row 0 "X1" 2020 "EU" "A" 50 30000 (LStr "C1") (Some "SUV") false;
                 mk_row 1 "i3" 2021 "EU" "A" 70 40000 (LStr "C2") (Some "Hatch") true];
     df_extra := [] |}.

(** Three sales, all in 2020. *)
Definition one_year_table : DataFrame :=
  {| df_columns := all_columns;
     df_rows := [mk_row 0 "X1" 2020 "EU" "A" 50 30000 (LStr "C1") (Some "SUV") false;
                 mk_row 1 "X3" 2020 "US" "B" 70 40000 (LStr "C2") (Some "SUV") true;
                 mk_row 2 "X5" 2020 "US" "B" 20 60000 (LStr "C2") (Some "SUV") true];
     df_extra := [] |}.

(** One customer with three purchases: Sedan, Sedan, SUV. *)
Definition sedan_customer : DataFrame :=
  {| df_columns := all_columns;
     df_rows := [mk_row 0 "320i" 2020 "EU" "A" 10 30000 (LStr "C1") (Some "Sedan") false;
                 mk_row 1 "520i" 2021 "EU" "A" 12 40000 (LStr "C1") (Some "Sedan") false;
                 mk_row 2 "X3" 2022 "EU" "B" 15 50000 (LStr "C1") (Some "SUV") false];
     df_extra := [] |}.

(** The same purchases by the customer numbered 1. *)
Definition sedan_customer_numbered : DataFrame :=
  {| df_columns := all_columns;
     df_rows := [mk_row 0 "320i" 2020 "EU" "A" 10 30000 (LInt 1) (Some "Sedan") false;
                 mk_row 1 "520i" 2021 "EU" "A" 12 40000 (LInt 1) (Some "Sedan") false;
                 mk_row 2 "X3" 2022 "EU" "B" 15 50000 (LInt 1) (Some "SUV") false];
     df_extra := [] |}.

(** A table that already has a column called Price_Category. *)
Definition labelled_table : DataFrame :=
  {| df_columns := all_columns ++ ["Price_Category"];
     df_rows := df_rows sample;
     df_extra := [("Price_Category", [CStr "old"; CStr "old"; CStr "old"; CStr "old"])] |}.

(* ================================================================= *)
(** ** Preflight checks ([scripts/validate_data.py]) *)

(** [os.path.join] with the separator of a POSIX system. *)
Definition RAW_PATH : string := "data/raw/BMW_Worldwide_Sales_Records_2010_2024.csv".
Definition PROCESSED_DIR : string := "data/processed".

Definition REQUIRED_COLUMNS : list string :=
  ["Model"; "Year"; "Region"; "Color"; "Fuel_Type"; "Transmission";
   "Engine_Size_L"; "Mileage_KM"; "Price_USD"; "Sales_Volume"].

(** What the script finds at [RAW_PATH]: nothing, a file that
    [pd.read_csv] refuses with the message [msg], or a table with the
    given column labels. *)
Inductive raw_file : Type :=
| Absent
| Unreadable (msg : string)
| Header (columns : list string).

(** The part of the file system the script looks at. *)
Record Files : Type := {
  raw : raw_file;
  processed_dir : bool
}.

(** [[c for c in REQUIRED_COLUMNS if c not in df_head.columns]] *)
Definition missing_required (columns : list string) : list string :=
  filter (fun c => negb (mem String.eqb c columns)) REQUIRED_COLUMNS.

(** [main()]: the lines printed, in order, and the exit status. *)
Definition main (fs : Files) : list string * Z :=
  let check :=
    match raw fs with
    | Absent =>
        (false,
         [("[MISSING] Raw dataset not found at: " ++ RAW_PATH)%string;
          "  Download from Kaggle and place the CSV at the above path.";
          ("  Kaggle: https://www.kaggle.com/datasets/ahmadrazakashif/bmw-worldwide-sales-records-20102024"
             ++ String "010" EmptyString)%string])
    | Unreadable msg =>
        (false,
         [("[OK] Found raw dataset: " ++ RAW_PATH)%string;
          ("[ERROR] Could not read raw CSV head: " ++ msg)%string])
    | Header columns =>
        match missing_required columns with
        | [] =>
            (true,
             [("[OK] Found raw dataset: " ++ RAW_PATH)%string;
              "[OK] Required columns present in raw CSV (sampled)."])
        | missing =>
            (false,
             [("[OK] Found raw dataset: " ++ RAW_PATH)%string;
              ("[WARN] Missing expected columns: " ++ repr_list missing)%string])
        end
    end in
  let ok := fst check in
  let processed :=
    if processed_dir fs
    then ("[OK] Processed directory exists: " ++ PROCESSED_DIR)%string
    else ("[INFO] Processed directory will be created by notebooks: " ++ PROCESSED_DIR)%string in
  (snd check ++ [processed; String "010" "Summary:"]
     ++ [if ok then "  ✔ Data checks passed. You can run the notebooks."
         else "  ✖ Some checks failed. See messages above."],
   if ok then 0%Z else 1%Z).

Definition exit_status (fs : Files) : Z := snd (main fs).
Definition printed (fs : Files) : list string := fst (main fs).

(** A table with exactly the columns the preflight asks for. *)
Definition raw_table : DataFrame :=
  {| df_columns := REQUIRED_COLUMNS;
     df_rows := df_rows sample;
     df_extra := [] |}.

(* ================================================================= *)
(** ** Cleaning ([scripts/data_cleaning.py])

    The cleaning functions take any table, so a frame is modelled here
    by its column labels and its rows of tagged cells.  A cell carries the
    kind of its column: a number column (int64 or float64) holds [Num]
    cells, an object or category column [Obj] cells, any other column
    (bool, datetime) [Plain] cells; a missing value is [None].  Messages
    printed on the side are not modelled. *)

Inductive value : Type :=
| Num (x : option Q)
| Obj (s : option string)
| Plain (c : cell).

Record Frame : Type := {
  names : list string;
  body : list (label * list value)
}.

(** [df.empty] *)
Definition frame_empty (df : Frame) : bool :=
  match body df, names df with
  | [], _ | _, [] => true
  | _, _ => false
  end.

(** The column at position [j], from the first row to the last. *)
Definition column (df : Frame) (j : nat) : list value :=
  map (fun r => nth j (snd r) (Plain CNaN)) (body df).

Inductive cleaning_result (A : Type) : Type :=
| Cleaned (a : A)
| DataCleaningError (msg : string).

Arguments Cleaned {A} a.
Arguments DataCleaningError {A} msg.

(** *** Duplicate rows *)

Definition fnum_eqb (a b : fnum) : bool :=
  match a, b with
  | Fin x, Fin y => Qeq_bool x y
  | PInf, PInf | NInf, NInf | NaN, NaN => true
  | _, _ => false
  end.

Definition cell_eqb (a b : cell) : bool :=
  match a, b with
  | CInt x, CInt y => Z.eqb x y
  | CNum x, CNum y => fnum_eqb x y
  | CStr x, CStr y => String.eqb x y
  | CBool x, CBool y => Bool.eqb x y
  | CNaN, CNaN => true
  | _, _ => false
  end.

(** Two cells hold the same value; two missing values count as the
    same. *)
Definition value_eqb (a b : value) : bool :=
  match a, b with
  | Num (Some x), Num (Some y) => Qeq_bool x y
  | Num None, Num None => true
  | Obj (Some x), Obj (Some y) => String.eqb x y
  | Obj None, Obj None => true
  | Plain x, Plain y => cell_eqb x y
  | _, _ => false
  end.

Fixpoint row_eqb (a b : list value) : bool :=
  match a, b with
  | [], [] => true
  | x :: a', y :: b' => value_eqb x y && row_eqb a' b'
  | _, _ => false
  end.

(** A row is marked when an earlier row holds the same values. *)
Fixpoint duplicated_from (seen rows : list (list value)) : list bool :=
  match rows with
  | [] => []
  | r :: t => existsb (row_eqb r) seen :: duplicated_from (r :: seen) t
  end.

(** [df.duplicated()]; an empty frame has no marks at all. *)
Definition duplicated (df : Frame) : list bool :=
  if frame_empty df then [] else duplicated_from [] (map snd (body df)).

(** [df.drop_duplicates()]: the rows that are not marked, with their
    labels. *)
Definition drop_duplicates (df : Frame) : Frame :=
  if frame_empty df then df
  else {| names := names df;
          body := map snd (filter (fun mr => negb (fst mr))
                                  (combine (duplicated df) (body df))) |}.

(** The argument is [None] for anything that is not a DataFrame. *)
Definition remove_duplicates (df : option Frame) : cleaning_result Frame :=
  match df with
  | None => DataCleaningError "remove_duplicates expects a pandas DataFrame"
  | Some df =>
      let duplicates := count_true (duplicated df) in
      if (0 <? duplicates)%Z then Cleaned (drop_duplicates df) else Cleaned df
  end.

(** *** Missing values *)

(** The defined numbers and the texts of a column. *)
Fixpoint numbers (col : list value) : list Q :=
  match col with
  | [] => []
  | Num (Some q) :: t => q :: numbers t
  | _ :: t => numbers t
  end.

Fixpoint texts (col : list value) : list (option string) :=
  match col with
  | [] => []
  | Obj s :: t => s :: texts t
  | _ :: t => texts t
  end.

(** [Series.median()]: missing values are skipped; the median of nothing
    is NaN, here [None]. *)
Definition median (l : list Q) : option Q :=
  let s := sort Qle_bool l in
  let n := List.length s in
  if Nat.eqb n 0 then None
  else if Nat.even n
       then Some ((nth (n / 2 - 1) s 0 + nth (n / 2) s 0) / 2)
       else Some (nth (n / 2) s 0).

(** What [fillna] makes of a cell of the column [col]: a missing number
    becomes the median of the column, a missing text its first mode; a
    column without any value is left alone. *)
Definition fill_value (col : list value) (v : value) : value :=
  match v with
  | Num None =>
      match median (numbers col) with
      | Some m => Num (Some m)
      | None => v
      end
  | Obj None =>
      match series_mode (texts col) with
      | m :: _ => Obj (Some m)
      | [] => v
      end
  | _ => v
  end.

Definition fill_row (df : Frame) (r : list value) : list value :=
  map (fun jv => fill_value (column df (fst jv)) (snd jv))
      (combine (seq 0 (List.length r)) r).

(** What an in-place method called on [df[col]] does to [df].  Without
    copy-on-write (the default of pandas 2) [df[col]] is a view of the
    frame and the change is written through to it; with copy-on-write
    (pandas 3, or pandas 2 with the option switched on) the method changes
    an object of its own and the frame keeps its cells. *)
Inductive inplace_mode : Type :=
| WriteThrough
| CopyOnWrite.

(** The function works on a copy, so its argument is not changed and
    the result is a new frame.  Both loops fill by
    [df[col].fillna(v, inplace=True)], so what they do to the frame
    depends on the mode: written through, each column is filled from its
    own values (the order of the two loops does not matter); with
    copy-on-write no cell of the frame changes.  Column labels are taken
    to be distinct, as [read_csv] makes them. *)
Definition fill_missing_values (mode : inplace_mode) (df : Frame) : Frame :=
  if frame_empty df then df
  else match mode with
       | WriteThrough =>
           {| names := names df;
              body := map (fun r => (fst r, fill_row df (snd r))) (body df) |}
       | CopyOnWrite => df
       end.

(** *** The pipeline

    What the pipeline asks of the operating system and of the CSV reader
    and writer, and the mode pandas runs in, is given by a [World]; what
    the pipeline changes there is recorded as a list of effects. *)

Record World : Type := {
  path_exists : string -> bool;
  read_csv : string -> string + Frame;
  mkdir_error : string -> option string;
  write_error : string -> option string;
  inplace : inplace_mode
}.

Inductive effect : Type :=
| EnsuredDir (path : string)
| Wrote (path : string) (header : list string) (rows : list (list value)).

(** [load_data(file_path)]; [read_csv] answers with the message of the
    exception when it raises. *)
Definition load_data (w : World) (file_path : string) : cleaning_result Frame :=
  if negb (path_exists w file_path)
  then DataCleaningError ("File not found: " ++ file_path)
  else match read_csv w file_path with
       | inl exc =>
           DataCleaningError ("Failed to read CSV: " ++ file_path ++ "; " ++ exc)
       | inr df =>
           if frame_empty df
           then DataCleaningError ("Loaded dataframe is empty: " ++ file_path)
           else Cleaned df
       end.

Definition is_slash (c : ascii) : bool := Ascii.eqb c "/".

Fixpoint has_slash (p : string) : bool :=
  match p with
  | EmptyString => false
  | String c t => is_slash c || has_slash t
  end.

Fixpoint all_slashes (p : string) : bool :=
  match p with
  | EmptyString => true
  | String c t => is_slash c && all_slashes t
  end.

(** [p[:p.rfind('/') + 1]] *)
Fixpoint upto_last_slash (p : string) : string :=
  match p with
  | EmptyString => EmptyString
  | String c t => if has_slash p then String c (upto_last_slash t) else EmptyString
  end.

(** [head.rstrip('/')] *)
Fixpoint rstrip_slashes (p : string) : string :=
  match p with
  | EmptyString => EmptyString
  | String c t => if all_slashes p then EmptyString else String c (rstrip_slashes t)
  end.

(** [os.path.dirname] of a POSIX system. *)
Definition dirname (p : string) : string :=
  let head := upto_last_slash p in
  match head with
  | EmptyString => head
  | _ => if all_slashes head then head else rstrip_slashes head
  end.

(** [os.makedirs(name, exist_ok=True)]: the empty name is refused with
    FileNotFoundError whatever the file system holds. *)
Definition makedirs (w : World) (name : string) : option string :=
  match name with
  | EmptyString => Some "[Errno 2] No such file or directory: ''"
  | _ => mkdir_error w name
  end.

(** [clean_dataset(raw_path, save_path)]: the result and what was done
    to the file system.  [inspect_data] only prints; a write that raises
    is taken to leave no file. *)
Definition clean_dataset (w : World) (raw_path save_path : string)
  : cleaning_result Frame * list effect :=
  match load_data w raw_path with
  | DataCleaningError msg => (DataCleaningError msg, [])
  | Cleaned df =>
      match remove_duplicates (Some df) with
      | DataCleaningError msg => (DataCleaningError msg, [])
      | Cleaned df =>
          let df := fill_missing_values (inplace w) df in
          match makedirs w (dirname save_path) with
          | Some exc => (DataCleaningError ("Failed to clean dataset: " ++ exc), [])
          | None =>
              match write_error w save_path with
              | Some exc =>
                  (DataCleaningError ("Failed to clean dataset: " ++ exc),
                   [EnsuredDir (dirname save_path)])
              | None =>
                  (Cleaned df,
                   [EnsuredDir (dirname save_path);
                    Wrote save_path (names df) (map snd (body df))])
              end
          end
      end
  end.

(* ================================================================= *)
(** ** Further vocabulary and sample tables *)

(** The prices of the rows of a segment. *)
Definition segment_prices (d : DataFrame) (s : string) : list Q :=
  map Price_USD (segment_rows d s).

(** The summed volume of a region in a year, undefined when the region
    has no row in that year, and the summed volume of a region. *)
Definition region_year_volume (d : DataFrame) (region : string) (y : Z) : option Z :=
  match map Sales_Volume
            (filter (fun r => String.eqb (Region r) region && Z.eqb (Year r) y)
                    (records d)) with
  | [] => None
  | vs => Some (Zsum vs)
  end.

Definition region_volume (d : DataFrame) (region : string) : Z :=
  Zsum (map Sales_Volume (filter (fun r => String.eqb (Region r) region) (records d))).

(** What a cell of a pivot adds to a total: nothing when it is undefined. *)
Definition cell_volume (c : option (option Z)) : Z :=
  match c with
  | Some (Some z) => z
  | _ => 0%Z
  end.

(** The rows of a year, their summed volume and their prices. *)
Definition year_rows (d : DataFrame) (y : Z) : list Row :=
  filter (fun r => Z.eqb (Year r) y) (records d).

Definition year_volume (d : DataFrame) (y : Z) : Z :=
  Zsum (map Sales_Volume (year_rows d y)).

Definition year_prices (d : DataFrame) (y : Z) : list Q :=
  map Price_USD (year_rows d y).

(** The value of a time-series column at a year. *)
Definition at_year {V : Type} (ts : TimeSeries) (col : TimeSeries -> list V) (y : Z)
  : option V :=
  lookup Z.eqb (combine (ts_index ts) (col ts)) y.

(** A percent change between two yearly totals, as the code computes it. *)
Definition percent_change (prev cur : fnum) : fnum :=
  fmul (fsub (fdiv cur prev) (Fin 1)) (Fin 100).

(** Two years with the same total volume. *)
Definition steady_table : DataFrame :=
  {| df_columns := all_columns;
     df_rows := [mk_row 0 "X1" 2020 "EU" "A" 50 30000 (LStr "C1") (Some "SUV") false;
                 mk_row 1 "X3" 2021 "EU" "A" 20 40000 (LStr "C2") (Some "SUV") true;
                 mk_row 2 "X5" 2021 "US" "B" 30 60000 (LStr "C2") (Some "SUV") true];
     df_extra := [] |}.

(** The number of rows of the customer of [r]. *)
Definition purchases (d : DataFrame) (r : Row) : Z :=
  Z.of_nat (List.length (filter (fun x => label_eqb (Customer_ID x) (Customer_ID r))
                                (records d))).

(** The quantile edges of the ranks 1 to [n] for three bins, and the bin
    of a rank. *)
Definition frequency_edge (n : nat) (k : Z) : Q :=
  1 + inject_Z (Z.of_nat (n - 1)) * (inject_Z k / 3).

Definition frequency_bin (n : nat) (r : Z) : nat :=
  if (r =? 1)%Z then 1%nat
  else count (fun b => Qlt_bool b (inject_Z r)) (map (frequency_edge n) (Z_range 4)).


(** Strict order of strings, by character codes. *)
Definition string_lt (a b : string) : Prop := String.compare a b = Lt.

(** A segment that appears in the latest year only. *)
Definition new_segment_table : DataFrame :=
  {| df_columns := all_columns;
     df_rows := [mk_row 0 "X1" 2020 "EU" "A" 50 30000 (LStr "C1") (Some "SUV") false;
                 mk_row 1 "X3" 2021 "EU" "A" 20 40000 (LStr "C2") (Some "SUV") true;
                 mk_row 2 "i4" 2021 "US" "B" 30 60000 (LStr "C2") (Some "SUV") true];
     df_extra := [] |}.

(** The sample with its rows in another order. *)
Definition sample_reordered : DataFrame :=
  {| df_columns := all_columns;
     df_rows := rev (df_rows sample);
     df_extra := [] |}.

(** [l] is [l'] with some entries left out, the others in their order. *)
Inductive subsequence {A : Type} : list A -> list A -> Prop :=
| sub_nil : subsequence [] []
| sub_keep : forall x l l', subsequence l l' -> subsequence (x :: l) (x :: l')
| sub_drop : forall x l l', subsequence l l' -> subsequence l (x :: l').

(** The rows kept of [rows] when the rows of [seen] came before. *)
Definition kept_from (seen : list (list value)) (rows : list (label * list value))
  : list (label * list value) :=
  map snd (filter (fun mr => negb (fst mr))
                  (combine (duplicated_from seen (map snd rows)) rows)).

(** A cell that holds no value. *)
Definition missing (v : value) : bool :=
  match v with
  | Num None | Obj None => true
  | _ => false
  end.

(** How often the text [s] occurs in a column. *)
Definition occurrences (col : list value) (s : string) : nat :=
  count_occ string_dec (dropna (texts col)) s.

(** A raw table: a missing price and colour in the second row, and a
    fourth row that repeats the first. *)
Definition raw_sample : Frame :=
  {| names := ["Model"; "Price_USD"; "Color"];
     body := [(LInt 0, [Obj (Some "X1"); Num (Some 30000); Obj (Some "Black")]);
              (LInt 1, [Obj (Some "X3"); Num None; Obj None]);
              (LInt 2, [Obj (Some "X5"); Num (Some 50000); Obj (Some "Black")]);
              (LInt 3, [Obj (Some "X1"); Num (Some 30000); Obj (Some "Black")]);
              (LInt 4, [Obj (Some "X3"); Num (Some 40000); Obj (Some "White")])] |}.

(** A world in which every file exists and holds the sample, every
    directory and file can be written, and in-place methods write
    through; and the same world with copy-on-write. *)
Definition sample_world : World :=
  {| path_exists := fun _ => true;
     read_csv := fun _ => inr raw_sample;
     mkdir_error := fun _ => None;
     write_error := fun _ => None;
     inplace := WriteThrough |}.

Definition copy_on_write_world : World :=
  {| path_exists := fun _ => true;
     read_csv := fun _ => inr raw_sample;
     mkdir_error := fun _ => None;
     write_error := fun _ => None;
     inplace := CopyOnWrite |}.

(* ================================================================= *)
(** * Properties *)

(** ** Machine integers and sums *)

Ltac int64_bounds :=
  change (2 ^ 63)%Z with 9223372036854775808%Z in *;
  change (2 ^ 64)%Z with 18446744073709551616%Z in *.

Lemma int64_range : forall z, (- 2 ^ 63 <= int64 z < 2 ^ 63)%Z.
Proof.
  intro z. unfold int64.
  pose proof (Z.mod_pos_bound (z + 2 ^ 63) (2 ^ 64) eq_refl) as B.
  int64_bounds. lia.
Qed.

Lemma int64_small : forall z, (- 2 ^ 63 <= z < 2 ^ 63)%Z -> int64 z = z.
Proof.
  intros z H. unfold int64. int64_bounds. rewrite Z.mod_small; lia.
Qed.

Lemma int64_idem : forall z, int64 (int64 z) = int64 z.
Proof. intro z. apply int64_small, int64_range. Qed.

Lemma int64_add_l : forall a b, int64 (int64 a + b) = int64 (a + b).
Proof.
  intros a b. unfold int64. f_equal.
  replace ((a + 2 ^ 63) mod 2 ^ 64 - 2 ^ 63 + b + 2 ^ 63)%Z
    with ((a + 2 ^ 63) mod 2 ^ 64 + b)%Z by lia.
  rewrite Zplus_mod_idemp_l. f_equal. lia.
Qed.

Lemma int64_add_r : forall a b, int64 (a + int64 b) = int64 (a + b).
Proof. intros a b. rewrite (Z.add_comm a), int64_add_l. f_equal. lia. Qed.

Lemma exact_sum_zeros : forall (A : Type) (l : list A),
    exact_sum (map (fun _ => 0%Z) l) = 0%Z.
Proof. induction l as [|x t IH]; simpl; [reflexivity | now rewrite IH]. Qed.

Lemma exact_sum_map_add : forall (A : Type) (f g : A -> Z) (l : list A),
    exact_sum (map (fun x => (f x + g x)%Z) l)
    = (exact_sum (map f l) + exact_sum (map g l))%Z.
Proof. induction l as [|x t IH]; simpl; [reflexivity | rewrite IH; lia]. Qed.

Lemma Zsum_nil : Zsum [] = 0%Z.
Proof. reflexivity. Qed.

Lemma Zsum_range : forall l, (- 2 ^ 63 <= Zsum l < 2 ^ 63)%Z.
Proof. intro l. apply int64_range. Qed.

(** A wrapped sum of wrapped numbers is the wrapped sum of the
    numbers. *)
Lemma Zsum_int64 : forall (A : Type) (f : A -> Z) (l : list A),
    Zsum (map (fun x => int64 (f x)) l) = Zsum (map f l).
Proof.
  intros A f l. unfold Zsum. induction l as [|x t IH]; [reflexivity|].
  cbn [map exact_sum fold_right]. fold (exact_sum (map (fun x => int64 (f x)) t)).
  fold (exact_sum (map f t)).
  rewrite int64_add_l, <- int64_add_r, IH, int64_add_r. reflexivity.
Qed.

Lemma exact_sum_perm : forall l l', Permutation l l' -> exact_sum l = exact_sum l'.
Proof.
  intros l l' P. induction P; simpl; try lia.
Qed.

Lemma exact_sum_nonneg : forall l,
    (forall v, In v l -> (0 <= v)%Z) -> (0 <= exact_sum l)%Z.
Proof.
  induction l as [|x t IH]; intro H; simpl; [lia|].
  assert (0 <= x)%Z by (apply H; now left).
  assert (0 <= exact_sum t)%Z by (apply IH; intros; apply H; now right).
  unfold exact_sum in *. lia.
Qed.

Lemma exact_sum_filter_le : forall (A : Type) (f : A -> Z) (p : A -> bool) l,
    (forall x, In x l -> (0 <= f x)%Z) ->
    (exact_sum (map f (filter p l)) <= exact_sum (map f l))%Z.
Proof.
  intros A f p l. induction l as [|x t IH]; intro H; simpl; [lia|].
  assert (0 <= f x)%Z by (apply H; now left).
  assert (exact_sum (map f (filter p t)) <= exact_sum (map f t))%Z
    by (apply IH; intros; apply H; now right).
  unfold exact_sum in *. destruct (p x); simpl; lia.
Qed.

(** Numbers that are not negative and add up to less than 2^63 are
    summed without wrapping, and so is every selection of them. *)
Lemma Zsum_exact : forall l,
    (forall v, In v l -> (0 <= v)%Z) -> (exact_sum l < 2 ^ 63)%Z ->
    Zsum l = exact_sum l.
Proof.
  intros l Hpos Hlt. unfold Zsum. apply int64_small.
  pose proof (@exact_sum_nonneg l Hpos). int64_bounds. lia.
Qed.

Lemma Zsum_filter_exact : forall (A : Type) (f : A -> Z) (p : A -> bool) l,
    (forall x, In x l -> (0 <= f x)%Z) -> (exact_sum (map f l) < 2 ^ 63)%Z ->
    Zsum (map f (filter p l)) = exact_sum (map f (filter p l)).
Proof.
  intros A f p l Hpos Hlt. apply Zsum_exact.
  - intros v Hv. apply in_map_iff in Hv. destruct Hv as [x [<- Hx]].
    apply filter_In in Hx. apply Hpos. tauto.
  - pose proof (@exact_sum_filter_le A f p l Hpos). lia.
Qed.

(** ** Keys, sorting and groups *)

Section KeyFacts.
Variable K : Type.
Variable eqb : K -> K -> bool.
Hypothesis eqb_eq : forall a b, eqb a b = true <-> a = b.

Lemma eqb_refl' : forall a, eqb a a = true.
Proof. intro a. now apply eqb_eq. Qed.

Lemma eqb_neq' : forall a b, eqb a b = false <-> a <> b.
Proof.
  intros a b. split.
  - intros E H. apply eqb_eq in H. congruence.
  - intro H. destruct (eqb a b) eqn:E; [apply eqb_eq in E; contradiction | reflexivity].
Qed.

Lemma mem_In : forall k l, mem eqb k l = true <-> In k l.
Proof.
  intros k l. induction l as [|x t IH]; simpl.
  - split; [discriminate | tauto].
  - rewrite orb_true_iff, IH, eqb_eq. intuition congruence.
Qed.

Lemma unique_In : forall l x, In x (unique eqb l) <-> In x l.
Proof.
  induction l as [|a t IH]; intro x; simpl; [tauto|].
  rewrite filter_In, IH, negb_true_iff, eqb_neq'.
  split.
  - intros [H | [H _]]; auto.
  - intros [H | H]; auto.
    destruct (eqb x a) eqn:E.
    + apply eqb_eq in E. auto.
    + apply eqb_neq' in E. auto.
Qed.

Lemma unique_NoDup : forall l, NoDup (unique eqb l).
Proof.
  induction l as [|a t IH]; simpl; constructor.
  - rewrite filter_In, negb_true_iff. intros [_ H].
    now rewrite eqb_refl' in H.
  - now apply NoDup_filter.
Qed.

(** A series built over distinct labels is read back label by label. *)
Lemma lookup_map : forall (V : Type) (f : K -> V) keys k,
    lookup eqb (map (fun x => (x, f x)) keys) k
    = if mem eqb k keys then Some (f k) else None.
Proof.
  intros V f keys k. induction keys as [|x t IH]; simpl; [reflexivity|].
  destruct (eqb k x) eqn:E; simpl; [|exact IH].
  apply eqb_eq in E. now subst.
Qed.

Lemma lookup_combine_map : forall (V : Type) (f : K -> V) keys k,
    lookup eqb (combine keys (map f keys)) k
    = if mem eqb k keys then Some (f k) else None.
Proof.
  intros V f keys k. induction keys as [|x t IH]; simpl; [reflexivity|].
  destruct (eqb k x) eqn:E; simpl; [|exact IH].
  apply eqb_eq in E. now subst.
Qed.

Lemma reindex_self : forall (V : Type) (nan : V) (f : K -> V) keys,
    reindex eqb nan (map (fun x => (x, f x)) keys) keys = map f keys.
Proof.
  intros V nan f keys. unfold reindex. apply map_ext_in. intros k Hk.
  rewrite lookup_map. apply mem_In in Hk. now rewrite Hk.
Qed.

Lemma exact_sum_group_cons : forall (r : K * Z) (t : list (K * Z)) k,
    exact_sum (group eqb (r :: t) k)
    = ((if eqb (fst r) k then snd r else 0) + exact_sum (group eqb t k))%Z.
Proof.
  intros r t k. unfold group. simpl. destruct (eqb (fst r) k); simpl; lia.
Qed.

Lemma exact_sum_indicator : forall (keys : list K) k v,
    NoDup keys ->
    exact_sum (map (fun x => if eqb k x then v else 0%Z) keys)
    = if mem eqb k keys then v else 0%Z.
Proof.
  induction keys as [|x t IH]; intros k v ND; simpl; [reflexivity|].
  inversion ND as [|? ? Hx ND']; subst.
  rewrite (IH k v ND').
  destruct (eqb k x) eqn:E; simpl; [|reflexivity].
  apply eqb_eq in E. subst.
  destruct (mem eqb x t) eqn:M; [apply mem_In in M; contradiction | lia].
Qed.

(** Summing the groups of any duplicate-free key list that covers every
    row gives the sum of all rows: as whole numbers, and so also when
    every sum wraps around. *)
Lemma exact_sum_groups : forall (keys : list K) (rows : list (K * Z)),
    NoDup keys ->
    (forall r, In r rows -> In (fst r) keys) ->
    exact_sum (map (fun k => exact_sum (group eqb rows k)) keys) = exact_sum (map snd rows).
Proof.
  intros keys rows ND. induction rows as [|r t IH]; intro Hcov.
  - simpl. apply exact_sum_zeros.
  - rewrite (map_ext _ _ (exact_sum_group_cons r t)).
    rewrite exact_sum_map_add, exact_sum_indicator by assumption.
    rewrite IH by (intros; apply Hcov; now right).
    assert (M : mem eqb (fst r) keys = true) by (apply mem_In, Hcov; now left).
    rewrite M. simpl. reflexivity.
Qed.

Lemma Zsum_groups : forall (keys : list K) (rows : list (K * Z)),
    NoDup keys ->
    (forall r, In r rows -> In (fst r) keys) ->
    Zsum (map (fun k => Zsum (group eqb rows k)) keys) = Zsum (map snd rows).
Proof.
  intros keys rows ND Hcov.
  rewrite (Zsum_int64 (fun k => exact_sum (group eqb rows k))).
  unfold Zsum. f_equal. now apply exact_sum_groups.
Qed.

Variable leb : K -> K -> bool.

Lemma insert_perm : forall k l, Permutation (k :: l) (insert leb k l).
Proof.
  intros k l. induction l as [|x t IH]; simpl; [reflexivity|].
  destruct (leb k x); [reflexivity|].
  rewrite perm_swap. now constructor.
Qed.

Lemma sort_perm : forall l, Permutation l (sort leb l).
Proof.
  induction l as [|x t IH]; simpl; [constructor|].
  rewrite <- insert_perm. now constructor.
Qed.

Lemma group_keys_In : forall l x, In x (group_keys eqb leb l) <-> In x l.
Proof.
  intros l x. unfold group_keys. split; intro H.
  - apply unique_In. eapply Permutation_in; [symmetry; apply sort_perm | exact H].
  - apply unique_In in H. eapply Permutation_in; [apply sort_perm | exact H].
Qed.

Lemma group_keys_NoDup : forall l, NoDup (group_keys eqb leb l).
Proof.
  intro l. unfold group_keys.
  eapply Permutation_NoDup; [apply sort_perm | apply unique_NoDup].
Qed.

Lemma group_keys_nonempty : forall l, l <> [] -> group_keys eqb leb l <> [].
Proof.
  intros [|x t] H; [congruence|]. intro E.
  assert (In x (group_keys eqb leb (x :: t))) by (apply group_keys_In; now left).
  rewrite E in H0. contradiction.
Qed.
End KeyFacts.

Arguments mem_In {K eqb} eqb_eq k l.
Arguments unique_In {K eqb} eqb_eq l x.
Arguments unique_NoDup {K eqb} eqb_eq l.
Arguments lookup_map {K eqb} eqb_eq {V} f keys k.
Arguments lookup_combine_map {K eqb} eqb_eq {V} f keys k.
Arguments reindex_self {K eqb} eqb_eq {V} nan f keys.
Arguments exact_sum_groups {K eqb} eqb_eq keys rows.
Arguments Zsum_groups {K eqb} eqb_eq keys rows.
Arguments group_keys_In {K eqb} eqb_eq leb l x.
Arguments group_keys_NoDup {K eqb} eqb_eq leb l.
Arguments group_keys_nonempty {K eqb} eqb_eq leb l.

(* ================================================================= *)
(** ** Validation *)












(** What the two guards raise, case by case. *)
Lemma validate_cases : forall name required df,
    match df with
    | None =>
        validate name required df
        = Raise (DataAnalysisError (name ++ " requires a non-empty DataFrame"))
    | Some d =>
        if empty d
        then validate name required df
             = Raise (DataAnalysisError (name ++ " requires a non-empty DataFrame"))
        else match missing_columns d required with
             | [] => validate name required df = Ok d
             | missing =>
                 validate name required df
                 = Raise (DataAnalysisError ("Missing required columns: " ++ repr_list missing))
             end
    end.
Proof.
  intros name required [d|]; [|reflexivity].
  unfold validate, require_non_empty, _ensure_columns.
  destruct (empty d); simpl; [reflexivity|].
  destruct (missing_columns d required); reflexivity.
Qed.

Lemma validate_accepted : forall name required d,
    accepted required d -> validate name required (Some d) = Ok d.
Proof.
  intros name required d [E M].
  pose proof (validate_cases name required (Some d)) as H.
  simpl in H. now rewrite E, M in H.
Qed.

Lemma validate_Ok_inv : forall name required df d,
    validate name required df = Ok d -> df = Some d /\ accepted required d.
Proof.
  intros name required df d H.
  pose proof (validate_cases name required df) as C.
  destruct df as [d'|]; [|congruence].
  unfold accepted. destruct (empty d') eqn:E; [congruence|].
  destruct (missing_columns d' required) eqn:M; [|congruence].
  assert (d' = d) by congruence. subst. auto.
Qed.

Lemma market_metrics_validated : forall df,
    raised (calculate_market_metrics df)
    = raised (validate "calculate_market_metrics" market_required df).
Proof.
  intros [d|]; [|reflexivity].
  unfold calculate_market_metrics, validate, require_non_empty, market_required.
  destruct (empty d); [reflexivity|]. simpl bind.
  destruct (_ensure_columns d _); reflexivity.
Qed.

Lemma regional_validated : forall sort_values df,
    raised (analyze_regional_performance sort_values df)
    = raised (validate "analyze_regional_performance" regional_required df).
Proof.
  intros sv [d|]; [|reflexivity].
  unfold analyze_regional_performance, validate, require_non_empty, regional_required.
  destruct (empty d); [reflexivity|]. simpl bind.
  destruct (_ensure_columns d _); reflexivity.
Qed.

Lemma try_except_default : forall (A : Type) (m : result A) (v : A),
    exists x, try_except m (fun _ => Ok v) = Ok x.
Proof. intros A [a|e] v; simpl; eauto. Qed.

Lemma time_series_validated : forall df,
    raised (calculate_time_series_metrics df)
    = raised (validate "calculate_time_series_metrics" time_series_required df).
Proof.
  intros [d|]; [|reflexivity].
  unfold calculate_time_series_metrics, validate, require_non_empty, time_series_required.
  destruct (empty d); [reflexivity|]. simpl bind.
  destruct (_ensure_columns d _); [|reflexivity]. cbv beta iota zeta.
  match goal with
  | |- context [try_except ?m (fun _ => Ok (Fin 0))] =>
      destruct (try_except_default m (Fin 0)) as [g Hg]; rewrite Hg
  end.
  reflexivity.
Qed.

(** ** The store *)

Lemma nth_error_alloc_old : forall (h : heap) d r x,
    nth_error h r = Some x -> nth_error (h ++ [d]) r = Some x.
Proof.
  intros h d r x H. rewrite nth_error_app1; [exact H|].
  apply nth_error_Some. congruence.
Qed.

Lemma nth_error_alloc_new : forall (h : heap) d,
    nth_error (h ++ [d]) (List.length h) = Some d.
Proof.
  intros h d. rewrite nth_error_app2 by lia. now rewrite Nat.sub_diag.
Qed.

Lemma update_alloc_new : forall (h : heap) d d',
    update (h ++ [d]) (List.length h) d' = h ++ [d'].
Proof.
  induction h as [|x t IH]; intros d d'; simpl; [reflexivity|]. now rewrite IH.
Qed.

Lemma assoc_set_twice : forall (V : Type) n (v w : V) l,
    assoc_set n w (assoc_set n v l) = assoc_set n w l.
Proof.
  induction l as [|[k x] t IH]; simpl.
  - now rewrite String.eqb_refl.
  - destruct (String.eqb k n) eqn:E; simpl; rewrite E; [reflexivity | now rewrite IH].
Qed.

Lemma mem_app_self : forall n l, mem String.eqb n (l ++ [n]) = true.
Proof.
  intros n l. apply (mem_In String.eqb_eq), in_or_app. right. now left.
Qed.

Lemma setitem_twice : forall d n v w, setitem (setitem d n v) n w = setitem d n w.
Proof.
  intros d n v w. unfold setitem. simpl. rewrite assoc_set_twice. f_equal.
  destruct (mem String.eqb n (df_columns d)) eqn:E.
  - now rewrite E.
  - now rewrite mem_app_self.
Qed.

(* ================================================================= *)
(** ** Rationals, ranges and bin edges *)

Lemma Qlt_bool_iff : forall a b, Qlt_bool a b = true <-> (a < b)%Q.
Proof.
  intros a b. unfold Qlt_bool. rewrite negb_true_iff. split; intro H.
  - apply Qnot_le_lt. intro L. apply Qle_bool_iff in L. congruence.
  - destruct (Qle_bool b a) eqn:E; [|reflexivity].
    apply Qle_bool_iff in E. exfalso. exact (Qlt_not_le _ _ H E).
Qed.

Lemma Qlt_bool_false : forall a b, Qlt_bool a b = false <-> (b <= a)%Q.
Proof.
  intros a b. unfold Qlt_bool. rewrite negb_false_iff. apply Qle_bool_iff.
Qed.

Lemma Qeq_bool_false : forall a b, Qeq_bool a b = false <-> ~ (a == b)%Q.
Proof.
  intros a b. split; intro H.
  - intro E. apply Qeq_bool_iff in E. congruence.
  - destruct (Qeq_bool a b) eqn:E; [|reflexivity]. apply Qeq_bool_iff in E. contradiction.
Qed.

Lemma filter_all : forall (A : Type) (f : A -> bool) l,
    Forall (fun x => f x = true) l -> filter f l = l.
Proof.
  intros A f l H. induction H as [|x t Hx _ IH]; simpl; [reflexivity|].
  now rewrite Hx, IH.
Qed.

Lemma filter_none : forall (A : Type) (f : A -> bool) l,
    Forall (fun x => f x = false) l -> filter f l = [].
Proof.
  intros A f l H. induction H as [|x t Hx _ IH]; simpl; [reflexivity|].
  now rewrite Hx, IH.
Qed.

Lemma StronglySorted_map : forall (A B : Type) (R : A -> A -> Prop) (S : B -> B -> Prop)
                                  (f : A -> B) l,
    (forall x y, R x y -> S (f x) (f y)) ->
    StronglySorted R l -> StronglySorted S (map f l).
Proof.
  intros A B R S f l Hf H. induction H as [|x t _ IH Hx]; simpl; constructor; auto.
  rewrite Forall_map. eapply Forall_impl; [|exact Hx]. auto.
Qed.

Lemma seq_sorted : forall m s, StronglySorted lt (seq s m).
Proof.
  induction m as [|m IH]; intro s; simpl; constructor; auto.
  apply Forall_forall. intros x Hx. apply in_seq in Hx. lia.
Qed.

Lemma Z_range_sorted : forall m, StronglySorted Z.lt (Z_range m).
Proof.
  intro m. unfold Z_range.
  apply (StronglySorted_map (R := lt)); [intros; lia | apply seq_sorted].
Qed.

(** Strictly increasing edges are pairwise distinct, so the uniqueness
    test of the binning lets them through. *)
Lemma unique_increasing : forall l, StronglySorted Qlt l -> unique Qeq_bool l = l.
Proof.
  intros l H. induction H as [|x t _ IH Hx]; simpl; [reflexivity|].
  rewrite IH. f_equal. apply filter_all.
  eapply Forall_impl; [|exact Hx]. intros y Hy. simpl.
  apply negb_true_iff, Qeq_bool_false. intro E. rewrite E in Hy.
  exact (Qlt_irrefl _ Hy).
Qed.

Lemma linspace_increasing : forall a b m,
    (a < b)%Q -> (2 <= m)%nat -> StronglySorted Qlt (linspace a b m).
Proof.
  intros a b m Hab Hm. unfold linspace.
  apply (StronglySorted_map (R := Z.lt)); [|apply Z_range_sorted].
  intros x y Hxy.
  assert (D : (0 < inject_Z (Z.of_nat (m - 1)))%Q).
  { change 0%Q with (inject_Z 0). rewrite <- Zlt_Qlt. lia. }
  assert (C : (0 < (b - a) * / inject_Z (Z.of_nat (m - 1)))%Q).
  { apply Qmult_lt_0_compat; [lra | now apply Qinv_lt_0_compat]. }
  unfold Qdiv. rewrite <- !Qmult_assoc.
  apply Qplus_lt_r. apply Qmult_lt_r; [exact C|].
  now rewrite <- Zlt_Qlt.
Qed.

Lemma qmin_le_max : forall x0 t,
    (fold_right qmin x0 t <= x0)%Q /\ (x0 <= fold_right qmax x0 t)%Q.
Proof.
  intros x0 t. induction t as [|y t [IH1 IH2]]; simpl; [split; apply Qle_refl|].
  set (mn := fold_right qmin x0 t) in *. set (mx := fold_right qmax x0 t) in *.
  unfold qmin, qmax. split.
  - destruct (Qle_bool y mn) eqn:E; [|exact IH1].
    apply Qle_bool_iff in E. lra.
  - destruct (Qle_bool y mx) eqn:E; [exact IH2|].
    assert (~ (y <= mx)%Q) by (intro L; apply Qle_bool_iff in L; congruence).
    lra.
Qed.

Lemma width_edges_increasing : forall x0 t nbins,
    (1 <= nbins)%nat -> StronglySorted Qlt (width_edges x0 t nbins).
Proof.
  intros x0 t nbins Hn. unfold width_edges.
  destruct (qmin_le_max x0 t) as [Hmin Hmax].
  set (mn := fold_right qmin x0 t) in *. set (mx := fold_right qmax x0 t) in *.
  destruct (Qeq_bool mn mx) eqn:E.
  - apply Qeq_bool_iff in E. apply linspace_increasing; [|lia].
    assert (A1 : (0 < (if Qeq_bool mn 0 then 1 # 1000 else (1 # 1000) * Qabs mn))%Q).
    { destruct (Qeq_bool mn 0) eqn:Z0; [reflexivity|].
      apply Qeq_bool_false in Z0.
      apply Qmult_lt_0_compat; [reflexivity|].
      apply Qabs_case; intro; lra. }
    assert (A2 : (0 < (if Qeq_bool mx 0 then 1 # 1000 else (1 # 1000) * Qabs mx))%Q).
    { destruct (Qeq_bool mx 0) eqn:Z0; [reflexivity|].
      apply Qeq_bool_false in Z0.
      apply Qmult_lt_0_compat; [reflexivity|].
      apply Qabs_case; intro; lra. }
    lra.
  - apply Qeq_bool_false in E.
    assert (Hlt : (mn < mx)%Q) by lra.
    pose proof (linspace_increasing (m := nbins + 1) Hlt ltac:(lia)) as S.
    destruct (linspace mn mx (nbins + 1)) as [|b0 bs]; [constructor|].
    inversion S as [|? ? St Hb]; subst. constructor; [exact St|].
    eapply Forall_impl; [|exact Hb]. intros y Hy. simpl in Hy. lra.
Qed.

Lemma bins_to_cuts_increasing : forall lowest bins labels x,
    StronglySorted Qlt bins -> exists c, bins_to_cuts lowest bins labels x = Ok c.
Proof.
  intros lowest bins labels x H. unfold bins_to_cuts.
  rewrite (unique_increasing H), Nat.ltb_irrefl. simpl. eauto.
Qed.

(** Equal-width binning of a non-empty series never raises. *)
Lemma cut_total : forall x nbins labels,
    x <> [] -> (1 <= nbins)%nat -> exists c, cut x nbins labels = Ok c.
Proof.
  intros [|x0 t] nbins labels Hx Hn; [congruence|]. unfold cut.
  apply bins_to_cuts_increasing. now apply width_edges_increasing.
Qed.

Lemma bins_to_cuts_length : forall lowest bins labels x c,
    bins_to_cuts lowest bins labels x = Ok c -> List.length c = List.length x.
Proof.
  intros lowest bins labels x c. unfold bins_to_cuts.
  destruct (_ && _); [discriminate|]. intro H. inversion H. now rewrite length_map.
Qed.

(* ================================================================= *)
(** ** Running the segmentation *)

Lemma accepted_rows : forall required d, accepted required d -> df_rows d <> [].
Proof.
  intros required d [E _] H. unfold empty in E. rewrite H in E. discriminate.
Qed.

Lemma price_category_total : forall prices,
    prices <> [] -> exists pc, price_category prices = Ok pc.
Proof.
  intros prices H. unfold price_category.
  destruct (qcut (Qrank prices) 5 price_labels) as [c|e]; simpl; [eauto|].
  apply cut_total; [exact H | lia].
Qed.

Lemma mbind_ok : forall (A B : Type) (m : M A) (k : A -> M B) h a h',
    m h = (Ok a, h') -> mbind m k h = k a h'.
Proof. intros A B m k h a h' H. unfold mbind. now rewrite H. Qed.

Lemma mbind_raise : forall (A B : Type) (m : M A) (k : A -> M B) h e h',
    m h = (Raise e, h') -> mbind m k h = (Raise e, h').
Proof. intros A B m k h e h' H. unfold mbind. now rewrite H. Qed.

Lemma attempt_ok : forall (A : Type) (m : M A) handler h a h',
    m h = (Ok a, h') -> attempt m handler h = (Ok a, h').
Proof. intros A m handler h a h' H. unfold attempt. now rewrite H. Qed.

Lemma attempt_raise : forall (A : Type) (m : M A) handler h e h',
    m h = (Raise e, h') -> attempt m handler h = handler e h'.
Proof. intros A m handler h e h' H. unfold attempt. now rewrite H. Qed.

Lemma load_ok : forall h r d, nth_error h r = Some d -> load r h = (Ok d, h).
Proof. intros h r d H. unfold load. now rewrite H. Qed.

Lemma store_ok : forall h r d name values,
    nth_error h r = Some d ->
    store r name values h = (Ok tt, update h r (setitem d name values)).
Proof. intros h r d name values H. unfold store. now rewrite H. Qed.

Lemma store_new : forall (h : heap) s name values,
    store (List.length h) name values (h ++ [s]) = (Ok tt, h ++ [setitem s name values]).
Proof.
  intros h s name values.
  rewrite store_ok with (d := s) by apply nth_error_alloc_new.
  now rewrite update_alloc_new.
Qed.

Lemma store_scalar_new : forall (h : heap) s name value,
    store_scalar (List.length h) name value (h ++ [s])
    = (Ok tt, h ++ [setitem s name (map (fun _ => value) (df_rows s))]).
Proof.
  intros h s name value. unfold store_scalar.
  rewrite mbind_ok with (a := s) (h' := h ++ [s])
    by (apply load_ok, nth_error_alloc_new).
  apply store_new.
Qed.

(** On an accepted table the operation returns a new frame: the argument
    with the three columns assigned in turn, appended to the store. *)
Lemma segment_customer_base_run : forall (h : heap) (r : ref) (d : DataFrame),
    nth_error h r = Some d ->
    accepted segmentation_required d ->
    exists pc,
      price_category (map Price_USD (records d)) = Ok pc /\
      segment_customer_base (Some r) h
      = (Ok (List.length h),
         h ++ [setitem (setitem (setitem d "Price_Category" pc)
                          "Primary_Type" (primary_type_column d))
                 "Purchase_Frequency" (purchase_frequency_column d)]).
Proof.
  intros h r d Hr Hacc.
  assert (Hrows : map Price_USD (records d) <> []).
  { pose proof (accepted_rows Hacc) as N. unfold records.
    destruct (df_rows d); [congruence | discriminate]. }
  destruct (price_category_total Hrows) as [pc Hpc].
  exists pc. split; [exact Hpc|].
  assert (Hr' : forall s, nth_error (h ++ [s]) r = Some d) by (intro; now apply nth_error_alloc_old).
  destruct Hacc as [Hne Hmiss].
  unfold segment_customer_base.
  rewrite mbind_ok with (a := d) (h' := h) by (now apply load_ok).
  unfold lift at 1, require_non_empty. rewrite Hne.
  erewrite mbind_ok by reflexivity.
  unfold lift at 1, _ensure_columns. unfold segmentation_required in Hmiss. rewrite Hmiss.
  erewrite mbind_ok by reflexivity.
  erewrite mbind_ok by (unfold copy; rewrite Hr; reflexivity).
  match goal with
  | |- mbind (attempt ?m ?hd) ?k ?hh = _ =>
      assert (B1 : attempt m hd hh = (Ok tt, h ++ [setitem d "Price_Category" pc]))
  end.
  { unfold price_category in Hpc. unfold attempt, mbind, load, lift. rewrite Hr'.
    destruct (qcut (Qrank (map Price_USD (records d))) 5 price_labels) as [c|e];
      simpl in Hpc.
    - inversion Hpc; subst. now rewrite store_new.
    - rewrite Hr', Hpc. now rewrite store_new. }
  erewrite mbind_ok by exact B1. clear B1.
  set (s1 := setitem d "Price_Category" pc).
  match goal with
  | |- mbind (attempt ?m ?hd) ?k ?hh = _ =>
      assert (B2 : attempt m hd hh
                   = (Ok tt, h ++ [setitem s1 "Primary_Type" (primary_type_column d)]))
  end.
  { apply attempt_ok.
    rewrite mbind_ok with (a := d) (h' := h ++ [s1]) by (apply load_ok, Hr').
    rewrite mbind_ok with (a := s1) (h' := h ++ [s1])
      by (apply load_ok, nth_error_alloc_new).
    apply store_new. }
  erewrite mbind_ok by exact B2. clear B2.
  set (s2 := setitem s1 "Primary_Type" (primary_type_column d)).
  match goal with
  | |- mbind (attempt ?m ?hd) ?k ?hh = _ =>
      assert (B3 : attempt m hd hh
                   = (Ok tt, h ++ [setitem s2 "Purchase_Frequency" (purchase_frequency_column d)]))
  end.
  { unfold attempt.
    rewrite mbind_ok with (a := d) (h' := h ++ [s2]) by (apply load_ok, Hr').
    rewrite mbind_ok with (a := s2) (h' := h ++ [s2])
      by (apply load_ok, nth_error_alloc_new).
    erewrite mbind_ok by apply store_new.
    unfold purchase_frequency_column, mapped_frequency.
    change (records s2) with (records d).
    destruct (qcut _ 3 frequency_labels) as [c|e].
    - erewrite mbind_ok by reflexivity. rewrite store_new. now rewrite setitem_twice.
    - erewrite mbind_raise by reflexivity. rewrite store_scalar_new.
      now rewrite setitem_twice. }
  erewrite mbind_ok by exact B3. reflexivity.
Qed.



(* ================================================================= *)
(** ** Ascending years *)

Section SortFacts.
Variable A : Type.
Variable leb : A -> A -> bool.
Hypothesis leb_total : forall a b, leb a b = true \/ leb b a = true.
Hypothesis leb_trans : forall a b c, leb a b = true -> leb b c = true -> leb a c = true.

Let le (a b : A) : Prop := leb a b = true.

Lemma insert_le_Forall : forall a k l,
    le a k -> Forall (le a) l -> Forall (le a) (insert leb k l).
Proof.
  intros a k l Hk H. induction H as [|x t Hx Ht IH]; simpl.
  - now constructor.
  - destruct (leb k x); repeat constructor; auto.
Qed.

Lemma insert_sorted : forall k l,
    StronglySorted le l -> StronglySorted le (insert leb k l).
Proof.
  intros k l H. induction H as [|x t Ht IH Hx]; simpl.
  - repeat constructor.
  - destruct (leb k x) eqn:E.
    + constructor; [now constructor|].
      constructor; [exact E|]. eapply Forall_impl; [|exact Hx].
      intros y Hy. unfold le in *. eapply leb_trans; eassumption.
    + constructor; [exact IH|].
      apply insert_le_Forall; [|exact Hx].
      destruct (leb_total k x) as [H | H]; [congruence | exact H].
Qed.

Lemma sort_sorted : forall l, StronglySorted le (sort leb l).
Proof.
  induction l as [|x t IH]; simpl; [constructor | now apply insert_sorted].
Qed.
End SortFacts.

Lemma Zsort_sorted : forall l, StronglySorted Z.le (sort Z.leb l).
Proof.
  intro l.
  assert (H : StronglySorted (fun a b => (a <=? b)%Z = true) (sort Z.leb l)).
  { apply sort_sorted.
    - intros a b. rewrite !Z.leb_le. lia.
    - intros a b c. rewrite !Z.leb_le. lia. }
  induction H as [|x t _ IH Hx]; constructor; [exact IH|].
  eapply Forall_impl; [|exact Hx]. intros y Hy. now apply Z.leb_le.
Qed.

Lemma sorted_strict : forall l,
    StronglySorted Z.le l -> NoDup l -> StronglySorted Z.lt l.
Proof.
  intros l H. induction H as [|x t Ht IH Hx]; intro ND; constructor.
  - apply IH. now inversion ND.
  - inversion ND as [|? ? Hnin _]; subst.
    rewrite Forall_forall in *. intros y Hy.
    assert (x <> y) by (intro; subst; contradiction).
    specialize (Hx y Hy). lia.
Qed.

Lemma group_keys_ascending : forall l, StronglySorted Z.lt (group_keys Z.eqb Z.leb l).
Proof.
  intro l. apply sorted_strict.
  - apply Zsort_sorted.
  - apply (group_keys_NoDup Z.eqb_eq).
Qed.

Lemma ascending_first : forall l y,
    StronglySorted Z.lt l -> In y l -> (forall x, In x l -> (y <= x)%Z) ->
    exists t, l = y :: t.
Proof.
  intros [|a t] y H Hin Hmin; [contradiction|].
  exists t. f_equal. inversion H as [|? ? _ Ha]; subst.
  destruct Hin as [E | Hin]; [exact E|].
  rewrite Forall_forall in Ha. specialize (Ha y Hin).
  specialize (Hmin a (or_introl eq_refl)). lia.
Qed.

Lemma ascending_snoc : forall t y,
    StronglySorted Z.lt (t ++ [y]) -> StronglySorted Z.lt t /\ Forall (fun x => (x < y)%Z) t.
Proof.
  induction t as [|a t IH]; intros y H; simpl in *; [split; constructor|].
  inversion H as [|? ? Ht Ha]; subst. destruct (IH y Ht) as [S F].
  split.
  - constructor; [exact S|]. rewrite Forall_forall in *.
    intros x Hx. apply Ha, in_or_app. now left.
  - constructor; [|exact F]. rewrite Forall_forall in Ha.
    apply Ha, in_or_app. right. now left.
Qed.

Lemma ascending_last : forall l y,
    StronglySorted Z.lt l -> In y l -> (forall x, In x l -> (x <= y)%Z) ->
    exists t, l = t ++ [y].
Proof.
  induction l as [|a l IH]; intros y H Hin Hmax; [contradiction|].
  inversion H as [|? ? Hl Ha]; subst. rewrite Forall_forall in Ha.
  destruct l as [|b l'].
  - exists []. destruct Hin as [-> | []]. reflexivity.
  - destruct (IH y Hl) as [t Ht].
    + destruct Hin as [E | Hin]; [|exact Hin]. subst a.
      specialize (Ha b (or_introl eq_refl)).
      specialize (Hmax b (or_intror (or_introl eq_refl))). lia.
    + intros x Hx. apply Hmax. now right.
    + exists (a :: t). simpl. now rewrite Ht.
Qed.

(** The two last entries of an ascending list are its largest element
    and the largest of the others. *)
Lemma ascending_last_two : forall l y1 y2,
    StronglySorted Z.lt l -> In y1 l -> In y2 l -> (y2 < y1)%Z ->
    (forall x, In x l -> (x <= y1)%Z /\ ((x < y1)%Z -> (x <= y2)%Z)) ->
    exists t, l = t ++ [y2; y1].
Proof.
  intros l y1 y2 H H1 H2 Hlt Hmax.
  destruct (ascending_last H H1) as [t Ht]; [intros; now apply Hmax|].
  subst l. destruct (ascending_snoc _ _ H) as [St Ft].
  rewrite Forall_forall in Ft.
  destruct (ascending_last (l := t) (y := y2) St) as [t' Ht'].
  - apply in_app_or in H2. destruct H2 as [H2 | [E | []]]; [exact H2 | lia].
  - intros x Hx. apply Hmax; [apply in_or_app; now left | now apply Ft].
  - exists t'. subst t. now rewrite <- app_assoc.
Qed.

Lemma years_of_In : forall d y, In y (years_of d) <-> In y (map Year (records d)).
Proof. intros d y. apply (group_keys_In Z.eqb_eq). Qed.

Lemma latest_two_rev : forall d y1 y2,
    latest_two d y1 y2 -> exists t, rev (years_of d) = y1 :: y2 :: t.
Proof.
  intros d y1 y2 [H1 [H2 [Hlt Hmax]]].
  destruct (ascending_last_two (l := years_of d) (y1 := y1) (y2 := y2)) as [t Ht].
  - apply group_keys_ascending.
  - now apply years_of_In.
  - now apply years_of_In.
  - exact Hlt.
  - intros x Hx. apply years_of_In, in_map_iff in Hx.
    destruct Hx as [r [<- Hr]]. now apply Hmax.
  - exists (rev t). rewrite Ht, rev_app_distr. reflexivity.
Qed.

Lemma unique_constant : forall (y : Z) l,
    l <> [] -> (forall x, In x l -> x = y) -> unique Z.eqb l = [y].
Proof.
  intros y l. induction l as [|a t IH]; intros Hne Hall; [congruence|].
  simpl. rewrite (Hall a (or_introl eq_refl)). f_equal.
  apply filter_none, Forall_forall. intros x Hx.
  pose proof (proj1 (unique_In Z.eqb_eq _ _) Hx) as Hx'.
  rewrite (Hall x (or_intror Hx')), Z.eqb_refl. reflexivity.
Qed.

Lemma years_of_single : forall d y,
    records d <> [] -> (forall r, In r (records d) -> Year r = y) -> years_of d = [y].
Proof.
  intros d y Hne Hall. unfold years_of, group_keys.
  rewrite (unique_constant (y := y)); [reflexivity | |].
  - destruct (records d); [congruence | discriminate].
  - intros x Hx. apply in_map_iff in Hx. destruct Hx as [r [<- Hr]]. now apply Hall.
Qed.

(** ** Pivots *)

Section PivotFacts.
Variables R C : Type.
Variables (r_eqb r_leb : R -> R -> bool) (c_eqb c_leb : C -> C -> bool).
Hypothesis r_eqb_eq : forall a b, r_eqb a b = true <-> a = b.
Hypothesis c_eqb_eq : forall a b, c_eqb a b = true <-> a = b.

Lemma pivot_at_sum : forall (rows : list ((R * C) * Z)) r c,
    pivot_at r_eqb c_eqb (pivot_sum r_eqb r_leb c_eqb c_leb rows) r c
    = if mem c_eqb c (group_keys c_eqb c_leb (map (fun x => snd (fst x)) rows))
      then if mem r_eqb r (group_keys r_eqb r_leb (map (fun x => fst (fst x)) rows))
           then Some (cell_sum r_eqb c_eqb rows r c)
           else None
      else None.
Proof.
  intros rows r c. unfold pivot_at, pivot_col, pivot_sum. simpl.
  set (index := group_keys r_eqb r_leb _). set (columns := group_keys c_eqb c_leb _).
  rewrite (lookup_combine_map c_eqb_eq
             (fun c0 => map (fun r0 => cell_sum r_eqb c_eqb rows r0 c0) index) columns c).
  destruct (mem c_eqb c columns); [|reflexivity].
  apply (lookup_combine_map r_eqb_eq (fun r0 => cell_sum r_eqb c_eqb rows r0 c)).
Qed.
End PivotFacts.

Arguments pivot_at_sum {R C r_eqb} r_leb {c_eqb} c_leb r_eqb_eq c_eqb_eq rows r c.

(* ================================================================= *)
(** ** Facts about the market metrics *)

Lemma group_map : forall (K V : Type) (eqb : K -> K -> bool) (key : Row -> K)
                         (val : Row -> V) rows k,
    group eqb (map (fun r => (key r, val r)) rows) k
    = map val (filter (fun r => eqb (key r) k) rows).
Proof.
  intros K V eqb key val rows k. unfold group.
  induction rows as [|r t IH]; simpl; [reflexivity|].
  destruct (eqb (key r) k); simpl; now rewrite IH.
Qed.

Lemma groupby_agg_keys : forall (K V W : Type) (eqb leb : K -> K -> bool)
                                (f : list V -> W) rows,
    map fst (groupby_agg eqb leb f rows) = group_keys eqb leb (map fst rows).
Proof.
  intros. unfold groupby_agg. rewrite map_map. simpl. apply map_id.
Qed.

Lemma groupby_agg_values : forall (K V W : Type) (eqb leb : K -> K -> bool)
                                  (f : list V -> W) rows,
    map snd (groupby_agg eqb leb f rows)
    = map (fun k => f (group eqb rows k)) (group_keys eqb leb (map fst rows)).
Proof.
  intros. unfold groupby_agg. now rewrite map_map.
Qed.

Lemma segments_of_In : forall d s,
    In s (segments_of d) <-> exists r, In r (records d) /\ Market_Segment r = s.
Proof.
  intros d s. unfold segments_of, market_rows.
  rewrite (group_keys_In String.eqb_eq String.leb), map_map, in_map_iff. simpl.
  split; intros [r [H1 H2]]; exists r; auto.
Qed.

Lemma yearly_sales_columns : forall d, p_columns (yearly_sales_of d) = years_of d.
Proof.
  intro d. unfold yearly_sales_of, pivot_sum, years_of. simpl. now rewrite map_map.
Qed.

Lemma yearly_sales_index : forall d, p_index (yearly_sales_of d) = segments_of d.
Proof.
  intro d. unfold yearly_sales_of, pivot_sum, segments_of, market_rows. simpl.
  now rewrite !map_map.
Qed.

Lemma yearly_sales_cell : forall d s y,
    In s (segments_of d) -> In y (years_of d) ->
    match pivot_at String.eqb Z.eqb (yearly_sales_of d) s y with
    | Some c => c
    | None => None
    end = volume_in d s y.
Proof.
  intros d s y Hs Hy. unfold yearly_sales_of.
  rewrite (pivot_at_sum String.leb Z.leb String.eqb_eq Z.eqb_eq).
  rewrite !map_map. simpl.
  assert (My : mem Z.eqb y (group_keys Z.eqb Z.leb
                              (map (fun x : Row => Year x) (records d))) = true)
    by (apply (mem_In Z.eqb_eq); exact Hy).
  assert (Ms : mem String.eqb s (group_keys String.eqb String.leb
                                   (map (fun x : Row => Market_Segment x) (records d)))
               = true).
  { apply (mem_In String.eqb_eq). unfold segments_of, market_rows in Hs.
    rewrite map_map in Hs. exact Hs. }
  rewrite My, Ms.
  unfold cell_sum, volume_in.
  now rewrite (group_map (pair_eqb String.eqb Z.eqb)
                 (fun r => (Market_Segment r, Year r)) Sales_Volume).
Qed.

Lemma forallb_map_comp : forall (A B : Type) (f : A -> B) (p : B -> bool) l,
    forallb p (map f l) = forallb (fun x => p (f x)) l.
Proof.
  intros A B f p l. induction l as [|x t IH]; simpl; [reflexivity | now rewrite IH].
Qed.

Lemma forallb_ext_in : forall (A : Type) (p q : A -> bool) l,
    (forall x, In x l -> p x = q x) -> forallb p l = forallb q l.
Proof.
  intros A p q l. induction l as [|x t IH]; intro H; simpl; [reflexivity|].
  rewrite (H x) by now left. f_equal. apply IH. intros y Hy. apply H. now right.
Qed.

(** The yearly table is an int64 table exactly when every segment has a
    row in every year. *)
Lemma yearly_sales_integer : forall d, is_integer (yearly_sales_of d) = complete d.
Proof.
  intro d. unfold is_integer, complete.
  pose proof (yearly_sales_columns d) as Hc. pose proof (yearly_sales_index d) as Hi.
  unfold yearly_sales_of, pivot_sum in *. cbn [p_data p_columns p_index] in *.
  rewrite Hc, Hi, forallb_map_comp. apply forallb_ext_in. intros y Hy.
  rewrite forallb_map_comp. apply forallb_ext_in. intros s Hs.
  unfold cell_sum, volume_in.
  now rewrite (group_map (pair_eqb String.eqb Z.eqb)
                 (fun r => (Market_Segment r, Year r)) Sales_Volume).
Qed.

Lemma market_growth_column : forall d,
    match rev (p_columns (yearly_sales_of d)) with
    | last :: prev :: _ =>
        reindex String.eqb NaN (yoy_series (yearly_sales_of d) last prev) (segments_of d)
    | _ => map (fun _ => Fin 0) (segments_of d)
    end
    = match rev (years_of d) with
      | last :: prev :: _ =>
          map (fun s => yoy (complete d) (volume_in d s last) (volume_in d s prev))
              (segments_of d)
      | _ => map (fun _ => Fin 0) (segments_of d)
      end.
Proof.
  intro d. rewrite yearly_sales_columns.
  destruct (rev (years_of d)) as [|last [|prev t]] eqn:E; try reflexivity.
  assert (Hl : In last (years_of d) /\ In prev (years_of d)).
  { split; apply in_rev; rewrite E; simpl; auto. }
  destruct Hl as [Hl Hp].
  unfold yoy_series. rewrite yearly_sales_index, yearly_sales_integer.
  rewrite (reindex_self String.eqb_eq). apply map_ext_in. intros s Hs.
  now rewrite !yearly_sales_cell.
Qed.

(** The result on an accepted table, column by column. *)
Lemma calculate_market_metrics_ok : forall d,
    accepted market_required d ->
    exists m,
      calculate_market_metrics (Some d) = Ok m
      /\ metrics_index m = segments_of d
      /\ Market_Share m = map (segment_volume d) (segments_of d)
      /\ Market_Share_Pct m
         = (if (Zsum (Market_Share m) =? 0)%Z
            then map (fun _ => Fin 0) (segments_of d)
            else map (fun s => fmul (fdiv (of_Z (segment_volume d s))
                                          (of_Z (Zsum (Market_Share m))))
                                    (Fin 100)) (segments_of d))
      /\ YoY_Growth m
         = Some match rev (years_of d) with
                | last :: prev :: _ =>
                    map (fun s => yoy (complete d) (volume_in d s last)
                                      (volume_in d s prev))
                        (segments_of d)
                | _ => map (fun _ => Fin 0) (segments_of d)
                end.
Proof.
  intros d Hacc.
  pose proof (validate_accepted "calculate_market_metrics" Hacc) as V.
  unfold validate, market_required in V.
  unfold calculate_market_metrics.
  destruct (require_non_empty "calculate_market_metrics" (Some d)) as [d0|e];
    [|discriminate].
  simpl bind in *.
  destruct (_ensure_columns d0 _) as [u|e]; [|discriminate].
  assert (d0 = d) by (simpl in V; congruence). subst d0.
  eexists. split; [reflexivity|]. cbv beta iota zeta.
  cbn [try_except bind fst snd].
  fold (market_rows d). fold (yearly_sales_of d).
  assert (Hv : map snd (groupby_agg String.eqb String.leb Zsum (market_rows d))
               = map (segment_volume d) (segments_of d)).
  { rewrite groupby_agg_values. apply map_ext. intro s.
    unfold market_rows. now rewrite group_map. }
  cbn [metrics_index Market_Share Market_Share_Pct YoY_Growth].
  rewrite groupby_agg_keys. fold (segments_of d).
  split; [reflexivity|]. split; [exact Hv|]. split.
  - rewrite Hv. destruct (Zsum (map (segment_volume d) (segments_of d)) =? 0)%Z.
    + unfold groupby_agg. now rewrite map_map.
    + unfold groupby_agg. rewrite map_map. apply map_ext. intro s. simpl.
      unfold market_rows. now rewrite group_map.
  - f_equal. apply market_growth_column.
Qed.

Lemma market_share_total : forall d,
    Zsum (map (segment_volume d) (segments_of d)) = total_volume d.
Proof.
  intro d. unfold total_volume.
  replace (map Sales_Volume (records d)) with (map snd (market_rows d))
    by (unfold market_rows; now rewrite map_map).
  rewrite <- (Zsum_groups String.eqb_eq (segments_of d) (market_rows d)).
  - apply f_equal, map_ext. intro s. unfold segment_volume, segment_rows, market_rows.
    now rewrite group_map.
  - apply (group_keys_NoDup String.eqb_eq).
  - intros r Hr. apply (group_keys_In String.eqb_eq). now apply in_map.
Qed.

Lemma market_share_exact_total : forall d,
    exact_sum (map (fun s => exact_sum (map Sales_Volume (segment_rows d s))) (segments_of d))
    = exact_sum (map Sales_Volume (records d)).
Proof.
  intro d.
  replace (map Sales_Volume (records d)) with (map snd (market_rows d))
    by (unfold market_rows; now rewrite map_map).
  rewrite <- (exact_sum_groups String.eqb_eq (segments_of d) (market_rows d)).
  - apply f_equal, map_ext. intro s. unfold segment_rows, market_rows.
    now rewrite group_map.
  - apply (group_keys_NoDup String.eqb_eq).
  - intros r Hr. apply (group_keys_In String.eqb_eq). now apply in_map.
Qed.

(** Without wrap-around the volume of a segment and of the table are the
    sums as whole numbers. *)
Lemma segment_volume_exact : forall d s,
    no_wraparound d ->
    segment_volume d s = exact_sum (map Sales_Volume (segment_rows d s)).
Proof.
  intros d s [Hpos Hlt]. unfold segment_volume, segment_rows.
  now apply Zsum_filter_exact.
Qed.

Lemma total_volume_exact : forall d,
    no_wraparound d -> total_volume d = exact_sum (map Sales_Volume (records d)).
Proof.
  intros d [Hpos Hlt]. unfold total_volume. apply Zsum_exact; [|exact Hlt].
  intros v Hv. apply in_map_iff in Hv. destruct Hv as [r [<- Hr]]. now apply Hpos.
Qed.

Lemma fsum_Fin : forall (A : Type) (g : A -> Q) l,
    fsum (map (fun x => Fin (g x)) l) = Fin (Qsum (map g l)).
Proof.
  intros A g l. induction l as [|x t IH]; [reflexivity|].
  change (fadd (Fin (g x)) (fsum (map (fun x => Fin (g x)) t))
          = Fin (g x + Qsum (map g t))).
  now rewrite IH.
Qed.

Lemma Qsum_share : forall (T : Q) (l : list Z),
    (Qsum (map (fun v => inject_Z v / T * 100) l) == inject_Z (exact_sum l) / T * 100)%Q.
Proof.
  intros T l. induction l as [|v t IH]; simpl.
  - unfold Qdiv. ring.
  - rewrite IH, inject_Z_plus. unfold Qdiv. ring.
Qed.

Lemma inject_Z_nonzero : forall z, z <> 0%Z -> Qeq_bool (inject_Z z) 0 = false.
Proof.
  intros z Hz. apply Qeq_bool_false. intro E.
  unfold Qeq in E. simpl in E. lia.
Qed.

(** A value divided by a cell, times 100, by the sign of the value. *)
Lemma percent_of_cell : forall (p : Q) (z b : Z),
    (p == inject_Z z)%Q ->
    feq (fmul (fdiv (Fin p) (of_Z b)) (Fin 100))
        (if (b =? 0)%Z
         then if (0 <? z)%Z then PInf else if (z <? 0)%Z then NInf else NaN
         else Fin (inject_Z z / inject_Z b * 100)).
Proof.
  intros p z b E. unfold fdiv, of_Z.
  destruct (Z.eqb_spec b 0) as [-> | Hb].
  - change (Qeq_bool (inject_Z 0) 0) with true. cbv iota.
    destruct (Z.ltb_spec 0 z) as [Hz | Hz].
    + assert (P : (0 < p)%Q).
      { rewrite E. change 0%Q with (inject_Z 0). now rewrite <- Zlt_Qlt. }
      assert (N : Qeq_bool p 0 = false).
      { apply Qeq_bool_false. intro H. rewrite H in P. exact (Qlt_irrefl _ P). }
      rewrite N. apply Qlt_bool_iff in P. rewrite P. exact I.
    + destruct (Z.ltb_spec z 0) as [Hn | Hn].
      * assert (P : (p < 0)%Q).
        { rewrite E. change 0%Q with (inject_Z 0). now rewrite <- Zlt_Qlt. }
        assert (N : Qeq_bool p 0 = false).
        { apply Qeq_bool_false. intro H. rewrite H in P. exact (Qlt_irrefl _ P). }
        assert (L : Qlt_bool 0 p = false) by (apply Qlt_bool_false; now apply Qlt_le_weak).
        rewrite N, L. exact I.
      * assert (z = 0%Z) by lia. subst z.
        assert (N : Qeq_bool p 0 = true) by (apply Qeq_bool_iff; exact E).
        rewrite N. exact I.
  - rewrite (inject_Z_nonzero Hb). simpl. now rewrite E.
Qed.

(** The growth figure of two defined cells: the difference is an int64
    difference in an int64 table. *)
Lemma yoy_defined : forall (integer : bool) (a b : Z),
    feq (yoy integer (Some a) (Some b))
        (let delta := if integer then int64 (a - b) else (a - b)%Z in
         if (b =? 0)%Z
         then if (0 <? delta)%Z then PInf else if (delta <? 0)%Z then NInf else NaN
         else Fin (inject_Z delta / inject_Z b * 100)).
Proof.
  intros [|] a b; unfold yoy, cell_sub, of_cell; cbv zeta.
  - unfold of_Z at 1. apply percent_of_cell. reflexivity.
  - unfold fsub, fneg, fadd, of_Z at 1 2. apply percent_of_cell.
    unfold Z.sub. now rewrite inject_Z_plus, inject_Z_opp.
Qed.

Lemma yoy_undefined : forall (integer : bool) (a b : option Z),
    a = None \/ b = None -> yoy integer a b = NaN.
Proof.
  intros [|] [a|] [b|] [H | H]; try discriminate; reflexivity.
Qed.

(** A defined cell holds an int64 value. *)
Lemma volume_in_range : forall d s y a,
    volume_in d s y = Some a -> (- 2 ^ 63 <= a < 2 ^ 63)%Z.
Proof.
  intros d s y a H. unfold volume_in in H.
  destruct (map Sales_Volume _) as [|v vs]; [discriminate|].
  inversion H. apply Zsum_range.
Qed.

(** A table with two different years has a latest and a second-latest
    year. *)
Lemma latest_two_exists : forall d,
    (exists r r', In r (records d) /\ In r' (records d) /\ Year r <> Year r') ->
    exists y1 y2, latest_two d y1 y2.
Proof.
  intros d [r [r' [Hr [Hr' Hne]]]].
  assert (I1 : In (Year r) (years_of d)) by (apply years_of_In; now apply in_map).
  assert (I2 : In (Year r') (years_of d)) by (apply years_of_In; now apply in_map).
  pose proof (group_keys_ascending (map Year (records d))) as S. fold (years_of d) in S.
  destruct (rev (years_of d)) as [|y1 [|y2 t]] eqn:E.
  - apply in_rev in I1. rewrite E in I1. contradiction.
  - apply in_rev in I1. apply in_rev in I2. rewrite E in I1, I2.
    destruct I1 as [E1 | []]. destruct I2 as [E2 | []]. congruence.
  - assert (L : years_of d = rev t ++ [y2; y1]).
    { rewrite <- (rev_involutive (years_of d)), E. simpl. now rewrite <- app_assoc. }
    rewrite L in S.
    change (rev t ++ [y2; y1]) with (rev t ++ [y2] ++ [y1]) in S.
    rewrite app_assoc in S.
    destruct (@ascending_snoc _ _ S) as [S1 F1].
    destruct (@ascending_snoc _ _ S1) as [S2 F2].
    rewrite Forall_forall in F1, F2.
    exists y1, y2. unfold latest_two.
    split; [apply years_of_In; rewrite L; apply in_or_app; right; simpl; auto|].
    split; [apply years_of_In; rewrite L; apply in_or_app; right; simpl; auto|].
    split; [apply F1, in_or_app; right; now left|].
    intros x Hx.
    assert (Ix : In (Year x) (years_of d)) by (apply years_of_In; now apply in_map).
    rewrite L in Ix. apply in_app_or in Ix.
    destruct Ix as [Ix | [Ix | [Ix | []]]].
    + assert (Year x < y2)%Z by (apply F2; exact Ix).
      assert (y2 < y1)%Z by (apply F1, in_or_app; right; now left). lia.
    + assert (y2 < y1)%Z by (apply F1, in_or_app; right; now left). lia.
    + lia.
Qed.

(* ================================================================= *)
(** ** Facts about the regional results *)

Lemma pair_eqb_eq : forall (A B : Type) (ea : A -> A -> bool) (eb : B -> B -> bool),
    (forall a b, ea a b = true <-> a = b) ->
    (forall a b, eb a b = true <-> a = b) ->
    forall x y, pair_eqb ea eb x y = true <-> x = y.
Proof.
  intros A B ea eb Ha Hb [x1 x2] [y1 y2]. unfold pair_eqb. simpl.
  rewrite andb_true_iff, Ha, Hb. split; [intros [-> ->]; reflexivity | intro E].
  inversion E. auto.
Qed.

Arguments pair_eqb_eq {A B ea eb} _ _ x y.



Lemma analyze_regional_performance_ok : forall sort_values d,
    accepted regional_required d ->
    analyze_regional_performance sort_values (Some d)
    = Ok {| sales := pivot_sum String.eqb String.leb Z.eqb Z.leb
                       (map (fun r => ((Region r, Year r), Sales_Volume r)) (records d));
            top_models := Some (regional_top_models sort_values (records d));
            segment_share :=
              Some (fillna0 (pivot_sum String.eqb String.leb String.eqb String.leb
                               (map (fun r => ((Region r, Market_Segment r),
                                               Sales_Volume r))
                                    (records d)))) |}.
Proof.
  intros sv d Hacc.
  pose proof (validate_accepted "analyze_regional_performance" Hacc) as V.
  unfold validate, regional_required in V.
  unfold analyze_regional_performance.
  destruct (require_non_empty "analyze_regional_performance" (Some d)) as [d0|e];
    [|discriminate].
  simpl bind in *.
  destruct (_ensure_columns d0 _) as [u|e]; [|discriminate].
  assert (d0 = d) by (simpl in V; congruence). subst d0. reflexivity.
Qed.

Lemma groupby_head_incl : forall n l seen x,
    In x (groupby_head n seen l) -> In x l.
Proof.
  intros n l. induction l as [|a t IH]; intros seen x H; simpl in *; [exact H|].
  destruct (Nat.ltb _ n).
  - destruct H as [H | H]; [now left | right; eapply IH; exact H].
  - right. eapply IH. exact H.
Qed.

Lemma groupby_head_sorted : forall (R : TopRow -> TopRow -> Prop) n l seen,
    StronglySorted R l -> StronglySorted R (groupby_head n seen l).
Proof.
  intros R n l seen H. revert seen.
  induction H as [|a t Ht IH Ha]; intro seen; simpl; [constructor|].
  destruct (Nat.ltb _ n); [|apply IH].
  constructor; [apply IH|].
  rewrite Forall_forall in *. intros x Hx. apply Ha.
  eapply groupby_head_incl. exact Hx.
Qed.

(** A row is kept only while fewer than [n] rows of its region came
    before it. *)
Lemma groupby_head_kept : forall n l seen x,
    In x (groupby_head n seen l) ->
    (count_occ string_dec seen (tm_region x) < n)%nat.
Proof.
  intros n l. induction l as [|a t IH]; intros seen x H; simpl in *; [contradiction|].
  assert (Hrec : In x (groupby_head n (tm_region a :: seen) t) ->
                 (count_occ string_dec seen (tm_region x) < n)%nat).
  { intro Hx. specialize (IH _ _ Hx). simpl in IH.
    revert IH. destruct (string_dec (tm_region a) (tm_region x)); intro IH; clear - IH; lia. }
  destruct (Nat.ltb _ n) eqn:E; [|now apply Hrec].
  destruct H as [<- | H]; [now apply Nat.ltb_lt | now apply Hrec].
Qed.

(** In a frame that is descending by volume, a row that is left out
    sells no more than any kept row of its region. *)
Lemma groupby_head_top : forall n l,
    StronglySorted (fun a b => (tm_volume b <= tm_volume a)%Z) l ->
    forall seen x y,
      In x (groupby_head n seen l) -> In y l -> ~ In y (groupby_head n seen l) ->
      tm_region y = tm_region x -> (tm_volume y <= tm_volume x)%Z.
Proof.
  intros n l H. induction H as [|a t Ht IH Ha]; intros seen x y Hx Hy Hny Hreg;
    simpl in *; [contradiction|].
  rewrite Forall_forall in Ha.
  destruct (Nat.ltb _ n) eqn:E.
  - assert (Hyt : In y t /\ ~ In y (groupby_head n (tm_region a :: seen) t)).
    { split.
      - destruct Hy as [<- | Hy]; [|exact Hy]. exfalso. apply Hny. now left.
      - intro Hin. apply Hny. now right. }
    destruct Hyt as [Hyt Hny'].
    destruct Hx as [<- | Hx]; [now apply Ha|].
    exact (IH _ _ _ Hx Hyt Hny' Hreg).
  - destruct Hy as [<- | Hy]; [|exact (IH _ _ _ Hx Hy Hny Hreg)].
    exfalso. apply Nat.ltb_ge in E.
    pose proof (groupby_head_kept _ _ _ _ Hx) as K. simpl in K. rewrite <- Hreg in K.
    revert K. destruct (string_dec (tm_region a) (tm_region a)); [intro K; clear - K E; lia | congruence].
Qed.

Lemma in_region_cons : forall region a l,
    in_region region (a :: l)
    = if String.eqb (tm_region a) region then a :: in_region region l
      else in_region region l.
Proof. reflexivity. Qed.

Lemma groupby_head_count : forall n region l seen,
    List.length (in_region region (groupby_head n seen l))
    = Nat.min (List.length (in_region region l)) (n - count_occ string_dec seen region).
Proof.
  intros n region l. induction l as [|a t IH]; intro seen; [reflexivity|].
  cbn [groupby_head]. rewrite (in_region_cons region a t).
  destruct (String.eqb (tm_region a) region) eqn:Er.
  - pose proof Er as Er'. apply String.eqb_eq in Er'.
    destruct (Nat.ltb _ n) eqn:E.
    + rewrite in_region_cons, Er. cbn [List.length]. rewrite IH.
      rewrite count_occ_cons_eq by exact Er'.
      apply Nat.ltb_lt in E. rewrite Er' in E. lia.
    + rewrite IH. rewrite count_occ_cons_eq by exact Er'. cbn [List.length].
      apply Nat.ltb_ge in E. rewrite Er' in E. lia.
  - pose proof Er as Er'. apply String.eqb_neq in Er'.
    destruct (Nat.ltb _ n); [rewrite in_region_cons, Er|];
      rewrite IH, count_occ_cons_neq by exact Er'; reflexivity.
Qed.

Lemma in_region_perm : forall region l l',
    Permutation l l' -> List.length (in_region region l) = List.length (in_region region l').
Proof.
  intros region l l' H. unfold in_region.
  induction H as [|x l l' _ IH|x y l|l l' l'' _ IH1 _ IH2]; simpl.
  - reflexivity.
  - destruct (String.eqb (tm_region x) region); simpl; now rewrite IH.
  - destruct (String.eqb (tm_region x) region), (String.eqb (tm_region y) region);
      reflexivity.
  - now rewrite IH1.
Qed.

Lemma map_snd_combine_seq : forall (A : Type) (l : list A) a,
    map snd (combine (seq a (List.length l)) l) = l.
Proof.
  induction l as [|x t IH]; intro a; simpl; [reflexivity | now rewrite IH].
Qed.

Lemma reset_index_rows : forall s,
    map (fun x => ((tm_region x, tm_model x), tm_volume x)) (reset_index s) = s.
Proof.
  intro s. unfold reset_index. rewrite map_map. simpl.
  etransitivity; [|apply (map_snd_combine_seq s 0)].
  apply map_ext. now intros [i [[r m] v]].
Qed.

Lemma grouped_models_keys : forall d,
    map (fun x => (tm_region x, tm_model x)) (grouped_models d)
    = group_keys (pair_eqb String.eqb String.eqb)
        (pair_leb String.eqb String.leb String.leb)
        (map (fun r => (Region r, Model r)) (records d)).
Proof.
  intro d. unfold grouped_models.
  rewrite <- (map_map (fun x => ((tm_region x, tm_model x), tm_volume x)) fst).
  rewrite reset_index_rows, groupby_agg_keys. now rewrite map_map.
Qed.

Lemma grouped_models_In : forall d x,
    In x (grouped_models d) ->
    tm_volume x = model_volume d (tm_region x) (tm_model x)
    /\ exists r, In r (records d) /\ Region r = tm_region x /\ Model r = tm_model x.
Proof.
  intros d x Hx.
  assert (Hs : In ((tm_region x, tm_model x), tm_volume x)
                  (groupby_agg (pair_eqb String.eqb String.eqb)
                     (pair_leb String.eqb String.leb String.leb) Zsum
                     (map (fun r => ((Region r, Model r), Sales_Volume r)) (records d)))).
  { unfold grouped_models in Hx. rewrite <- (reset_index_rows (groupby_agg _ _ _ _)).
    apply (in_map (fun x => ((tm_region x, tm_model x), tm_volume x))). exact Hx. }
  unfold groupby_agg in Hs. apply in_map_iff in Hs. destruct Hs as [k [E Hk]].
  injection E as Ek Ev. subst k. split.
  - rewrite <- Ev.
    rewrite (group_map (pair_eqb String.eqb String.eqb)
               (fun r => (Region r, Model r)) Sales_Volume).
    reflexivity.
  - pose proof (proj1 (group_keys_In (pair_eqb_eq String.eqb_eq String.eqb_eq) _ _ _) Hk)
      as Hk'.
    rewrite map_map in Hk'. apply in_map_iff in Hk'. destruct Hk' as [r [Er Hr]].
    exists r. simpl in Er. inversion Er. auto.
Qed.

Lemma volume_sort_sorted : forall l,
    StronglySorted (fun a b => (tm_volume b <= tm_volume a)%Z) (sort volume_geb l).
Proof.
  intro l.
  assert (H : StronglySorted (fun a b => volume_geb a b = true) (sort volume_geb l)).
  { apply sort_sorted; unfold volume_geb.
    - intros a b. rewrite !Z.leb_le. lia.
    - intros a b c. rewrite !Z.leb_le. lia. }
  induction H as [|x t _ IH Hx]; constructor; [exact IH|].
  eapply Forall_impl; [|exact Hx]. intros y Hy. now apply Z.leb_le.
Qed.

Lemma sort_stable_descending : sorts_descending sort_stable.
Proof.
  intro l. split; [apply sort_perm | apply volume_sort_sorted].
Qed.

(* ================================================================= *)
(** ** Facts about the time series *)

Lemma iloc_first : forall (V : Type) (x : V) l, iloc (x :: l) 0 = Ok x.
Proof. reflexivity. Qed.

Lemma iloc_last : forall (V : Type) (x : V) l, iloc (l ++ [x]) (-1) = Ok x.
Proof.
  intros V x l. unfold iloc. rewrite length_app. simpl List.length.
  change (-1 <? 0)%Z with true. cbv iota.
  replace (Z.of_nat (List.length l + 1) + -1)%Z with (Z.of_nat (List.length l)) by lia.
  destruct (Z.of_nat (List.length l) <? 0)%Z eqn:E; [apply Z.ltb_lt in E; lia|].
  rewrite Nat2Z.id, nth_error_app2 by lia. now rewrite Nat.sub_diag.
Qed.

Lemma count_true_nonneg : forall l, (0 <= count_true l)%Z.
Proof.
  induction l as [|b t IH]; unfold count_true in *; simpl; [lia|].
  destruct b; lia.
Qed.

Lemma ts_green_column : forall d,
    map snd (groupby_agg Z.eqb Z.leb count_true
               (map (fun r => (Year r, Green_Vehicle r)) (records d)))
    = map (green_count d) (years_of d).
Proof.
  intro d. rewrite groupby_agg_values, map_map. apply map_ext. intro y.
  now rewrite group_map.
Qed.

Lemma years_first : forall d y, first_year d y -> exists t, years_of d = y :: t.
Proof.
  intros d y [Hin Hmin]. apply ascending_first.
  - apply group_keys_ascending.
  - now apply years_of_In.
  - intros x Hx. apply years_of_In, in_map_iff in Hx.
    destruct Hx as [r [<- Hr]]. now apply Hmin.
Qed.

Lemma years_last : forall d y, last_year d y -> exists t, years_of d = t ++ [y].
Proof.
  intros d y [Hin Hmax]. apply ascending_last.
  - apply group_keys_ascending.
  - now apply years_of_In.
  - intros x Hx. apply years_of_In, in_map_iff in Hx.
    destruct Hx as [r [<- Hr]]. now apply Hmax.
Qed.

Lemma groupby_year_single : forall (V W : Type) (f : list V -> W) (val : Row -> V) d y,
    years_of d = [y] ->
    groupby_agg Z.eqb Z.leb f (map (fun r => (Year r, val r)) (records d))
    = [(y, f (map val (filter (fun r => Z.eqb (Year r) y) (records d))))].
Proof.
  intros V W f val d y H. unfold groupby_agg. rewrite map_map. simpl.
  change (map (fun x : Row => Year x) (records d)) with (map Year (records d)).
  fold (years_of d). rewrite H. simpl. now rewrite group_map.
Qed.

(* ================================================================= *)
(** ** Labels, ranks and frequencies *)

Lemma label_eqb_eq : forall a b, label_eqb a b = true <-> a = b.
Proof.
  intros [x|x] [y|y]; simpl; try (split; [discriminate | congruence]).
  - rewrite Z.eqb_eq. split; congruence.
  - rewrite String.eqb_eq. split; congruence.
Qed.

Lemma rank_from_length : forall (A : Type) (ltb eqb : A -> A -> bool) all seen l,
    List.length (rank_from ltb eqb all seen l) = List.length l.
Proof.
  intros A ltb eqb all seen l. revert seen.
  induction l as [|x t IH]; intro seen; simpl; [reflexivity | now rewrite IH].
Qed.

Lemma rank_first_length : forall (A : Type) (ltb eqb : A -> A -> bool) l,
    List.length (rank_first ltb eqb l) = List.length l.
Proof. intros. apply rank_from_length. Qed.

(** Every customer of the table has an entry in the frequency map. *)
Lemma purchase_freq_defined : forall d x,
    In x (records d) ->
    exists n, lookup label_eqb (purchase_freq (records d)) (Customer_ID x) = Some n.
Proof.
  intros d x Hx. unfold purchase_freq, groupby_agg. rewrite (lookup_map label_eqb_eq).
  assert (M : mem label_eqb (Customer_ID x)
                (group_keys label_eqb label_leb
                   (map fst (map (fun r0 : Row => (Customer_ID r0, tt)) (records d))))
              = true).
  { apply (mem_In label_eqb_eq), (group_keys_In label_eqb_eq).
    rewrite map_map. simpl. now apply in_map. }
  rewrite M. eauto.
Qed.

Lemma mapped_frequency_length : forall d,
    List.length (dropna (mapped_frequency d)) = List.length (df_rows d).
Proof.
  intro d. unfold mapped_frequency.
  assert (D : forall l : list Row,
             (forall x, In x l -> In x (records d)) ->
             List.length
               (dropna (map (fun x => lookup label_eqb (purchase_freq (records d))
                                             (Customer_ID x)) l))
             = List.length l).
  { induction l as [|x t IH]; intro Hin; simpl; [reflexivity|].
    destruct (purchase_freq_defined d x (Hin x (or_introl eq_refl))) as [n Hn].
    rewrite Hn. simpl. f_equal. apply IH. intros y Hy. apply Hin. now right. }
  rewrite D by auto. unfold records. now rewrite length_map.
Qed.

Lemma price_category_length : forall prices pc,
    price_category prices = Ok pc -> List.length pc = List.length prices.
Proof.
  intros prices pc H. unfold price_category in H.
  destruct (qcut (Qrank prices) 5 price_labels) as [c|e] eqn:Q; simpl in H.
  - inversion H; subst c. unfold qcut in Q.
    rewrite (bins_to_cuts_length _ _ _ _ Q). unfold Qrank.
    now rewrite length_map, rank_first_length.
  - unfold cut in H. destruct prices as [|x0 t]; [discriminate|].
    now rewrite (bins_to_cuts_length _ _ _ _ H).
Qed.

Lemma purchase_frequency_length : forall d,
    List.length (purchase_frequency_column d) = List.length (df_rows d).
Proof.
  intro d. unfold purchase_frequency_column.
  destruct (qcut _ 3 frequency_labels) as [c|e] eqn:Q; [|now rewrite length_map].
  unfold qcut in Q. rewrite (bins_to_cuts_length _ _ _ _ Q).
  now rewrite length_map, rank_first_length, mapped_frequency_length.
Qed.

(* ================================================================= *)
(** ** Facts about column assignment *)

Lemma lookup_assoc_set : forall (V : Type) name (v : V) l c,
    lookup String.eqb (assoc_set name v l) c
    = if String.eqb c name then Some v else lookup String.eqb l c.
Proof.
  intros V name v l c. induction l as [|[k w] t IH]; simpl.
  - destruct (String.eqb c name); reflexivity.
  - destruct (String.eqb k name) eqn:E; simpl.
    + apply String.eqb_eq in E. subst k.
      destruct (String.eqb c name); reflexivity.
    + rewrite IH. destruct (String.eqb c k) eqn:Ec; [|reflexivity].
      apply String.eqb_eq in Ec. subst c. now rewrite E.
Qed.

Lemma getitem_setitem : forall d name v c,
    getitem (setitem d name v) c
    = if String.eqb c name then Some v else getitem d c.
Proof. intros. unfold getitem, setitem. simpl. apply lookup_assoc_set. Qed.

Lemma columns_setitem : forall d name v c,
    In c (df_columns (setitem d name v)) <-> c = name \/ In c (df_columns d).
Proof.
  intros d name v c. unfold setitem. simpl.
  destruct (mem String.eqb name (df_columns d)) eqn:E.
  - apply (mem_In String.eqb_eq) in E. split; [auto | intros [-> | H]; auto].
  - rewrite in_app_iff. simpl. intuition.
Qed.

Lemma columns_setitem_new : forall d name v,
    ~ In name (df_columns d) -> df_columns (setitem d name v) = df_columns d ++ [name].
Proof.
  intros d name v H. unfold setitem. simpl.
  destruct (mem String.eqb name (df_columns d)) eqn:E; [|reflexivity].
  apply (mem_In String.eqb_eq) in E. contradiction.
Qed.


(* ================================================================= *)
(** ** Ranks *)

Section RankFacts.
Variable A : Type.
Variables ltb eqb : A -> A -> bool.
Hypothesis eqb_refl : forall a, eqb a a = true.
Hypothesis lt_not_eq : forall a b, ltb a b = true -> eqb a b = false.
Hypothesis lt_trans_eq : forall a b c,
    ltb a b = true \/ eqb a b = true -> ltb b c = true -> ltb a c = true.
Hypothesis eq_lt_compat : forall a b c, eqb a b = true -> ltb c a = ltb c b.
Hypothesis eq_eq_compat : forall a b c, eqb a b = true -> eqb c a = eqb c b.

Lemma count_app : forall (f : A -> bool) l1 l2,
    count f (l1 ++ l2) = (count f l1 + count f l2)%nat.
Proof. intros f l1 l2. unfold count. now rewrite filter_app, length_app. Qed.

Lemma count_ext : forall (f g : A -> bool) l,
    (forall x, f x = g x) -> count f l = count g l.
Proof. intros f g l H. unfold count. now rewrite (filter_ext _ _ H). Qed.

Lemma count_le_length : forall (f : A -> bool) l, (count f l <= List.length l)%nat.
Proof. intros f l. apply filter_length_le. Qed.

(** Two properties that exclude each other and both imply a third. *)
Lemma count_disjoint : forall (f g h : A -> bool) l,
    (forall x, f x = true -> h x = true) ->
    (forall x, g x = true -> h x = true) ->
    (forall x, f x = true -> g x = false) ->
    (count f l + count g l <= count h l)%nat.
Proof.
  intros f g h l Hf Hg Hfg. unfold count.
  induction l as [|x t IH]; simpl; [lia|].
  destruct (f x) eqn:Fx, (g x) eqn:Gx, (h x) eqn:Hx; simpl; try lia.
  - rewrite (Hfg x Fx) in Gx. discriminate.
  - rewrite (Hfg x Fx) in Gx. discriminate.
  - rewrite (Hf x Fx) in Hx. discriminate.
  - rewrite (Hg x Gx) in Hx. discriminate.
Qed.

Lemma count_below_or_equal : forall x l,
    (count (fun y => ltb y x) l + count (fun y => eqb y x) l <= List.length l)%nat.
Proof.
  intros x l.
  pose proof (count_disjoint (fun y => ltb y x) (fun y => eqb y x) (fun _ => true) l
                (fun _ _ => eq_refl) (fun _ _ => eq_refl)
                (fun y H => @lt_not_eq _ _ H)) as H.
  pose proof (count_le_length (fun _ => true) l). lia.
Qed.

Lemma rank_from_nth : forall all l seen i x,
    nth_error l i = Some x ->
    nth_error (rank_from ltb eqb all seen l) i
    = Some (1 + Z.of_nat (count (fun y => ltb y x) all)
              + Z.of_nat (count (fun y => eqb y x) seen
                          + count (fun y => eqb y x) (firstn i l)))%Z.
Proof.
  intros all l. induction l as [|a t IH]; intros seen i x H.
  - destruct i; discriminate.
  - destruct i as [|i]; simpl in H.
    + inversion H; subst a. cbn [rank_from nth_error firstn]. f_equal.
      change (count (fun y => eqb y x) []) with 0%nat. now rewrite Nat.add_0_r.
    + cbn [rank_from nth_error firstn]. rewrite (IH (a :: seen) i x H).
      assert (E : (count (fun y => eqb y x) (a :: seen)
                   + count (fun y => eqb y x) (firstn i t)
                   = count (fun y => eqb y x) seen
                     + count (fun y => eqb y x) (a :: firstn i t))%nat).
      { unfold count. cbn [filter]. destruct (eqb a x); cbn [List.length]; lia. }
      now rewrite E.
Qed.

Lemma rank_first_nth : forall l i x,
    nth_error l i = Some x ->
    nth_error (rank_first ltb eqb l) i
    = Some (1 + Z.of_nat (count (fun y => ltb y x) l)
              + Z.of_nat (count (fun y => eqb y x) (firstn i l)))%Z.
Proof.
  intros l i x H. unfold rank_first. rewrite (rank_from_nth l l [] i H).
  reflexivity.
Qed.

Lemma nth_error_split_firstn : forall (l : list A) i x,
    nth_error l i = Some x -> l = firstn i l ++ x :: skipn (S i) l.
Proof.
  induction l as [|a t IH]; intros i x H; destruct i; try discriminate; simpl in *.
  - now inversion H.
  - f_equal. now apply IH.
Qed.

(** The equal entries before position [i] are fewer than all the equal
    entries: the entry at [i] is one of these and not before [i]. *)
Lemma count_before_lt : forall l i x,
    nth_error l i = Some x ->
    (count (fun y => eqb y x) (firstn i l) < count (fun y => eqb y x) l)%nat.
Proof.
  intros l i x H. rewrite (nth_error_split_firstn l i H) at 2.
  rewrite count_app. unfold count at 3. cbn [filter]. rewrite eqb_refl.
  cbn [List.length]. lia.
Qed.

Lemma firstn_firstn_split : forall (l : list A) i j x,
    (i < j)%nat -> nth_error l i = Some x ->
    exists rest, firstn j l = firstn i l ++ x :: rest.
Proof.
  induction l as [|a t IH]; intros i j x Hij H; destruct i; try discriminate.
  - destruct j; [lia|]. simpl in *. inversion H; subst. eauto.
  - destruct j; [lia|]. simpl in *.
    destruct (IH i j x ltac:(lia) H) as [rest Hr]. exists rest. now rewrite Hr.
Qed.

(** A strictly smaller entry has a strictly smaller rank, wherever it
    stands. *)
Lemma rank_lt_of_lt : forall l i j x y ri rj,
    nth_error l i = Some x -> nth_error l j = Some y ->
    nth_error (rank_first ltb eqb l) i = Some ri ->
    nth_error (rank_first ltb eqb l) j = Some rj ->
    ltb x y = true -> (ri < rj)%Z.
Proof.
  intros l i j x y ri rj Hi Hj Ri Rj Hlt.
  pose proof (rank_first_nth l i Hi) as Ri'. pose proof (rank_first_nth l j Hj) as Rj'.
  assert (Ei : ri = (1 + Z.of_nat (count (fun z => ltb z x) l)
                     + Z.of_nat (count (fun z => eqb z x) (firstn i l)))%Z) by congruence.
  assert (Ej : rj = (1 + Z.of_nat (count (fun z => ltb z y) l)
                     + Z.of_nat (count (fun z => eqb z y) (firstn j l)))%Z) by congruence.
  subst ri rj. clear Ri Rj Ri' Rj'.
  pose proof (count_before_lt l i Hi) as B.
  pose proof (count_disjoint (fun z => ltb z x) (fun z => eqb z x) (fun z => ltb z y) l
                (fun z H => @lt_trans_eq z x y (or_introl H) Hlt)
                (fun z H => @lt_trans_eq z x y (or_intror H) Hlt)
                (fun z H => @lt_not_eq _ _ H)) as D.
  lia.
Qed.

(** Of two equal entries the earlier one has the smaller rank. *)
Lemma rank_lt_of_eq : forall l i j x y ri rj,
    nth_error l i = Some x -> nth_error l j = Some y ->
    nth_error (rank_first ltb eqb l) i = Some ri ->
    nth_error (rank_first ltb eqb l) j = Some rj ->
    eqb x y = true -> (i < j)%nat -> (ri < rj)%Z.
Proof.
  intros l i j x y ri rj Hi Hj Ri Rj Heq Hij.
  pose proof (rank_first_nth l i Hi) as Ri'. pose proof (rank_first_nth l j Hj) as Rj'.
  assert (Ei : ri = (1 + Z.of_nat (count (fun z => ltb z x) l)
                     + Z.of_nat (count (fun z => eqb z x) (firstn i l)))%Z) by congruence.
  assert (Ej : rj = (1 + Z.of_nat (count (fun z => ltb z y) l)
                     + Z.of_nat (count (fun z => eqb z y) (firstn j l)))%Z) by congruence.
  subst ri rj. clear Ri Rj Ri' Rj'.
  rewrite (count_ext (fun z => ltb z x) (fun z => ltb z y) l
             (fun z => @eq_lt_compat x y z Heq)).
  destruct (firstn_firstn_split l Hij Hi) as [rest Hr]. rewrite Hr.
  rewrite count_app.
  rewrite (count_ext (fun z => eqb z x) (fun z => eqb z y) (firstn i l)
             (fun z => @eq_eq_compat x y z Heq)).
  assert (C : (1 <= count (fun z => eqb z y) (x :: rest))%nat).
  { unfold count. cbn [filter]. rewrite Heq. cbn [List.length]. lia. }
  lia.
Qed.

Lemma rank_first_range : forall l i r,
    nth_error (rank_first ltb eqb l) i = Some r ->
    (1 <= r <= Z.of_nat (List.length l))%Z.
Proof.
  intros l i r H.
  destruct (nth_error l i) as [x|] eqn:E.
  - pose proof (rank_first_nth l i E) as H'.
    assert (Er : r = (1 + Z.of_nat (count (fun z => ltb z x) l)
                      + Z.of_nat (count (fun z => eqb z x) (firstn i l)))%Z) by congruence.
    subst r.
    pose proof (count_before_lt l i E). pose proof (count_below_or_equal x l). lia.
  - apply nth_error_None in E.
    assert (nth_error (rank_first ltb eqb l) i = None)
      by (apply nth_error_None; now rewrite rank_first_length).
    congruence.
Qed.
Hypothesis trichotomy : forall a b,
    ltb a b = true \/ eqb a b = true \/ ltb b a = true.
Hypothesis eqb_sym : forall a b, eqb a b = true -> eqb b a = true.

Lemma rank_first_differ : forall l i j x y ri rj,
    nth_error l i = Some x -> nth_error l j = Some y ->
    nth_error (rank_first ltb eqb l) i = Some ri ->
    nth_error (rank_first ltb eqb l) j = Some rj ->
    (i < j)%nat -> ri <> rj.
Proof.
  intros l i j x y ri rj Hi Hj Ri Rj Hij.
  destruct (trichotomy x y) as [H | [H | H]].
  - pose proof (rank_lt_of_lt l i j Hi Hj Ri Rj H). lia.
  - pose proof (rank_lt_of_eq l Hi Hj Ri Rj H Hij). lia.
  - pose proof (rank_lt_of_lt l j i Hj Hi Rj Ri H). lia.
Qed.

Lemma rank_first_NoDup : forall l, NoDup (rank_first ltb eqb l).
Proof.
  intro l. apply NoDup_nth_error. intros i j Hi E.
  rewrite rank_first_length in Hi.
  destruct (nth_error l i) as [x|] eqn:Xi; [|apply nth_error_None in Xi; lia].
  pose proof (rank_first_nth l i Xi) as Ri. rewrite Ri in E. symmetry in E.
  destruct (nth_error l j) as [y|] eqn:Xj.
  2:{ apply nth_error_None in Xj.
      assert (nth_error (rank_first ltb eqb l) j = None)
        by (apply nth_error_None; now rewrite rank_first_length).
      congruence. }
  destruct (Nat.lt_trichotomy i j) as [H | [H | H]]; [|exact H|].
  - exfalso. exact (rank_first_differ l Xi Xj Ri E H eq_refl).
  - exfalso. exact (rank_first_differ l Xj Xi E Ri H eq_refl).
Qed.

(** The ranks of a series of length [n] are the numbers 1 to [n], each
    once. *)
Lemma rank_first_perm : forall l,
    Permutation (rank_first ltb eqb l) (map Z.of_nat (seq 1 (List.length l))).
Proof.
  intro l.
  assert (ND : NoDup (map Z.of_nat (seq 1 (List.length l)))).
  { apply Finite.Injective_map_NoDup; [|apply seq_NoDup].
    intros a b H. now apply Nat2Z.inj. }
  assert (Incl : incl (rank_first ltb eqb l) (map Z.of_nat (seq 1 (List.length l)))).
  { intros r Hr. apply In_nth_error in Hr. destruct Hr as [i Hi].
    apply rank_first_range in Hi. apply in_map_iff. exists (Z.to_nat r).
    split; [lia|]. apply in_seq. lia. }
  apply NoDup_Permutation; [apply rank_first_NoDup | exact ND|].
  intro r. split; [apply Incl|].
  apply NoDup_length_incl; [apply rank_first_NoDup | | exact Incl].
  rewrite rank_first_length, length_map, length_seq. lia.
Qed.
End RankFacts.

(* ================================================================= *)
(** ** Facts about ranking and binning prices *)






Lemma Qeq_bool_sym' : forall a b, Qeq_bool a b = true -> Qeq_bool b a = true.
Proof. intros a b H. apply Qeq_bool_iff. apply Qeq_bool_iff in H. now symmetry. Qed.


Lemma insert_inject_Z : forall k l,
    insert Qle_bool (inject_Z k) (map inject_Z l) = map inject_Z (insert Z.leb k l).
Proof.
  intros k l. induction l as [|x t IH]; simpl; [reflexivity|].
  assert (E : Qle_bool (inject_Z k) (inject_Z x) = (k <=? x)%Z).
  { unfold Qle_bool. simpl. now rewrite !Z.mul_1_r. }
  rewrite E. destruct (k <=? x)%Z; simpl; [reflexivity | now rewrite IH].
Qed.

Lemma sort_inject_Z : forall l,
    sort Qle_bool (map inject_Z l) = map inject_Z (sort Z.leb l).
Proof.
  induction l as [|x t IH]; simpl; [reflexivity|].
  now rewrite IH, insert_inject_Z.
Qed.

Lemma ascending_unique : forall l l',
    StronglySorted Z.lt l -> StronglySorted Z.lt l' ->
    (forall x, In x l <-> In x l') -> l = l'.
Proof.
  induction l as [|a t IH]; intros l' H H' Hin.
  - destruct l' as [|b t']; [reflexivity|].
    exfalso. apply (Hin b). now left.
  - destruct l' as [|b t']; [exfalso; apply (Hin a); now left|].
    inversion H as [|? ? Ht Ha]; subst. inversion H' as [|? ? Ht' Hb]; subst.
    rewrite Forall_forall in Ha, Hb.
    assert (a = b).
    { destruct (proj1 (Hin a) (or_introl eq_refl)) as [E | E]; [now symmetry|].
      destruct (proj2 (Hin b) (or_introl eq_refl)) as [E' | E']; [exact E'|].
      specialize (Ha b E'). specialize (Hb a E). lia. }
    subst b. f_equal. apply IH; try assumption.
    intro x. split; intro Hx.
    + destruct (proj1 (Hin x) (or_intror Hx)) as [E | E]; [|exact E].
      specialize (Ha x Hx). lia.
    + destruct (proj2 (Hin x) (or_intror Hx)) as [E | E]; [|exact E].
      specialize (Hb x Hx). lia.
Qed.

Lemma one_to_n_ascending : forall n, StronglySorted Z.lt (map Z.of_nat (seq 1 n)).
Proof.
  intro n. apply (StronglySorted_map (R := lt)); [intros; lia | apply seq_sorted].
Qed.


Lemma one_to_n_nth : forall n i, (i < n)%nat -> nth i (one_to_n n) 0 = inject_Z (Z.of_nat (S i)).
Proof.
  intros n i H. unfold one_to_n.
  change 0%Q with (inject_Z (Z.of_nat 0)).
  rewrite (map_nth inject_Z), (map_nth Z.of_nat), seq_nth by exact H. reflexivity.
Qed.

Lemma one_to_n_length : forall n, List.length (one_to_n n) = n.
Proof. intro n. unfold one_to_n. now rewrite !length_map, length_seq. Qed.

Lemma quantile_one_to_n : forall n p,
    (1 <= n)%nat -> (0 <= p)%Q -> (p <= 1)%Q ->
    (quantile (one_to_n n) p == 1 + inject_Z (Z.of_nat (n - 1)) * p)%Q.
Proof.
  intros n p Hn Hp0 Hp1. unfold quantile. rewrite one_to_n_length.
  set (m := inject_Z (Z.of_nat (n - 1))).
  assert (Hm : (0 <= m)%Q).
  { unfold m. change 0%Q with (inject_Z 0). rewrite <- Zle_Qle. lia. }
  set (pos := (m * p)%Q).
  assert (Hpos0 : (0 <= pos)%Q) by (unfold pos; now apply Qmult_le_0_compat).
  assert (Hpos1 : (pos <= m)%Q).
  { unfold pos. nra. }
  set (i := Qfloor pos).
  assert (Hi0 : (0 <= i)%Z).
  { unfold i. change 0%Z with (Qfloor 0). now apply Qfloor_resp_le. }
  assert (Hi1 : (i <= Z.of_nat (n - 1))%Z).
  { unfold i. rewrite <- (Qfloor_Z (Z.of_nat (n - 1))). now apply Qfloor_resp_le. }
  pose proof (Qfloor_le pos) as Fl. pose proof (Qlt_floor pos) as Fu.
  fold i in Fl, Fu. rewrite inject_Z_plus in Fu.
  rewrite one_to_n_nth by lia.
  assert (Elo : inject_Z (Z.of_nat (S (Z.to_nat i))) = (inject_Z i + 1)%Q).
  { rewrite Nat2Z.inj_succ, Z2Nat.id by lia. unfold Z.succ. now rewrite inject_Z_plus. }
  rewrite Elo.
  destruct (Nat.le_gt_cases (Z.to_nat i + 1) (n - 1)) as [H | H].
  - rewrite Nat.min_l by exact H. rewrite one_to_n_nth by lia.
    assert (Ehi : inject_Z (Z.of_nat (S (Z.to_nat i + 1))) = (inject_Z i + 1 + 1)%Q).
    { rewrite Nat2Z.inj_succ, Nat2Z.inj_add, Z2Nat.id by lia. unfold Z.succ.
      now rewrite !inject_Z_plus. }
    rewrite Ehi. ring.
  - rewrite Nat.min_r by lia.
    assert (En : Z.of_nat (n - 1) = i) by lia.
    rewrite one_to_n_nth by lia.
    assert (Ehi : inject_Z (Z.of_nat (S (n - 1))) = (inject_Z i + 1)%Q).
    { rewrite Nat2Z.inj_succ, En. unfold Z.succ. now rewrite inject_Z_plus. }
    rewrite Ehi.
    assert (Epos : (pos == inject_Z i)%Q).
    { apply Qle_antisym; [|exact Fl]. unfold m in Hpos1. rewrite En in Hpos1. exact Hpos1. }
    rewrite Epos. ring.
Qed.

Lemma Forall2_map_same : forall (A B : Type) (R : B -> B -> Prop) (f g : A -> B) l,
    (forall x, In x l -> R (f x) (g x)) -> Forall2 R (map f l) (map g l).
Proof.
  intros A B R f g l H. induction l as [|x t IH]; simpl; constructor.
  - apply H. now left.
  - apply IH. intros y Hy. apply H. now right.
Qed.

Lemma Z_range_In : forall m k, In k (Z_range m) <-> (0 <= k < Z.of_nat m)%Z.
Proof.
  intros m k. unfold Z_range. rewrite in_map_iff. split.
  - intros [i [<- Hi]]. apply in_seq in Hi. lia.
  - intro H. exists (Z.to_nat k). split; [lia|]. apply in_seq. lia.
Qed.




Lemma increasing_Forall2 : forall l l',
    Forall2 Qeq l l' -> StronglySorted Qlt l' -> StronglySorted Qlt l.
Proof.
  intros l l' H. induction H as [|x x' t t' Hx Ht IH]; intro S; [constructor|].
  inversion S as [|? ? St Hall]; subst. constructor; [now apply IH|].
  clear IH S St. induction Ht as [|y y' u u' Hy Hu IHu]; [constructor|].
  inversion Hall; subst. constructor; [|now apply IHu].
  now rewrite Hx, Hy.
Qed.




Lemma unique_incl : forall (A : Type) (eqb : A -> A -> bool) l x,
    In x (unique eqb l) -> In x l.
Proof.
  intros A eqb l. induction l as [|a t IH]; intros x H; simpl in *; [exact H|].
  destruct H as [H | H]; [now left|]. apply filter_In in H. right. now apply IH.
Qed.

Lemma unique_all_equal : forall (c : Q) l,
    l <> [] -> (forall x, In x l -> (x == c)%Q) -> List.length (unique Qeq_bool l) = 1%nat.
Proof.
  intros c [|a t] Hne Hall; [congruence|]. simpl. f_equal.
  rewrite filter_none; [reflexivity|]. apply Forall_forall. intros y Hy.
  apply unique_incl in Hy. apply negb_false_iff, Qeq_bool_iff.
  rewrite (Hall a (or_introl eq_refl)), (Hall y (or_intror Hy)). reflexivity.
Qed.

Lemma Forall2_length_eq : forall (A B : Type) (R : A -> B -> Prop) l l',
    Forall2 R l l' -> List.length l = List.length l'.
Proof. intros A B R l l' H. induction H; simpl; congruence. Qed.



Lemma count_mono : forall (A : Type) (f g : A -> bool) l,
    (forall x, f x = true -> g x = true) -> (count f l <= count g l)%nat.
Proof.
  intros A f g l H. unfold count. induction l as [|x t IH]; simpl; [lia|].
  destruct (f x) eqn:F.
  - rewrite (H x F). simpl. lia.
  - destruct (g x); simpl; lia.
Qed.

Lemma count_below_Forall2 : forall v l l',
    Forall2 Qeq l l' ->
    count (fun b => Qlt_bool b v) l = count (fun b => Qlt_bool b v) l'.
Proof.
  intros v l l' H. unfold count. induction H as [|x y t u Hxy _ IH]; [reflexivity|].
  simpl. assert (E : Qlt_bool x v = Qlt_bool y v) by (unfold Qlt_bool; now rewrite Hxy).
  rewrite E. destruct (Qlt_bool y v); simpl; now rewrite IH.
Qed.

















(* ================================================================= *)
(** * The claims *)




(** C1, as the code has it.  On a non-empty table with the required
    columns the operation returns a table keyed by the segments that occur
    (each once).  Sales_Volume is an int64 column, so every sum is an int64
    sum that wraps around modulo 2^64: Market_Share is that sum over the
    rows of the segment, the column adds up (again as an int64 sum) to the
    int64 sum of the whole table, the total; Market_Share_Pct is
    share / total * 100 when the total is not 0, and then the percentages
    add up to 100 times the sum of the shares as whole numbers over the
    total; it is 0 for every segment when the total is 0.  When no
    Sales_Volume is negative and the volumes add up to less than 2^63
    nothing wraps: the shares and the total are the sums as whole numbers,
    the shares add up to the total, and the percentages add up to 100
    when the total is not 0. *)
Theorem market_share_spec :
  forall d : DataFrame,
    accepted market_required d ->
    exists m : Metrics,
      calculate_market_metrics (Some d) = Ok m
      /\ NoDup (metrics_index m)
      /\ (forall s, In s (metrics_index m)
                    <-> exists r, In r (records d) /\ Market_Segment r = s)
      /\ (forall s, In s (metrics_index m) ->
                    at_segment m Market_Share s = Some (segment_volume d s))
      /\ (forall s, segment_volume d s
                    = int64 (exact_sum (map Sales_Volume (segment_rows d s))))
      /\ total_volume d = int64 (exact_sum (map Sales_Volume (records d)))
      /\ Zsum (Market_Share m) = total_volume d
      /\ (total_volume d <> 0%Z ->
          (forall s, In s (metrics_index m) ->
                     at_segment m Market_Share_Pct s
                     = Some (Fin (inject_Z (segment_volume d s)
                                  / inject_Z (total_volume d) * 100)))
          /\ feq (fsum (Market_Share_Pct m))
                 (Fin (inject_Z (exact_sum (Market_Share m))
                       / inject_Z (total_volume d) * 100)))
      /\ (total_volume d = 0%Z ->
          forall s, In s (metrics_index m) ->
                    at_segment m Market_Share_Pct s = Some (Fin 0))
      /\ (no_wraparound d ->
          (forall s, segment_volume d s = exact_sum (map Sales_Volume (segment_rows d s)))
          /\ total_volume d = exact_sum (map Sales_Volume (records d))
          /\ exact_sum (Market_Share m) = total_volume d
          /\ (total_volume d <> 0%Z -> feq (fsum (Market_Share_Pct m)) (Fin 100))).
Proof.
  intros d Hacc.
  destruct (calculate_market_metrics_ok Hacc) as [m [Hm [Hi [Hs [Hp _]]]]].
  exists m. split; [exact Hm|].
  assert (Ht : Zsum (Market_Share m) = total_volume d)
    by (rewrite Hs; apply market_share_total).
  rewrite Ht in Hp.
  assert (Hcell : total_volume d <> 0%Z ->
            forall s,
              fmul (fdiv (of_Z (segment_volume d s)) (of_Z (total_volume d))) (Fin 100)
              = Fin (inject_Z (segment_volume d s) / inject_Z (total_volume d) * 100)).
  { intros Hnz s. unfold fdiv, of_Z. now rewrite (inject_Z_nonzero Hnz). }
  assert (Hsum : total_volume d <> 0%Z ->
            feq (fsum (Market_Share_Pct m))
                (Fin (inject_Z (exact_sum (Market_Share m))
                      / inject_Z (total_volume d) * 100))).
  { intro Hnz. pose proof Hnz as Hb. apply Z.eqb_neq in Hb. rewrite Hb in Hp.
    rewrite Hp, (map_ext _ _ (Hcell Hnz)), fsum_Fin. simpl.
    rewrite <- (map_map (segment_volume d)
                        (fun v => inject_Z v / inject_Z (total_volume d) * 100)).
    rewrite Qsum_share, Hs. reflexivity. }
  split; [rewrite Hi; apply (group_keys_NoDup String.eqb_eq)|].
  split; [rewrite Hi; apply segments_of_In|].
  split.
  { intros s Hin. unfold at_segment, column_at. rewrite Hi in *. rewrite Hs.
    rewrite (lookup_combine_map String.eqb_eq).
    apply (mem_In String.eqb_eq) in Hin. now rewrite Hin. }
  split; [reflexivity|]. split; [reflexivity|].
  split; [exact Ht|].
  split.
  { intro Hnz. split; [|exact (Hsum Hnz)].
    pose proof Hnz as Hb. apply Z.eqb_neq in Hb. rewrite Hb in Hp.
    intros s Hin. unfold at_segment, column_at. rewrite Hi in *. rewrite Hp.
    rewrite (lookup_combine_map String.eqb_eq).
    apply (mem_In String.eqb_eq) in Hin. now rewrite Hin, (Hcell Hnz). }
  split.
  { intros Hz s Hin. pose proof Hz as Hb. apply Z.eqb_eq in Hb. rewrite Hb in Hp.
    unfold at_segment, column_at. rewrite Hi in *. rewrite Hp.
    rewrite (lookup_combine_map String.eqb_eq (fun _ => Fin 0)).
    apply (mem_In String.eqb_eq) in Hin. now rewrite Hin. }
  intro Hno.
  assert (He : exact_sum (Market_Share m) = total_volume d).
  { rewrite Hs, (total_volume_exact Hno), <- market_share_exact_total.
    f_equal. apply map_ext. intro s. now apply segment_volume_exact. }
  split; [intro s; now apply segment_volume_exact|].
  split; [now apply total_volume_exact|].
  split; [exact He|].
  intro Hnz. pose proof (Hsum Hnz) as S. rewrite He in S.
  destruct (fsum (Market_Share_Pct m)) as [q| | |]; try contradiction.
  simpl in S |- *. rewrite S.
  assert (~ inject_Z (total_volume d) == 0)%Q
    by (apply Qeq_bool_false, inject_Z_nonzero, Hnz).
  field. assumption.
Qed.

Lemma market_share_spec_witness :
  accepted market_required sample
  /\ no_wraparound sample
  /\ exists m : Metrics,
      calculate_market_metrics (Some sample) = Ok m
      /\ at_segment m Market_Share "A" = Some 100%Z
      /\ at_segment m Market_Share "B" = Some 300%Z
      /\ Zsum (Market_Share m) = 400%Z
      /\ feq (fsum (Market_Share_Pct m)) (Fin 100).
Proof.
  assert (A : accepted market_required sample) by (split; reflexivity).
  assert (N : no_wraparound sample).
  { split; [|reflexivity]. intros r Hr. simpl in Hr.
    destruct Hr as [<- | [<- | [<- | [<- | []]]]]; simpl; lia. }
  split; [exact A|]. split; [exact N|].
  destruct (market_share_spec A) as [m [Hm [_ [_ [Hs [_ [_ [Ht [_ [_ Hw]]]]]]]]]].
  exists m. split; [exact Hm|].
  assert (Ia : In "A" (metrics_index m) /\ In "B" (metrics_index m)).
  { inversion Hm. simpl. auto. }
  destruct Ia as [Ia Ib].
  split; [exact (Hs "A" Ia)|]. split; [exact (Hs "B" Ib)|].
  split; [exact Ht|].
  destruct (Hw N) as [_ [_ [_ Hp]]]. apply Hp. discriminate.
Defined.

(** C1 as stated fails when the sums wrap around.  Three segments each
    sold 2^63 - 1: no volume is negative, the total the code computes
    (3 * (2^63 - 1) wrapped) is 2^63 - 3, which is positive, but it is not
    the Sales_Volume of the table, and the percentages add up to nearly
    300, not 100. *)
Lemma market_share_counterexample :
  accepted market_required overflow_table
  /\ (forall r, In r (records overflow_table) -> (0 < Sales_Volume r)%Z)
  /\ exists m : Metrics,
      calculate_market_metrics (Some overflow_table) = Ok m
      /\ Market_Share m
         = [9223372036854775807; 9223372036854775807; 9223372036854775807]%Z
      /\ Zsum (Market_Share m) = 9223372036854775805%Z
      /\ exact_sum (map Sales_Volume (records overflow_table)) = 27670116110564327421%Z
      /\ (0 < Zsum (Market_Share m))%Z
      /\ ~ feq (fsum (Market_Share_Pct m)) (Fin 100).
Proof.
  split; [split; reflexivity|].
  split.
  { intros r Hr. simpl in Hr. destruct Hr as [<- | [<- | [<- | []]]]; reflexivity. }
  eexists. split; [reflexivity|].
  split; [reflexivity|]. split; [reflexivity|]. split; [reflexivity|].
  split; [reflexivity|].
  vm_compute. intro H. discriminate H.
Qed.

(** The scenario of the specification: segment sums A = 100 and B = 300
    give the shares 100 and 300 and the percentages 25 and 75. *)
Example market_share_scenario :
  exists m : Metrics,
    calculate_market_metrics (Some sample) = Ok m
    /\ metrics_index m = ["A"; "B"]
    /\ Market_Share m = [100%Z; 300%Z]
    /\ Forall2 feq (Market_Share_Pct m) [Fin 25; Fin 75].
Proof.
  eexists. split; [reflexivity|]. split; [reflexivity|]. split; [reflexivity|].
  repeat constructor.
Qed.

(** C3, as the code has it.  YoY_Growth is computed from the
    segment-by-year table of summed Sales_Volume.  A table with two
    different years has a latest year [y1] and a second-latest year [y2].
    A segment without any row in [y1] or in [y2] gets NaN.  A segment
    with the sums [a] in [y1] and [b] in [y2] gets
    (a - b) / b * 100 when [b] is not 0, and +infinity, -infinity or NaN
    by the sign of the difference when [b] is 0; the sums are int64 sums
    and, in a table where every segment has a row in every year, the
    difference is an int64 difference, so it is [a - b] as a whole number
    whenever that lies in the int64 range, and wraps around otherwise.
    When all rows have the same year the growth is 0 for every
    segment. *)
Theorem yoy_growth_spec :
  forall d : DataFrame,
    accepted market_required d ->
    exists (m : Metrics) (growth : list fnum),
      calculate_market_metrics (Some d) = Ok m
      /\ YoY_Growth m = Some growth
      /\ ((exists r r', In r (records d) /\ In r' (records d) /\ Year r <> Year r') ->
          exists y1 y2, latest_two d y1 y2)
      /\ (forall y1 y2,
             latest_two d y1 y2 ->
             forall s, In s (metrics_index m) ->
               (volume_in d s y1 = None \/ volume_in d s y2 = None ->
                column_at (metrics_index m) growth s = Some NaN)
               /\ forall a b,
                   volume_in d s y1 = Some a -> volume_in d s y2 = Some b ->
                   exists (g : fnum) (delta : Z),
                     column_at (metrics_index m) growth s = Some g
                     /\ delta = (if complete d then int64 (a - b) else a - b)%Z
                     /\ (b <> 0%Z -> feq g (Fin (inject_Z delta / inject_Z b * 100)))
                     /\ (b = 0%Z ->
                         feq g (if (0 <? delta)%Z then PInf
                                else if (delta <? 0)%Z then NInf else NaN))
                     /\ (complete d = false \/ (- 2 ^ 63 <= a - b < 2 ^ 63)%Z ->
                         b <> 0%Z ->
                         feq g (Fin ((inject_Z a - inject_Z b) / inject_Z b * 100))))
      /\ ((forall r r', In r (records d) -> In r' (records d) -> Year r = Year r') ->
          forall s, In s (metrics_index m) ->
                    column_at (metrics_index m) growth s = Some (Fin 0)).
Proof.
  intros d Hacc.
  destruct (calculate_market_metrics_ok Hacc) as [m [Hm [Hi [_ [_ Hg]]]]].
  exists m. eexists. split; [exact Hm|]. split; [exact Hg|].
  split; [apply latest_two_exists|].
  unfold column_at. rewrite Hi. split.
  - intros y1 y2 L s Hs. destruct (latest_two_rev L) as [t Ht]. rewrite Ht.
    rewrite (lookup_combine_map String.eqb_eq).
    apply (mem_In String.eqb_eq) in Hs. rewrite Hs.
    split.
    + intro Hn. now rewrite yoy_undefined.
    + intros a b Ha Hb. rewrite Ha, Hb.
      pose proof (yoy_defined (complete d) a b) as Y. cbv zeta in Y.
      exists (yoy (complete d) (Some a) (Some b)),
             (if complete d then int64 (a - b) else a - b)%Z.
      split; [reflexivity|]. split; [reflexivity|].
      split; [|split].
      * intro Hnz. apply Z.eqb_neq in Hnz. now rewrite Hnz in Y.
      * intros ->. exact Y.
      * intros Hd Hnz.
        assert (E : (if complete d then int64 (a - b) else a - b)%Z = (a - b)%Z).
        { destruct Hd as [-> | Hr]; [reflexivity|].
          destruct (complete d); [now apply int64_small | reflexivity]. }
        rewrite E in Y. apply Z.eqb_neq in Hnz. rewrite Hnz in Y.
        destruct (yoy (complete d) (Some a) (Some b)) as [q| | |]; try contradiction.
        simpl in Y |- *. rewrite Y. unfold Z.sub.
        rewrite inject_Z_plus, inject_Z_opp. reflexivity.
  - intros Hsame s Hs.
    assert (Hne : records d <> []).
    { pose proof (accepted_rows Hacc) as N. unfold records.
      destruct (df_rows d); [congruence | discriminate]. }
    destruct (records d) as [|r0 rs] eqn:E; [congruence|].
    rewrite (years_of_single d (y := Year r0)).
    + simpl rev. rewrite (lookup_combine_map String.eqb_eq (fun _ => Fin 0)).
      apply (mem_In String.eqb_eq) in Hs. now rewrite Hs.
    + now rewrite E.
    + rewrite E. intros r Hr. apply Hsame; [exact Hr | now left].
Qed.

Lemma yoy_growth_spec_witness :
  accepted market_required sample
  /\ latest_two sample 2021 2020
  /\ exists (m : Metrics) (growth : list fnum) (ga gb : fnum),
      calculate_market_metrics (Some sample) = Ok m
      /\ YoY_Growth m = Some growth
      /\ column_at (metrics_index m) growth "A" = Some ga
      /\ feq ga (Fin ((inject_Z 60 - inject_Z 40) / inject_Z 40 * 100))
      /\ column_at (metrics_index m) growth "B" = Some gb
      /\ feq gb (Fin ((inject_Z 200 - inject_Z 100) / inject_Z 100 * 100)).
Proof.
  assert (A : accepted market_required sample) by (split; reflexivity).
  assert (L : latest_two sample 2021 2020).
  { unfold latest_two. split; [simpl; auto|]. split; [simpl; auto|]. split; [lia|].
    intros r Hr. simpl in Hr.
    destruct Hr as [<- | [<- | [<- | [<- | []]]]]; simpl; split; lia. }
  split; [exact A|]. split; [exact L|].
  destruct (yoy_growth_spec A) as [m [growth [Hm [Hg [_ [H2 _]]]]]].
  assert (I : In "A" (metrics_index m) /\ In "B" (metrics_index m)).
  { inversion Hm. simpl. auto. }
  destruct I as [Ia Ib].
  destruct (proj2 (H2 2021%Z 2020%Z L "A" Ia) 60%Z 40%Z eq_refl eq_refl)
    as [ga [da [Ga [_ [_ [_ Fa]]]]]].
  destruct (proj2 (H2 2021%Z 2020%Z L "B" Ib) 200%Z 100%Z eq_refl eq_refl)
    as [gb [db [Gb [_ [_ [_ Fb]]]]]].
  exists m, growth, ga, gb.
  split; [exact Hm|]. split; [exact Hg|]. split; [exact Ga|].
  split; [apply Fa; [right; split; [discriminate | reflexivity] | discriminate]|].
  split; [exact Gb|].
  apply Fb; [right; split; [discriminate | reflexivity] | discriminate].
Defined.

(** C3 as stated fails for a segment that has no row in the latest year.
    Segment B sold 30 in 2020 and nothing in 2021, so the claim gives it
    (0 - 30) / 30 * 100 = -100; the cell of 2021 is undefined in the
    segment-by-year table, and the growth of B is NaN. *)
Lemma yoy_growth_counterexample :
  accepted market_required vanished_segment_table
  /\ latest_two vanished_segment_table 2021 2020
  /\ volume_of vanished_segment_table "B" 2021 = 0%Z
  /\ volume_of vanished_segment_table "B" 2020 = 30%Z
  /\ exists (m : Metrics) (growth : list fnum),
      calculate_market_metrics (Some vanished_segment_table) = Ok m
      /\ YoY_Growth m = Some growth
      /\ column_at (metrics_index m) growth "B" = Some NaN
      /\ ~ (exists g, column_at (metrics_index m) growth "B" = Some g
                      /\ feq g (Fin ((inject_Z 0 - inject_Z 30) / inject_Z 30 * 100))).
Proof.
  split; [split; reflexivity|].
  split.
  { unfold latest_two. split; [simpl; auto|]. split; [simpl; auto|]. split; [lia|].
    intros r Hr. simpl in Hr.
    destruct Hr as [<- | [<- | [<- | []]]]; simpl; split; lia. }
  split; [reflexivity|]. split; [reflexivity|].
  eexists. eexists. split; [reflexivity|]. split; [reflexivity|].
  split; [reflexivity|].
  intros [g [Hg F]]. vm_compute in Hg. inversion Hg. subst g. exact F.
Qed.



(** C7.  The operation returns (it does not raise), and with [y0] the
    first and [y1] the last year of the table: the green count of a year is
    never negative; when the count of [y0] is positive,
    green_vehicle_growth is (count of [y1] / count of [y0] - 1) * 100; when
    it is 0, green_vehicle_growth is exactly 0 whatever the later years
    hold. *)
Theorem green_vehicle_growth_spec :
  forall d : DataFrame,
    accepted time_series_required d ->
    exists (ts : TimeSeries) (m : TrendMetrics),
      calculate_time_series_metrics (Some d) = Ok (ts, m)
      /\ forall y0 y1,
          first_year d y0 -> last_year d y1 ->
          (0 <= green_count d y0)%Z
          /\ ((0 < green_count d y0)%Z ->
              green_vehicle_growth m
              = Fin ((inject_Z (green_count d y1) / inject_Z (green_count d y0) - 1) * 100))
          /\ (green_count d y0 = 0%Z -> green_vehicle_growth m = Fin 0).
Proof.
  intros d Hacc.
  pose proof (validate_accepted "calculate_time_series_metrics" Hacc) as V.
  unfold validate, time_series_required in V.
  unfold calculate_time_series_metrics.
  destruct (require_non_empty "calculate_time_series_metrics" (Some d)) as [d0|e];
    [|discriminate].
  simpl bind in *.
  destruct (_ensure_columns d0 _) as [u|e]; [|discriminate].
  assert (d0 = d) by (simpl in V; congruence). subst d0.
  cbv beta iota zeta. cbn [ts_Green_Vehicle Sales_YoY Price_YoY try_except bind].
  rewrite ts_green_column.
  match goal with
  | |- context [try_except ?m (fun _ => Ok (Fin 0))] =>
      destruct (try_except_default m (Fin 0)) as [g Hg]; rewrite Hg
  end.
  cbn [bind]. eexists. eexists. split; [reflexivity|]. cbn [green_vehicle_growth].
  intros y0 y1 F L.
  split; [apply count_true_nonneg|].
  destruct (years_first F) as [t Ht]. destruct (years_last L) as [t' Ht'].
  assert (I0 : iloc (map (green_count d) (years_of d)) 0 = Ok (green_count d y0))
    by (rewrite Ht; reflexivity).
  assert (I1 : iloc (map (green_count d) (years_of d)) (-1) = Ok (green_count d y1))
    by (rewrite Ht', map_app; apply iloc_last).
  rewrite I0, I1 in Hg. cbn [bind] in Hg. split.
  - intro Hpos. pose proof Hpos as Hpos'. apply Z.ltb_lt in Hpos'.
    rewrite Hpos' in Hg. cbn [bind try_except] in Hg.
    rewrite inject_Z_nonzero in Hg by lia.
    unfold fsub, fneg, fadd, fmul in Hg. now inversion Hg.
  - intro Hz. rewrite Hz in Hg. simpl in Hg. now inversion Hg.
Qed.

Lemma green_vehicle_growth_spec_witness :
  (accepted time_series_required sample
   /\ first_year sample 2020 /\ last_year sample 2021
   /\ exists ts m,
       calculate_time_series_metrics (Some sample) = Ok (ts, m)
       /\ green_vehicle_growth m = Fin ((inject_Z 1 / inject_Z 2 - 1) * 100))
  /\ (accepted time_series_required late_green_table
      /\ first_year late_green_table 2020 /\ last_year late_green_table 2021
      /\ green_count late_green_table 2021 = 1%Z
      /\ exists ts m,
          calculate_time_series_metrics (Some late_green_table) = Ok (ts, m)
          /\ green_vehicle_growth m = Fin 0).
Proof.
  assert (A : accepted time_series_required sample) by (split; reflexivity).
  assert (F : first_year sample 2020).
  { split; [simpl; auto|]. intros r Hr. simpl in Hr.
    destruct Hr as [<- | [<- | [<- | [<- | []]]]]; simpl; lia. }
  assert (L : last_year sample 2021).
  { split; [simpl; auto|]. intros r Hr. simpl in Hr.
    destruct Hr as [<- | [<- | [<- | [<- | []]]]]; simpl; lia. }
  assert (A' : accepted time_series_required late_green_table) by (split; reflexivity).
  assert (F' : first_year late_green_table 2020).
  { split; [simpl; auto|]. intros r Hr. simpl in Hr.
    destruct Hr as [<- | [<- | []]]; simpl; lia. }
  assert (L' : last_year late_green_table 2021).
  { split; [simpl; auto|]. intros r Hr. simpl in Hr.
    destruct Hr as [<- | [<- | []]]; simpl; lia. }
  split.
  - split; [exact A|]. split; [exact F|]. split; [exact L|].
    destruct (green_vehicle_growth_spec A) as [ts [m [Hm H]]].
    exists ts, m. split; [exact Hm|].
    destruct (H 2020%Z 2021%Z F L) as [_ [Hpos _]]. apply Hpos. reflexivity.
  - split; [exact A'|]. split; [exact F'|]. split; [exact L'|]. split; [reflexivity|].
    destruct (green_vehicle_growth_spec A') as [ts [m [Hm H]]].
    exists ts, m. split; [exact Hm|].
    destruct (H 2020%Z 2021%Z F' L') as [_ [_ Hz]]. apply Hz. reflexivity.
Defined.

(** C10.  When every row of an accepted table has the same year the
    operation returns; the time series has that one year, both
    percent-change columns consist of the single undefined entry, and
    avg_yearly_growth and price_trend are NaN, not 0: the mean of an
    all-undefined series is undefined and raises nothing, so the handlers
    that would set 0 are not entered. *)
Theorem single_year_trends :
  forall (d : DataFrame) (y : Z),
    accepted time_series_required d ->
    (forall r, In r (records d) -> Year r = y) ->
    exists (ts : TimeSeries) (m : TrendMetrics),
      calculate_time_series_metrics (Some d) = Ok (ts, m)
      /\ ts_index ts = [y]
      /\ Sales_YoY ts = [NaN]
      /\ Price_YoY ts = [NaN]
      /\ avg_yearly_growth m = NaN
      /\ price_trend m = NaN.
Proof.
  intros d y Hacc Hsame.
  assert (Hy : years_of d = [y]).
  { apply years_of_single; [|exact Hsame].
    pose proof (accepted_rows Hacc) as N. unfold records.
    destruct (df_rows d); [congruence | discriminate]. }
  pose proof (validate_accepted "calculate_time_series_metrics" Hacc) as V.
  unfold validate, time_series_required in V.
  unfold calculate_time_series_metrics.
  destruct (require_non_empty "calculate_time_series_metrics" (Some d)) as [d0|e];
    [|discriminate].
  simpl bind in *.
  destruct (_ensure_columns d0 _) as [u|e]; [|discriminate].
  assert (d0 = d) by (simpl in V; congruence). subst d0.
  cbv beta iota zeta.
  rewrite !(groupby_year_single _ _ d Hy).
  cbn [map fst snd pct_change combine ts_Green_Vehicle Sales_YoY Price_YoY
       try_except bind fmul series_mean filter is_nan negb].
  match goal with
  | |- context [try_except ?m (fun _ => Ok (Fin 0))] =>
      destruct (try_except_default m (Fin 0)) as [g Hg]; rewrite Hg
  end.
  cbn [bind]. eexists. eexists. split; [reflexivity|]. repeat split.
Qed.

Lemma single_year_trends_witness :
  accepted time_series_required one_year_table
  /\ exists ts m,
      calculate_time_series_metrics (Some one_year_table) = Ok (ts, m)
      /\ ts_index ts = [2020%Z]
      /\ avg_yearly_growth m = NaN
      /\ price_trend m = NaN.
Proof.
  assert (A : accepted time_series_required one_year_table) by (split; reflexivity).
  split; [exact A|].
  destruct (@single_year_trends one_year_table 2020%Z A) as [ts [m [Hm [Hi [_ [_ [Ha Hp]]]]]]].
  - intros r Hr. simpl in Hr. destruct Hr as [<- | [<- | [<- | []]]]; reflexivity.
  - exists ts, m. auto.
Defined.

(** C4 does not hold of the code.  The per-customer modes are computed
    as the claim says (Sedan for a customer who bought Sedan, Sedan, SUV),
    but the series is indexed by Customer_ID and is assigned to a frame
    indexed by row label, so each row receives the mode of the customer
    whose identifier equals that row's label.  With rows labelled 0, 1, 2
    and the customer "C1" every row gets NaN; with the customer numbered 1
    only the row labelled 1 gets Sedan. *)
Theorem primary_type_misaligned :
  primary_type_by_customer (records sedan_customer) = [(LStr "C1", CStr "Sedan")]
  /\ segmented_column sedan_customer "Primary_Type" = Some [CNaN; CNaN; CNaN]
  /\ primary_type_by_customer (records sedan_customer_numbered) = [(LInt 1, CStr "Sedan")]
  /\ segmented_column sedan_customer_numbered "Primary_Type"
     = Some [CNaN; CStr "Sedan"; CNaN]
  /\ segmented_column sedan_customer "Purchase_Frequency"
     = Some [CStr "Low"; CStr "Medium"; CStr "High"].
Proof. repeat split; vm_compute; reflexivity. Qed.

(** C9, as the code has it.  On an accepted table the operation returns
    a new frame and leaves every frame of the store, its argument among
    them, as it was.  The new frame has the rows of the argument, in the
    same order and with the same labels; every column other than
    Price_Category, Primary_Type and Purchase_Frequency is the argument's;
    these three columns are present, one cell per row, appended in this
    order when the argument has no column of these names, and replacing
    the argument's column of that name otherwise. *)
Theorem segmentation_frame :
  forall (h : heap) (r : ref) (d : DataFrame),
    nth_error h r = Some d ->
    accepted segmentation_required d ->
    exists (h' : heap) (out : DataFrame),
      segment_customer_base (Some r) h = (Ok (List.length h), h')
      /\ h' = h ++ [out]
      /\ (forall r' x, nth_error h r' = Some x -> nth_error h' r' = Some x)
      /\ nth_error h' r = Some d
      /\ nth_error h' (List.length h) = Some out
      /\ df_rows out = df_rows d
      /\ (forall c, ~ In c derived_columns ->
                    getitem out c = getitem d c
                    /\ (In c (df_columns out) <-> In c (df_columns d)))
      /\ (forall c, In c derived_columns ->
                    In c (df_columns out)
                    /\ exists v, getitem out c = Some v
                                 /\ List.length v = List.length (df_rows d))
      /\ ((forall c, In c derived_columns -> ~ In c (df_columns d)) ->
          df_columns out = df_columns d ++ derived_columns).
Proof.
  intros h r d Hr Hacc.
  destruct (segment_customer_base_run h r Hr Hacc) as [pc [Hpc Hrun]].
  eexists. eexists. split; [exact Hrun|]. split; [reflexivity|].
  split; [intros r' x Hx; now apply nth_error_alloc_old|].
  split; [now apply nth_error_alloc_old|].
  split; [apply nth_error_alloc_new|].
  split; [reflexivity|].
  split.
  { intros c Hc. unfold derived_columns in Hc. simpl in Hc.
    assert (N1 : String.eqb c "Price_Category" = false)
      by (apply String.eqb_neq; intuition congruence).
    assert (N2 : String.eqb c "Primary_Type" = false)
      by (apply String.eqb_neq; intuition congruence).
    assert (N3 : String.eqb c "Purchase_Frequency" = false)
      by (apply String.eqb_neq; intuition congruence).
    split.
    - rewrite !getitem_setitem, N1, N2, N3. reflexivity.
    - rewrite !columns_setitem. apply String.eqb_neq in N1, N2, N3. intuition. }
  split.
  { assert (Lpc : List.length pc = List.length (df_rows d)).
    { rewrite (price_category_length _ Hpc). unfold records. now rewrite !length_map. }
    assert (Lpt : List.length (primary_type_column d) = List.length (df_rows d)).
    { unfold primary_type_column, reindex, df_index. now rewrite !length_map. }
    pose proof (purchase_frequency_length d) as Lpf.
    intros c Hc. unfold derived_columns in Hc. simpl in Hc.
    destruct Hc as [<- | [<- | [<- | []]]]; rewrite !columns_setitem, !getitem_setitem.
    - split; [auto|]. simpl. eauto.
    - split; [auto|]. simpl. eauto.
    - split; [auto|]. simpl. eauto. }
  intro Hnew.
  assert (H1 : ~ In "Price_Category" (df_columns d)) by (apply Hnew; simpl; auto).
  assert (H2 : ~ In "Primary_Type" (df_columns d)) by (apply Hnew; simpl; auto).
  assert (H3 : ~ In "Purchase_Frequency" (df_columns d)) by (apply Hnew; simpl; auto).
  rewrite columns_setitem_new.
  - rewrite columns_setitem_new.
    + rewrite columns_setitem_new by exact H1.
      now rewrite <- !app_assoc.
    + rewrite columns_setitem. intros [E | H]; [discriminate | contradiction].
  - rewrite !columns_setitem.
    intros [E | [E | H]]; [discriminate | discriminate | contradiction].
Qed.

Lemma segmentation_frame_witness :
  accepted segmentation_required sample
  /\ exists (h' : heap) (out : DataFrame),
      segment_customer_base (Some 0%nat) [sample] = (Ok 1%nat, h')
      /\ nth_error h' 0 = Some sample
      /\ nth_error h' 1 = Some out
      /\ df_rows out = df_rows sample
      /\ df_columns out = df_columns sample ++ derived_columns.
Proof.
  assert (A : accepted segmentation_required sample) by (split; reflexivity).
  split; [exact A|].
  destruct (@segmentation_frame [sample] 0%nat sample eq_refl A)
    as [h' [out [Hrun [_ [_ [Harg [Hout [Hrows [_ [_ Hcols]]]]]]]]]].
  exists h', out. repeat split; try assumption.
  apply Hcols. intros c Hc Hin. simpl in Hc, Hin.
  destruct Hc as [<- | [<- | [<- | []]]];
    repeat (destruct Hin as [Hin | Hin]; [discriminate|]); exact Hin.
Defined.

(** C9 as stated fails on a table that already has a column named like
    a derived one: its values are not kept, the column is assigned
    anew. *)
Lemma segmentation_frame_counterexample :
  accepted segmentation_required labelled_table
  /\ getitem labelled_table "Price_Category"
     = Some [CStr "old"; CStr "old"; CStr "old"; CStr "old"]
  /\ segmented_column labelled_table "Price_Category"
     = Some [CStr "Luxury"; CStr "Premium"; CStr "Budget"; CStr "Value"].
Proof. repeat split; vm_compute; reflexivity. Qed.



(** What the two attempts give on the sample table and on a table with a
    single row. *)
Example price_category_examples :
  price_category (map Price_USD (records sample))
  = Ok [CStr "Luxury"; CStr "Premium"; CStr "Budget"; CStr "Value"]
  /\ price_category [30000%Q] = Ok [CStr "Mid-Range"]
  /\ price_category [0%Q] = Ok [CStr "Mid-Range"].
Proof. repeat split; vm_compute; reflexivity. Qed.

(* ================================================================= *)
(** * Further properties of the code *)

(** ** Facts about means *)

Lemma filter_not_nan_Fin : forall (A : Type) (g : A -> Q) l,
    filter (fun x => negb (is_nan x)) (map (fun a => Fin (g a)) l) = map (fun a => Fin (g a)) l.
Proof. intros A g l. induction l as [|a t IH]; simpl; [reflexivity | now rewrite IH]. Qed.

Lemma inject_length_nonzero : forall (A : Type) (l : list A),
    l <> [] -> Qeq_bool (inject_Z (Z.of_nat (List.length l))) 0 = false.
Proof.
  intros A l H. apply inject_Z_nonzero. destruct l; [congruence | simpl; lia].
Qed.

(** The mean of a series of defined numbers. *)
Lemma series_mean_Fin : forall (A : Type) (g : A -> Q) l,
    l <> [] ->
    series_mean (map (fun a => Fin (g a)) l)
    = Fin (Qsum (map g l) / inject_Z (Z.of_nat (List.length l))).
Proof.
  intros A g l H. unfold series_mean. rewrite filter_not_nan_Fin.
  destruct l as [|a t] eqn:E; [congruence|]. rewrite <- E.
  assert (N : map (fun a => Fin (g a)) l <> []) by (rewrite E; discriminate).
  destruct (map (fun a => Fin (g a)) l) as [|y u] eqn:M; [congruence|]. rewrite <- M.
  rewrite fsum_Fin, length_map. unfold fdiv, of_Z.
  rewrite inject_length_nonzero; [reflexivity | rewrite E; discriminate].
Qed.

Lemma Qsum_lower : forall lo l,
    (forall p, In p l -> lo <= p)%Q ->
    (lo * inject_Z (Z.of_nat (List.length l)) <= Qsum l)%Q.
Proof.
  intros lo l. induction l as [|p t IH]; intro H.
  - change (lo * 0 <= 0)%Q. lra.
  - change (List.length (p :: t)) with (S (List.length t)).
    rewrite Nat2Z.inj_succ. unfold Z.succ. rewrite inject_Z_plus.
    change (Qsum (p :: t)) with (p + Qsum t)%Q.
    assert (lo <= p)%Q by (apply H; now left).
    assert (lo * inject_Z (Z.of_nat (List.length t)) <= Qsum t)%Q
      by (apply IH; intros q Hq; apply H; now right).
    change (inject_Z 1) with 1%Q. lra.
Qed.

Lemma Qsum_upper : forall hi l,
    (forall p, In p l -> p <= hi)%Q ->
    (Qsum l <= hi * inject_Z (Z.of_nat (List.length l)))%Q.
Proof.
  intros hi l. induction l as [|p t IH]; intro H.
  - change (0 <= hi * 0)%Q. lra.
  - change (List.length (p :: t)) with (S (List.length t)).
    rewrite Nat2Z.inj_succ. unfold Z.succ. rewrite inject_Z_plus.
    change (Qsum (p :: t)) with (p + Qsum t)%Q.
    assert (p <= hi)%Q by (apply H; now left).
    assert (Qsum t <= hi * inject_Z (Z.of_nat (List.length t)))%Q
      by (apply IH; intros q Hq; apply H; now right).
    change (inject_Z 1) with 1%Q. lra.
Qed.

Lemma length_positive : forall (A : Type) (l : list A),
    l <> [] -> (0 < inject_Z (Z.of_nat (List.length l)))%Q.
Proof.
  intros A l H. change 0%Q with (inject_Z 0). rewrite <- Zlt_Qlt.
  destruct l; [congruence | simpl; lia].
Qed.

(** The Avg_Price column of the result on an accepted table. *)
Lemma market_avg_price_column : forall d,
    accepted market_required d ->
    exists m,
      calculate_market_metrics (Some d) = Ok m
      /\ metrics_index m = segments_of d
      /\ Avg_Price m
         = Some (map (fun s => series_mean (map (fun r => Fin (Price_USD r)) (segment_rows d s)))
                     (segments_of d)).
Proof.
  intros d Hacc.
  pose proof (validate_accepted "calculate_market_metrics" Hacc) as V.
  unfold validate, market_required in V.
  unfold calculate_market_metrics.
  destruct (require_non_empty "calculate_market_metrics" (Some d)) as [d0|e];
    [|discriminate].
  simpl bind in *.
  destruct (_ensure_columns d0 _) as [u|e]; [|discriminate].
  assert (d0 = d) by (simpl in V; congruence). subst d0.
  eexists. split; [reflexivity|]. cbv beta iota zeta.
  cbn [try_except bind fst snd metrics_index Avg_Price].
  fold (market_rows d). rewrite groupby_agg_keys. fold (segments_of d).
  split; [reflexivity|]. f_equal.
  assert (K : group_keys String.eqb String.leb
                (map fst (map (fun r : Row => (Market_Segment r, Fin (Price_USD r)))
                              (records d)))
              = segments_of d).
  { unfold segments_of, market_rows. now rewrite !map_map. }
  unfold groupby_agg. rewrite K.
  rewrite (reindex_self String.eqb_eq). apply map_ext. intro s.
  unfold segment_rows. now rewrite group_map.
Qed.

Lemma segment_rows_nonempty : forall d s, In s (segments_of d) -> segment_rows d s <> [].
Proof.
  intros d s H. apply segments_of_In in H. destruct H as [r [Hr E]].
  assert (In r (segment_rows d s)).
  { unfold segment_rows. apply filter_In. split; [exact Hr|]. now apply String.eqb_eq. }
  intro N. now rewrite N in *.
Qed.

(** X1.  On a non-empty table with the required columns the Avg_Price
    column is present (the handler that would leave it out is not
    entered) and has one entry per segment; the entry of a segment is the
    mean of the Price_USD of its rows: a defined number, never NaN, which
    times the number of rows gives the sum of the prices and which lies
    between the lowest and the highest price of the segment. *)
Theorem avg_price_spec :
  forall d : DataFrame,
    accepted market_required d ->
    exists (m : Metrics) (avg : list fnum),
      calculate_market_metrics (Some d) = Ok m
      /\ Avg_Price m = Some avg
      /\ List.length avg = List.length (metrics_index m)
      /\ forall s, In s (metrics_index m) ->
           let prices := segment_prices d s in
           prices <> []
           /\ exists q : Q,
               column_at (metrics_index m) avg s = Some (Fin q)
               /\ (q * inject_Z (Z.of_nat (List.length prices)) == Qsum prices)%Q
               /\ (forall lo, (forall p, In p prices -> lo <= p)%Q -> (lo <= q)%Q)
               /\ (forall hi, (forall p, In p prices -> p <= hi)%Q -> (q <= hi)%Q).
Proof.
  intros d Hacc.
  destruct (market_avg_price_column Hacc) as [m [Hm [Hi Ha]]].
  exists m. eexists. split; [exact Hm|]. split; [exact Ha|].
  split; [now rewrite Hi, length_map|].
  intros s Hs prices. rewrite Hi in Hs.
  pose proof (segment_rows_nonempty d s Hs) as Hne.
  assert (Hp : prices <> []).
  { unfold prices, segment_prices. destruct (segment_rows d s); [congruence | discriminate]. }
  split; [exact Hp|].
  exists (Qsum prices / inject_Z (Z.of_nat (List.length prices)))%Q.
  pose proof (length_positive Hp) as Hpos.
  split.
  { unfold column_at. rewrite Hi, (lookup_combine_map String.eqb_eq).
    apply (mem_In String.eqb_eq) in Hs. rewrite Hs. f_equal.
    rewrite (series_mean_Fin Price_USD Hne).
    unfold prices, segment_prices. now rewrite length_map. }
  split; [field; intro E; rewrite E in Hpos; exact (Qlt_irrefl _ Hpos)|].
  split.
  - intros lo H. apply Qle_shift_div_l; [exact Hpos | now apply Qsum_lower].
  - intros hi H. apply Qle_shift_div_r; [exact Hpos | now apply Qsum_upper].
Qed.

Lemma avg_price_spec_witness :
  accepted market_required sample
  /\ exists (m : Metrics) (avg : list fnum) (q : Q),
      calculate_market_metrics (Some sample) = Ok m
      /\ Avg_Price m = Some avg
      /\ column_at (metrics_index m) avg "A" = Some (Fin q)
      /\ (q == 35000)%Q.
Proof.
  assert (A : accepted market_required sample) by (split; reflexivity).
  split; [exact A|].
  destruct (avg_price_spec A) as [m [avg [Hm [Ha [_ H]]]]].
  assert (I : In "A" (metrics_index m)) by (inversion Hm; simpl; auto).
  destruct (H "A" I) as [_ [q [Hq [Hsum _]]]].
  exists m, avg, q. split; [exact Hm|]. split; [exact Ha|]. split; [exact Hq|].
  assert (E : (q * 2 == 70000)%Q) by exact Hsum.
  lra.
Defined.

(** ** Facts about the regional sales table *)

Lemma regional_sales_cell : forall d region y,
    In region (map Region (records d)) -> In y (map Year (records d)) ->
    pivot_at String.eqb Z.eqb
      (pivot_sum String.eqb String.leb Z.eqb Z.leb
         (map (fun r => ((Region r, Year r), Sales_Volume r)) (records d))) region y
    = Some (region_year_volume d region y).
Proof.
  intros d region y Hr Hy.
  rewrite (pivot_at_sum String.leb Z.leb String.eqb_eq Z.eqb_eq).
  rewrite !map_map. cbn [fst snd].
  assert (My : mem Z.eqb y (group_keys Z.eqb Z.leb
                              (map (fun x : Row => Year x) (records d))) = true).
  { apply (mem_In Z.eqb_eq), (group_keys_In Z.eqb_eq). exact Hy. }
  assert (Mr : mem String.eqb region
                 (group_keys String.eqb String.leb
                    (map (fun x : Row => Region x) (records d))) = true).
  { apply (mem_In String.eqb_eq), (group_keys_In String.eqb_eq). exact Hr. }
  rewrite My, Mr. unfold cell_sum, region_year_volume.
  now rewrite (group_map (pair_eqb String.eqb Z.eqb)
                 (fun r => (Region r, Year r)) Sales_Volume).
Qed.

Lemma filter_filter : forall (A : Type) (f g : A -> bool) l,
    filter g (filter f l) = filter (fun x => f x && g x) l.
Proof.
  intros A f g l. induction l as [|x t IH]; simpl; [reflexivity|].
  destruct (f x); simpl; [destruct (g x); now rewrite IH | exact IH].
Qed.

Lemma Zsum_nil_or : forall (vs : list Z),
    match vs with [] => 0%Z | _ => Zsum vs end = Zsum vs.
Proof. intros [|v t]; reflexivity. Qed.

(** X2.  The sales table of the regional results has the regions that
    occur as rows and the years that occur as columns, the years
    ascending.  The cell of a region and a year holds the summed
    Sales_Volume of the rows of that region and year and is undefined,
    not 0, exactly when there is no such row (this table is not passed
    through fillna); the defined cells of a region add up to the summed
    Sales_Volume of the region. *)
Theorem regional_sales_spec :
  forall (sort_values : list TopRow -> list TopRow) (d : DataFrame),
    accepted regional_required d ->
    exists res : RegionalResults,
      analyze_regional_performance sort_values (Some d) = Ok res
      /\ (forall region, In region (p_index (sales res))
                         <-> exists r, In r (records d) /\ Region r = region)
      /\ p_columns (sales res) = years_of d
      /\ StronglySorted Z.lt (p_columns (sales res))
      /\ (forall region y,
             In region (p_index (sales res)) -> In y (p_columns (sales res)) ->
             pivot_at String.eqb Z.eqb (sales res) region y
             = Some (region_year_volume d region y)
             /\ (region_year_volume d region y = None
                 <-> forall r, In r (records d) -> ~ (Region r = region /\ Year r = y)))
      /\ (forall region,
             In region (p_index (sales res)) ->
             Zsum (map (fun y => cell_volume (pivot_at String.eqb Z.eqb (sales res) region y))
                       (p_columns (sales res)))
             = region_volume d region).
Proof.
  intros sv d Hacc. eexists.
  split; [apply (analyze_regional_performance_ok sv Hacc)|].
  cbn [sales].
  set (rows := map (fun r => ((Region r, Year r), Sales_Volume r)) (records d)).
  assert (Hcols : p_columns (pivot_sum String.eqb String.leb Z.eqb Z.leb rows) = years_of d).
  { unfold pivot_sum, rows, years_of. cbn [p_columns]. now rewrite map_map. }
  assert (Hidx : forall region,
             In region (p_index (pivot_sum String.eqb String.leb Z.eqb Z.leb rows))
             <-> In region (map Region (records d))).
  { intro region. unfold pivot_sum, rows. cbn [p_index]. rewrite map_map. cbn [fst].
    apply (group_keys_In String.eqb_eq). }
  split.
  { intro region. rewrite Hidx, in_map_iff.
    split; intros [r [H1 H2]]; exists r; auto. }
  split; [exact Hcols|].
  split; [rewrite Hcols; apply group_keys_ascending|].
  split.
  - intros region y Hr Hy. rewrite Hcols in Hy. apply years_of_In in Hy.
    apply Hidx in Hr. split; [now apply regional_sales_cell|].
    unfold region_year_volume.
    set (f := fun r : Row => String.eqb (Region r) region && Z.eqb (Year r) y).
    split.
    + intros E r Hin [E1 E2].
      assert (Hf : In r (filter f (records d))).
      { apply filter_In. split; [exact Hin|]. unfold f.
        apply andb_true_iff. split; [now apply String.eqb_eq | now apply Z.eqb_eq]. }
      destruct (filter f (records d)) as [|a t]; [contradiction | discriminate].
    + intro H. rewrite filter_none; [reflexivity|].
      apply Forall_forall. intros r Hin. unfold f.
      destruct (String.eqb (Region r) region) eqn:E1; [|reflexivity].
      destruct (Z.eqb (Year r) y) eqn:E2; [|reflexivity].
      apply String.eqb_eq in E1. apply Z.eqb_eq in E2. exfalso. apply (H r Hin). auto.
  - intros region Hr. apply Hidx in Hr. rewrite Hcols.
    rewrite (map_ext_in _ (fun y => Zsum (group Z.eqb
                                      (map (fun r => (Year r, Sales_Volume r))
                                           (filter (fun r => String.eqb (Region r) region)
                                                   (records d))) y))).
    + rewrite (Zsum_groups Z.eqb_eq).
      * unfold region_volume. now rewrite map_map.
      * apply (group_keys_NoDup Z.eqb_eq).
      * intros r Hin. apply in_map_iff in Hin. destruct Hin as [x [<- Hx]].
        apply filter_In in Hx. cbn [fst]. apply years_of_In. apply in_map. tauto.
    + intros y Hy. apply years_of_In in Hy. unfold rows.
      rewrite (regional_sales_cell d region y Hr Hy).
      unfold region_year_volume, cell_volume.
      rewrite (group_map Z.eqb Year Sales_Volume), filter_filter.
      destruct (map Sales_Volume _); reflexivity.
Qed.

Lemma regional_sales_spec_witness :
  accepted regional_required sample
  /\ exists res : RegionalResults,
      analyze_regional_performance sort_stable (Some sample) = Ok res
      /\ p_index (sales res) = ["EU"; "US"]
      /\ p_columns (sales res) = [2020%Z; 2021%Z]
      /\ pivot_at String.eqb Z.eqb (sales res) "EU" 2021%Z = Some (Some 60%Z)
      /\ Zsum (map (fun y => cell_volume (pivot_at String.eqb Z.eqb (sales res) "US" y))
                   (p_columns (sales res))) = 240%Z.
Proof.
  assert (A : accepted regional_required sample) by (split; reflexivity).
  split; [exact A|].
  destruct (regional_sales_spec sort_stable A) as [res [Hres [Hi [Hc [_ [Hcell Hsum]]]]]].
  exists res. split; [exact Hres|].
  assert (I : p_index (sales res) = ["EU"; "US"]) by (inversion Hres; reflexivity).
  split; [exact I|]. split; [exact Hc|]. split.
  - apply (Hcell "EU" 2021%Z); [rewrite I | rewrite Hc]; simpl; auto.
  - apply (Hsum "US"). rewrite I. simpl. auto.
Defined.

(** ** Facts about the yearly table *)

(** The time series on an accepted table, column by column. *)
Lemma calculate_time_series_metrics_ok : forall d,
    accepted time_series_required d ->
    exists ts m,
      calculate_time_series_metrics (Some d) = Ok (ts, m)
      /\ ts_index ts = years_of d
      /\ ts_Sales_Volume ts = map (year_volume d) (years_of d)
      /\ ts_Price_USD ts
         = map (fun y => series_mean (map (fun r => Fin (Price_USD r)) (year_rows d y)))
               (years_of d)
      /\ ts_Green_Vehicle ts = map (green_count d) (years_of d)
      /\ Sales_YoY ts
         = map (fun x => fmul x (Fin 100)) (pct_change (map of_Z (ts_Sales_Volume ts)))
      /\ Price_YoY ts
         = map (fun x => fmul x (Fin 100)) (pct_change (ts_Price_USD ts))
      /\ avg_yearly_growth m = series_mean (Sales_YoY ts)
      /\ price_trend m = series_mean (Price_YoY ts).
Proof.
  intros d Hacc.
  pose proof (validate_accepted "calculate_time_series_metrics" Hacc) as V.
  unfold validate, time_series_required in V.
  unfold calculate_time_series_metrics.
  destruct (require_non_empty "calculate_time_series_metrics" (Some d)) as [d0|e];
    [|discriminate].
  simpl bind in *.
  destruct (_ensure_columns d0 _) as [u|e]; [|discriminate].
  assert (d0 = d) by (simpl in V; congruence). subst d0.
  cbv beta iota zeta.
  cbn [ts_Green_Vehicle Sales_YoY Price_YoY ts_Sales_Volume ts_Price_USD ts_index
       try_except bind].
  match goal with
  | |- context [try_except ?m (fun _ => Ok (Fin 0))] =>
      destruct (try_except_default m (Fin 0)) as [g Hg]; rewrite Hg
  end.
  cbn [bind]. eexists. eexists. split; [reflexivity|].
  cbn [ts_Green_Vehicle Sales_YoY Price_YoY ts_Sales_Volume ts_Price_USD ts_index
       avg_yearly_growth price_trend].
  rewrite groupby_agg_keys, !groupby_agg_values, !map_map. cbn [fst].
  change (map (fun x : Row => Year x) (records d)) with (map Year (records d)).
  fold (years_of d).
  split; [reflexivity|].
  split; [apply map_ext; intro y; unfold year_volume, year_rows; now rewrite group_map|].
  split; [apply map_ext; intro y; unfold year_rows; now rewrite group_map|].
  split; [apply map_ext; intro y; unfold green_count; now rewrite group_map|].
  split.
  { f_equal. f_equal. unfold groupby_agg. rewrite !map_map. cbn [fst snd].
    reflexivity. }
  repeat split.
Qed.

Lemma year_volume_total : forall d,
    Zsum (map (year_volume d) (years_of d)) = total_volume d.
Proof.
  intro d. unfold total_volume.
  replace (map Sales_Volume (records d))
    with (map snd (map (fun r => (Year r, Sales_Volume r)) (records d)))
    by now rewrite map_map.
  rewrite <- (Zsum_groups Z.eqb_eq (years_of d)).
  - apply f_equal, map_ext. intro y. unfold year_volume, year_rows.
    now rewrite group_map.
  - apply (group_keys_NoDup Z.eqb_eq).
  - intros r Hr. apply in_map_iff in Hr. destruct Hr as [x [<- Hx]]. cbn [fst].
    apply years_of_In. now apply in_map.
Qed.

Lemma year_rows_nonempty : forall d y, In y (years_of d) -> year_rows d y <> [].
Proof.
  intros d y H. apply years_of_In, in_map_iff in H. destruct H as [r [E Hr]].
  assert (In r (year_rows d y)).
  { unfold year_rows. apply filter_In. split; [exact Hr|]. now apply Z.eqb_eq. }
  intro N. now rewrite N in *.
Qed.

(** X3.  The time-series table has one row per year that occurs, in
    ascending order, and each of its five columns has one entry per year.
    The Sales_Volume of a year is the sum over the rows of the year (so
    the column adds up to the Sales_Volume of the whole table),
    Green_Vehicle is the number of rows of the year that are flagged, and
    Price_USD is the mean price of the year, a defined number. *)
Theorem time_series_table_spec :
  forall d : DataFrame,
    accepted time_series_required d ->
    exists (ts : TimeSeries) (m : TrendMetrics),
      calculate_time_series_metrics (Some d) = Ok (ts, m)
      /\ StronglySorted Z.lt (ts_index ts)
      /\ (forall y, In y (ts_index ts) <-> exists r, In r (records d) /\ Year r = y)
      /\ (List.length (ts_Sales_Volume ts) = List.length (ts_index ts)
          /\ List.length (ts_Price_USD ts) = List.length (ts_index ts)
          /\ List.length (ts_Green_Vehicle ts) = List.length (ts_index ts)
          /\ List.length (Sales_YoY ts) = List.length (ts_index ts)
          /\ List.length (Price_YoY ts) = List.length (ts_index ts))
      /\ (forall y, In y (ts_index ts) ->
            at_year ts ts_Sales_Volume y = Some (year_volume d y)
            /\ at_year ts ts_Green_Vehicle y = Some (green_count d y)
            /\ exists q : Q,
                at_year ts ts_Price_USD y = Some (Fin q)
                /\ (q * inject_Z (Z.of_nat (List.length (year_prices d y)))
                    == Qsum (year_prices d y))%Q)
      /\ Zsum (ts_Sales_Volume ts) = total_volume d.
Proof.
  intros d Hacc.
  destruct (calculate_time_series_metrics_ok Hacc)
    as [ts [m [Hrun [Hi [Hv [Hp [Hg [Hsy [Hpy _]]]]]]]]].
  exists ts, m. split; [exact Hrun|].
  split; [rewrite Hi; apply group_keys_ascending|].
  split.
  { intro y. rewrite Hi, years_of_In, in_map_iff.
    split; intros [r [H1 H2]]; exists r; auto. }
  assert (Lpc : forall l : list fnum, List.length (pct_change l) = List.length l).
  { intros [|x t]; [reflexivity|]. cbn [pct_change List.length].
    rewrite length_map, length_combine. cbn [List.length]. f_equal. lia. }
  split.
  { rewrite Hsy, Hpy, !length_map, !Lpc, !length_map, Hv, Hp, Hg, Hi, !length_map.
    repeat split. }
  split.
  - intros y Hy. rewrite Hi in Hy. unfold at_year. rewrite Hi, Hv, Hp, Hg.
    rewrite !(lookup_combine_map Z.eqb_eq).
    pose proof Hy as My. apply (mem_In Z.eqb_eq) in My. rewrite My.
    split; [reflexivity|]. split; [reflexivity|].
    pose proof (year_rows_nonempty d y Hy) as Hne.
    rewrite (series_mean_Fin Price_USD Hne). eexists. split; [reflexivity|].
    unfold year_prices. rewrite length_map.
    pose proof (length_positive Hne) as Hpos.
    field. intro E. rewrite E in Hpos. exact (Qlt_irrefl _ Hpos).
  - rewrite Hv. apply year_volume_total.
Qed.

Lemma time_series_table_spec_witness :
  accepted time_series_required sample
  /\ exists (ts : TimeSeries) (m : TrendMetrics),
      calculate_time_series_metrics (Some sample) = Ok (ts, m)
      /\ at_year ts ts_Sales_Volume 2021 = Some 260%Z
      /\ at_year ts ts_Green_Vehicle 2020 = Some 2%Z
      /\ Zsum (ts_Sales_Volume ts) = 400%Z.
Proof.
  assert (A : accepted time_series_required sample) by (split; reflexivity).
  split; [exact A|].
  destruct (time_series_table_spec A) as [ts [m [Hrun [_ [Hi [_ [Hat Htot]]]]]]].
  exists ts, m. split; [exact Hrun|].
  assert (I1 : In 2021%Z (ts_index ts)).
  { apply Hi. eexists. split; [right; left; reflexivity | reflexivity]. }
  assert (I0 : In 2020%Z (ts_index ts)).
  { apply Hi. eexists. split; [left; reflexivity | reflexivity]. }
  split; [exact (proj1 (Hat _ I1))|].
  split; [exact (proj1 (proj2 (Hat _ I0)))|].
  exact Htot.
Defined.

Lemma nth_error_combine : forall (A B : Type) (l : list A) (l' : list B) i a b,
    nth_error l i = Some a -> nth_error l' i = Some b ->
    nth_error (combine l l') i = Some (a, b).
Proof.
  intros A B l. induction l as [|x t IH]; intros l' i a b Ha Hb.
  - destruct i; discriminate.
  - destruct l' as [|y u]; [destruct i; discriminate|].
    destruct i; simpl in *; [congruence | now apply IH].
Qed.

Lemma pct_change_nth : forall l i a b,
    nth_error l i = Some a -> nth_error l (S i) = Some b ->
    nth_error (pct_change l) (S i) = Some (fsub (fdiv b a) (Fin 1)).
Proof.
  intros [|x t] i a b Ha Hb; [destruct i; discriminate|].
  cbn [pct_change nth_error]. cbn [nth_error] in Hb.
  rewrite nth_error_map, (nth_error_combine _ _ _ Ha Hb). reflexivity.
Qed.

(** X4.  Sales_YoY starts with an undefined entry; every later entry
    compares the year with the year before it in the table (which need
    not be the calendar year before): (current / previous - 1) * 100 when
    the previous total is not 0.  A previous total of 0 raises nothing:
    the entry is +infinity when the current total is positive and NaN when
    it is 0 as well. *)
Theorem sales_yoy_spec :
  forall d : DataFrame,
    accepted time_series_required d ->
    exists (ts : TimeSeries) (m : TrendMetrics),
      calculate_time_series_metrics (Some d) = Ok (ts, m)
      /\ nth_error (Sales_YoY ts) 0 = Some NaN
      /\ forall i prev cur,
          nth_error (ts_Sales_Volume ts) i = Some prev ->
          nth_error (ts_Sales_Volume ts) (S i) = Some cur ->
          nth_error (Sales_YoY ts) (S i) = Some (percent_change (of_Z prev) (of_Z cur))
          /\ (prev <> 0%Z ->
              percent_change (of_Z prev) (of_Z cur)
              = Fin ((inject_Z cur / inject_Z prev - 1) * 100))
          /\ (prev = 0%Z -> (0 < cur)%Z -> percent_change (of_Z prev) (of_Z cur) = PInf)
          /\ (prev = 0%Z -> cur = 0%Z -> percent_change (of_Z prev) (of_Z cur) = NaN).
Proof.
  intros d Hacc.
  destruct (calculate_time_series_metrics_ok Hacc)
    as [ts [m [Hrun [Hi [Hv [_ [_ [Hsy _]]]]]]]].
  exists ts, m. split; [exact Hrun|]. split.
  { rewrite Hsy, Hv. pose proof (accepted_rows Hacc) as N.
    assert (Y : years_of d <> []).
    { apply (group_keys_nonempty Z.eqb_eq). unfold records.
      destruct (df_rows d); [congruence | discriminate]. }
    destruct (years_of d); [congruence | reflexivity]. }
  intros i prev cur Hp Hc. split.
  - rewrite Hsy, nth_error_map.
    rewrite (@pct_change_nth _ i (of_Z prev) (of_Z cur)).
    + reflexivity.
    + now rewrite nth_error_map, Hp.
    + now rewrite nth_error_map, Hc.
  - unfold percent_change, of_Z, fdiv. split; [|split].
    + intro Hnz. now rewrite (inject_Z_nonzero Hnz).
    + intros -> Hpos. change (Qeq_bool (inject_Z 0) 0) with true. cbv iota.
      rewrite inject_Z_nonzero by lia.
      assert (L : Qlt_bool 0 (inject_Z cur) = true).
      { apply Qlt_bool_iff. change 0%Q with (inject_Z 0). rewrite <- Zlt_Qlt. lia. }
      rewrite L. reflexivity.
    + intros -> ->. reflexivity.
Qed.

Lemma sales_yoy_spec_witness :
  accepted time_series_required sample
  /\ exists (ts : TimeSeries) (m : TrendMetrics),
      calculate_time_series_metrics (Some sample) = Ok (ts, m)
      /\ nth_error (Sales_YoY ts) 1
         = Some (Fin ((inject_Z 260 / inject_Z 140 - 1) * 100)).
Proof.
  assert (A : accepted time_series_required sample) by (split; reflexivity).
  split; [exact A|].
  destruct (sales_yoy_spec A) as [ts [m [Hrun [_ H]]]].
  exists ts, m. split; [exact Hrun|].
  assert (V : ts_Sales_Volume ts = [140%Z; 260%Z]) by (inversion Hrun; reflexivity).
  destruct (H 0%nat 140%Z 260%Z) as [H1 [H2 _]]; [now rewrite V | now rewrite V|].
  rewrite H1, H2; [reflexivity | discriminate].
Defined.

Lemma series_mean_skip : forall l, series_mean (NaN :: l) = series_mean l.
Proof. reflexivity. Qed.

Lemma series_mean_all_nan : forall (A : Type) (l : list A),
    series_mean (map (fun _ => NaN) l) = NaN.
Proof.
  intros A l. unfold series_mean. rewrite filter_none; [reflexivity|].
  apply Forall_forall. intros x Hx. apply in_map_iff in Hx. now destruct Hx as [_ [<- _]].
Qed.

Lemma combine_constant : forall (A B : Type) (a : A) (l : list B) (t : list B),
    (List.length t <= List.length l)%nat ->
    combine (map (fun _ => a) l) (map (fun _ => a) t) = map (fun _ => (a, a)) t.
Proof.
  intros A B a l. induction l as [|x l IH]; intros [|y t] H; simpl in *;
    try reflexivity; [lia|]. f_equal. apply IH. lia.
Qed.

Lemma pct_change_constant : forall (A : Type) (a : fnum) (x : A) (t : list A),
    pct_change (map (fun _ => a) (x :: t))
    = NaN :: map (fun _ => fsub (fdiv a a) (Fin 1)) t.
Proof.
  intros A a x t. cbn [map pct_change]. f_equal.
  change (a :: map (fun _ : A => a) t) with (map (fun _ : A => a) (x :: t)).
  rewrite combine_constant by (simpl; lia). now rewrite map_map.
Qed.

Lemma Qsum_zero : forall (A : Type) (q : Q) (l : list A),
    (q == 0)%Q -> (Qsum (map (fun _ => q) l) == 0)%Q.
Proof.
  intros A q l H. induction l as [|x t IH]; simpl; [reflexivity|]. rewrite IH, H. ring.
Qed.

(** X5.  When the table covers at least two years and every year has
    the same total volume, avg_yearly_growth is 0 if that total is not 0;
    if the total is 0 every change is 0/0 and avg_yearly_growth is NaN,
    not 0: the mean of undefined changes raises nothing, so the handler
    that would set 0 is not entered. *)
Theorem constant_volume_growth :
  forall (d : DataFrame) (v : Z),
    accepted time_series_required d ->
    (2 <= List.length (years_of d))%nat ->
    (forall y, In y (years_of d) -> year_volume d y = v) ->
    exists (ts : TimeSeries) (m : TrendMetrics),
      calculate_time_series_metrics (Some d) = Ok (ts, m)
      /\ (v <> 0%Z -> feq (avg_yearly_growth m) (Fin 0))
      /\ (v = 0%Z -> avg_yearly_growth m = NaN).
Proof.
  intros d v Hacc H2 Hv.
  destruct (calculate_time_series_metrics_ok Hacc)
    as [ts [m [Hrun [_ [Hvol [_ [_ [Hsy [_ [Havg _]]]]]]]]]].
  exists ts, m. split; [exact Hrun|].
  rewrite Havg, Hsy, Hvol.
  rewrite (map_ext_in _ (fun _ => v) _ Hv), map_map.
  destruct (years_of d) as [|y0 [|y1 t]]; [simpl in H2; lia | simpl in H2; lia |].
  rewrite pct_change_constant, map_cons.
  change (fmul NaN (Fin 100)) with NaN. rewrite series_mean_skip, map_map.
  split.
  - intro Hnz. unfold of_Z, fdiv. rewrite (inject_Z_nonzero Hnz). cbn [fsub fneg fadd fmul].
    rewrite (series_mean_Fin (fun _ : Z => ((inject_Z v / inject_Z v + - (1)) * 100)%Q));
      [|discriminate].
    cbn [feq]. rewrite Qsum_zero.
    + unfold Qdiv. ring.
    + assert (~ inject_Z v == 0)%Q by (apply Qeq_bool_false, inject_Z_nonzero, Hnz).
      field. assumption.
  - intros ->. change (fmul (fsub (fdiv (of_Z 0) (of_Z 0)) (Fin 1)) (Fin 100)) with NaN.
    apply series_mean_all_nan.
Qed.

Lemma constant_volume_growth_witness :
  accepted time_series_required steady_table
  /\ exists (ts : TimeSeries) (m : TrendMetrics),
      calculate_time_series_metrics (Some steady_table) = Ok (ts, m)
      /\ feq (avg_yearly_growth m) (Fin 0).
Proof.
  assert (A : accepted time_series_required steady_table) by (split; reflexivity).
  split; [exact A|].
  destruct (@constant_volume_growth steady_table 50%Z A) as [ts [m [Hrun [H _]]]].
  - simpl. lia.
  - intros y Hy. simpl in Hy. destruct Hy as [<- | [<- | []]]; reflexivity.
  - exists ts, m. split; [exact Hrun|]. apply H. discriminate.
Defined.

(** ** Facts about the purchase frequency *)

Lemma dropna_Some : forall (V W : Type) (f : W -> V) l, dropna (map (fun x => Some (f x)) l) = map f l.
Proof. intros V W f l. induction l as [|x t IH]; simpl; [reflexivity | now rewrite IH]. Qed.

Lemma mapped_frequency_purchases : forall d,
    mapped_frequency d = map (fun r => Some (purchases d r)) (records d).
Proof.
  intro d. unfold mapped_frequency. apply map_ext_in. intros r Hr.
  unfold purchase_freq, groupby_agg. rewrite (lookup_map label_eqb_eq).
  assert (M : mem label_eqb (Customer_ID r)
                (group_keys label_eqb label_leb
                   (map fst (map (fun r0 : Row => (Customer_ID r0, tt)) (records d))))
              = true).
  { apply (mem_In label_eqb_eq), (group_keys_In label_eqb_eq).
    rewrite map_map. simpl. now apply in_map. }
  rewrite M. f_equal. unfold purchases.
  rewrite (group_map label_eqb Customer_ID (fun _ => tt)). now rewrite length_map.
Qed.

Lemma Zltb_not_eq : forall a b, Z.ltb a b = true -> Z.eqb a b = false.
Proof. intros a b H. apply Z.ltb_lt in H. apply Z.eqb_neq. lia. Qed.

Lemma Zltb_trans_eq : forall a b c,
    Z.ltb a b = true \/ Z.eqb a b = true -> Z.ltb b c = true -> Z.ltb a c = true.
Proof.
  intros a b c H1 H2. apply Z.ltb_lt in H2. apply Z.ltb_lt.
  destruct H1 as [H1 | H1]; [apply Z.ltb_lt in H1 | apply Z.eqb_eq in H1]; lia.
Qed.

Lemma Zeqb_lt_compat : forall a b c, Z.eqb a b = true -> Z.ltb c a = Z.ltb c b.
Proof. intros a b c H. apply Z.eqb_eq in H. now subst. Qed.

Lemma Zeqb_eq_compat : forall a b c, Z.eqb a b = true -> Z.eqb c a = Z.eqb c b.
Proof. intros a b c H. apply Z.eqb_eq in H. now subst. Qed.

Lemma Z_trichotomy_bool : forall a b,
    Z.ltb a b = true \/ Z.eqb a b = true \/ Z.ltb b a = true.
Proof.
  intros a b. destruct (Z.lt_trichotomy a b) as [H | [H | H]].
  - left. now apply Z.ltb_lt.
  - right. left. now apply Z.eqb_eq.
  - right. right. now apply Z.ltb_lt.
Qed.

Lemma count_rank_perm : forall counts,
    Permutation (rank_first Z.ltb Z.eqb counts)
                (map Z.of_nat (seq 1 (List.length counts))).
Proof.
  intro counts. apply rank_first_perm.
  - apply Z.eqb_refl.
  - apply Zltb_not_eq.
  - apply Zltb_trans_eq.
  - apply Zeqb_lt_compat.
  - apply Zeqb_eq_compat.
  - apply Z_trichotomy_bool.
Qed.

(** Sorting any arrangement of the ranks 1 to [n] gives 1, 2, ..., n. *)
Lemma sorted_ranks : forall ranks n,
    Permutation ranks (map Z.of_nat (seq 1 n)) ->
    sort Qle_bool (map inject_Z ranks) = one_to_n n.
Proof.
  intros ranks n P. rewrite sort_inject_Z. unfold one_to_n. f_equal.
  pose proof (sort_perm Z.leb ranks) as S.
  apply ascending_unique.
  - apply sorted_strict; [apply Zsort_sorted|].
    eapply Permutation_NoDup; [exact S|].
    eapply Permutation_NoDup; [symmetry; exact P|].
    apply Finite.Injective_map_NoDup; [|apply seq_NoDup].
    intros a b H. now apply Nat2Z.inj.
  - apply one_to_n_ascending.
  - intro x. split; intro H.
    + eapply Permutation_in; [exact P|]. eapply Permutation_in; [symmetry; exact S|]. exact H.
    + eapply Permutation_in; [exact S|]. eapply Permutation_in; [symmetry; exact P|]. exact H.
Qed.

Lemma third_fraction : forall k,
    (0 <= k <= 3)%Z ->
    let p := (0 + inject_Z k * (1 - 0) / inject_Z (Z.of_nat (3 + 1 - 1)))%Q in
    (0 <= p)%Q /\ (p <= 1)%Q /\ (p == inject_Z k / 3)%Q.
Proof.
  intros k [H0 H3]. simpl.
  assert (A0 : (0 <= inject_Z k)%Q) by (change 0%Q with (inject_Z 0); now rewrite <- Zle_Qle).
  assert (A3 : (inject_Z k <= 3)%Q) by (change 3%Q with (inject_Z 3); now rewrite <- Zle_Qle).
  change (inject_Z 3) with 3%Q.
  assert (E : (0 + inject_Z k * (1 - 0) / 3 == inject_Z k / 3)%Q) by (field).
  rewrite E. split; [|split; [|reflexivity]].
  - apply Qle_shift_div_l; [reflexivity | lra].
  - apply Qle_shift_div_r; [reflexivity | lra].
Qed.

(** The quantile edges of the ranks of [n] counts for three bins are the
    four equally spaced points from 1 to [n]. *)
Lemma frequency_edges : forall counts,
    counts <> [] ->
    Forall2 Qeq (quantile_edges (map inject_Z (rank_first Z.ltb Z.eqb counts)) 3)
            (map (frequency_edge (List.length counts)) (Z_range 4)).
Proof.
  intros counts Hne. unfold quantile_edges.
  rewrite (@sorted_ranks _ _ (count_rank_perm counts)).
  unfold linspace. rewrite map_map.
  apply Forall2_map_same. intros k Hk. apply Z_range_In in Hk.
  assert (Hk' : (0 <= k <= 3)%Z) by (simpl in Hk; lia).
  destruct (third_fraction Hk') as [P0 [P1 PE]].
  rewrite quantile_one_to_n; [| destruct counts; [congruence | simpl; lia] | exact P0 | exact P1].
  unfold frequency_edge. now rewrite PE.
Qed.

Lemma frequency_edge_increasing : forall n,
    (2 <= n)%nat -> StronglySorted Qlt (map (frequency_edge n) (Z_range 4)).
Proof.
  intros n Hn. apply (StronglySorted_map (R := Z.lt)); [|apply Z_range_sorted].
  intros x y Hxy. unfold frequency_edge.
  assert (M : (0 < inject_Z (Z.of_nat (n - 1)))%Q).
  { change 0%Q with (inject_Z 0). rewrite <- Zlt_Qlt. lia. }
  assert (K : (inject_Z x < inject_Z y)%Q) by now rewrite <- Zlt_Qlt.
  apply Qplus_lt_r. apply Qmult_lt_l; [exact M|].
  unfold Qdiv. apply Qmult_lt_r; [reflexivity | exact K].
Qed.

Lemma frequency_edges_length : forall counts,
    List.length (quantile_edges (map inject_Z (rank_first Z.ltb Z.eqb counts)) 3) = 4%nat.
Proof.
  intro counts. unfold quantile_edges, linspace, Z_range. now rewrite !length_map, length_seq.
Qed.

Lemma Forall2_nth_error : forall (A B : Type) (R : A -> B -> Prop) l l',
    Forall2 R l l' ->
    forall i x, nth_error l i = Some x -> exists y, nth_error l' i = Some y /\ R x y.
Proof.
  intros A B R l l' H. induction H as [|a b t u Hab _ IH]; intros i x Hi.
  - destruct i; discriminate.
  - destruct i; simpl in *; [inversion Hi; subst; eauto | now apply IH].
Qed.

(** With a single row the quantile binning of the frequencies is refused. *)
Lemma qcut_frequency_single : forall counts labels,
    List.length counts = 1%nat ->
    qcut (map inject_Z (rank_first Z.ltb Z.eqb counts)) 3 labels
    = Raise (ValueError "Bin edges must be unique").
Proof.
  intros counts labels N1. unfold qcut, bins_to_cuts.
  assert (Hne : counts <> []) by (destruct counts; discriminate).
  pose proof (frequency_edges Hne) as E. rewrite N1 in E.
  rewrite (unique_all_equal (c := 1%Q)).
  - now rewrite frequency_edges_length.
  - intro H. pose proof (frequency_edges_length counts) as L. rewrite H in L. discriminate.
  - intros x Hx. apply In_nth_error in Hx. destruct Hx as [i Hi].
    destruct (Forall2_nth_error E _ Hi) as [y [Hy Exy]]. rewrite Exy.
    apply nth_error_In in Hy. apply in_map_iff in Hy. destruct Hy as [k [<- _]].
    unfold frequency_edge. simpl. ring.
Qed.

Lemma frequency_edge_first : forall n, (frequency_edge n 0 == 1)%Q.
Proof. intro n. unfold frequency_edge. change (inject_Z 0) with 0%Q. field. Qed.

Lemma frequency_edge_last : forall n,
    (1 <= n)%nat -> (frequency_edge n 3 == inject_Z (Z.of_nat n))%Q.
Proof.
  intros n Hn. unfold frequency_edge. change (inject_Z 3) with 3%Q.
  replace (Z.of_nat n) with (1 + Z.of_nat (n - 1))%Z by lia.
  rewrite inject_Z_plus. change (inject_Z 1) with 1%Q. field.
Qed.

Lemma frequency_bin_range : forall n r,
    (1 <= n)%nat -> (1 <= r <= Z.of_nat n)%Z ->
    (1 <= frequency_bin n r <= 3)%nat.
Proof.
  intros n r Hn Hr. unfold frequency_bin.
  destruct (r =? 1)%Z eqn:E; [lia|]. apply Z.eqb_neq in E.
  unfold Z_range. cbn [seq map]. unfold count. cbn [filter].
  assert (F0 : Qlt_bool (frequency_edge n (Z.of_nat 0)) (inject_Z r) = true).
  { apply Qlt_bool_iff. change (Z.of_nat 0) with 0%Z. rewrite frequency_edge_first.
    change 1%Q with (inject_Z 1). rewrite <- Zlt_Qlt. lia. }
  assert (F3 : Qlt_bool (frequency_edge n (Z.of_nat 3)) (inject_Z r) = false).
  { apply Qlt_bool_false. change (Z.of_nat 3) with 3%Z. rewrite (frequency_edge_last Hn).
    rewrite <- Zle_Qle. lia. }
  rewrite F0, F3.
  destruct (Qlt_bool (frequency_edge n (Z.of_nat 1)) (inject_Z r)),
           (Qlt_bool (frequency_edge n (Z.of_nat 2)) (inject_Z r)); cbn [List.length]; lia.
Qed.

(** A larger rank never falls in an earlier bin. *)
Lemma frequency_bin_mono : forall n r r',
    (1 <= n)%nat -> (1 <= r)%Z -> (r <= r')%Z -> (r' <= Z.of_nat n)%Z ->
    (frequency_bin n r <= frequency_bin n r')%nat.
Proof.
  intros n r r' Hn H1 Hle Hn'.
  pose proof (frequency_bin_range (n := n) (r := r') Hn ltac:(lia)) as R'.
  unfold frequency_bin in *.
  destruct (r =? 1)%Z eqn:E; [lia|]. apply Z.eqb_neq in E.
  destruct (r' =? 1)%Z eqn:E'; [apply Z.eqb_eq in E'; lia|].
  apply count_mono. intros b Hb. apply Qlt_bool_iff in Hb. apply Qlt_bool_iff.
  eapply Qlt_le_trans; [exact Hb|]. now rewrite <- Zle_Qle.
Qed.

Lemma frequency_labels_nth : forall k,
    (1 <= k <= 3)%nat ->
    nth_error frequency_labels (k - 1) = Some (nth (k - 1) frequency_labels EmptyString).
Proof. intros k Hk. apply nth_error_nth'. simpl. lia. Qed.

Lemma count_rank_range : forall counts r,
    In r (rank_first Z.ltb Z.eqb counts) -> (1 <= r <= Z.of_nat (List.length counts))%Z.
Proof.
  intros counts r Hr. apply In_nth_error in Hr. destruct Hr as [i Hi].
  eapply rank_first_range; [apply Z.eqb_refl | apply Zltb_not_eq | exact Hi].
Qed.

(** With at least two rows the quantile binning of the frequencies
    succeeds and gives each row the label of the bin of its rank. *)
Lemma qcut_frequencies : forall counts,
    (2 <= List.length counts)%nat ->
    qcut (map inject_Z (rank_first Z.ltb Z.eqb counts)) 3 frequency_labels
    = Ok (map (fun r => CStr (nth (frequency_bin (List.length counts) r - 1)
                                  frequency_labels EmptyString))
              (rank_first Z.ltb Z.eqb counts)).
Proof.
  intros counts Hn.
  assert (Hne : counts <> []) by (destruct counts; [simpl in Hn; lia | discriminate]).
  pose proof (frequency_edges Hne) as E.
  unfold qcut, bins_to_cuts.
  rewrite (unique_increasing
             (increasing_Forall2 E (frequency_edge_increasing Hn))), Nat.ltb_irrefl.
  cbn [andb]. f_equal.
  pose proof (frequency_edges_length counts) as L.
  set (edges := quantile_edges (map inject_Z (rank_first Z.ltb Z.eqb counts)) 3) in *.
  rewrite map_map. apply map_ext_in. intros r Hr.
  pose proof (@count_rank_range counts r Hr) as Rr.
  rewrite (count_below_Forall2 (inject_Z r) E), L.
  assert (Hd : Qeq_bool (inject_Z r) (hd 0 edges) = (r =? 1)%Z).
  { assert (H0 : (hd 0 edges == 1)%Q).
    { clear - E L. destruct edges as [|e0 t]; [discriminate|].
      unfold Z_range in E. cbn [seq map] in E. inversion E as [|? ? ? ? H0 _]; subst.
      simpl hd. rewrite H0. apply frequency_edge_first. }
    destruct (r =? 1)%Z eqn:R1.
    - apply Z.eqb_eq in R1. subst r. apply Qeq_bool_iff. rewrite H0. reflexivity.
    - apply Z.eqb_neq in R1. apply Qeq_bool_false. rewrite H0.
      intro Q. unfold Qeq in Q. simpl in Q. lia. }
  rewrite Hd. cbn [andb].
  fold (frequency_bin (List.length counts) r).
  pose proof (frequency_bin_range (n := List.length counts) (r := r) ltac:(lia) Rr) as B.
  destruct (Nat.eqb_spec (frequency_bin (List.length counts) r) 0); [lia|].
  destruct (Nat.eqb_spec (frequency_bin (List.length counts) r) 4); [lia|].
  cbn [orb]. now rewrite (frequency_labels_nth B).
Qed.

(** The Purchase_Frequency column, case by case. *)
Lemma purchase_frequency_cases : forall d,
    let counts := map (purchases d) (records d) in
    (List.length counts = 1%nat ->
     purchase_frequency_column d = map (fun _ => CStr "Unknown") (df_rows d))
    /\ ((2 <= List.length counts)%nat ->
        purchase_frequency_column d
        = map (fun r => CStr (nth (frequency_bin (List.length counts) r - 1)
                                  frequency_labels EmptyString))
              (rank_first Z.ltb Z.eqb counts)).
Proof.
  intros d counts. unfold purchase_frequency_column.
  rewrite mapped_frequency_purchases, dropna_Some. fold counts. split; intro H.
  - now rewrite qcut_frequency_single.
  - now rewrite qcut_frequencies.
Qed.

Lemma count_rank_order : forall counts i j ci cj ri rj,
    nth_error counts i = Some ci -> nth_error counts j = Some cj ->
    nth_error (rank_first Z.ltb Z.eqb counts) i = Some ri ->
    nth_error (rank_first Z.ltb Z.eqb counts) j = Some rj ->
    (ci < cj)%Z \/ (ci = cj /\ (i < j)%nat) -> (ri < rj)%Z.
Proof.
  intros counts i j ci cj ri rj Ci Cj Ri Rj [Hlt | [Heq Hij]].
  - apply Z.ltb_lt in Hlt.
    eapply rank_lt_of_lt with (ltb := Z.ltb) (eqb := Z.eqb) (l := counts) (i := i) (j := j);
      first [ exact Ci | exact Cj | exact Ri | exact Rj | exact Hlt
            | apply Z.eqb_refl | apply Zltb_not_eq | apply Zltb_trans_eq ].
  - apply Z.eqb_eq in Heq.
    eapply rank_lt_of_eq with (ltb := Z.ltb) (eqb := Z.eqb) (l := counts) (i := i) (j := j);
      first [ exact Ci | exact Cj | exact Ri | exact Rj | exact Heq | exact Hij
            | apply Z.eqb_refl | apply Zeqb_lt_compat | apply Zeqb_eq_compat ].
Qed.

(** X6.  Purchase_Frequency on a non-empty table with the required
    columns.  Every row carries the number of rows of its customer; these
    counts are ranked 1 to n, a smaller count before a larger one and
    equal counts in row order.  With a single row the three-bin quantile
    cut is refused (its edges coincide) and the column is "Unknown".  With
    two rows or more, and n - 1 not a multiple of 3, each row gets the
    label Low, Medium or High of the bin of its rank, and a row with a
    higher rank never gets an earlier label.  When n - 1 is a multiple of
    3 the two inner edges are whole numbers, and whether a rank that sits
    on such an edge falls below it is decided by the rounding of the
    floating-point edge, which is not modelled; nothing is stated for
    those tables. *)
Theorem purchase_frequency_spec :
  forall (h : heap) (r : ref) (d : DataFrame),
    nth_error h r = Some d ->
    accepted segmentation_required d ->
    let counts := map (purchases d) (records d) in
    let n := List.length counts in
    let ranks := rank_first Z.ltb Z.eqb counts in
    exists (h' : heap) (out : DataFrame) (pf : list cell),
      segment_customer_base (Some r) h = (Ok (List.length h), h')
      /\ nth_error h' (List.length h) = Some out
      /\ getitem out "Purchase_Frequency" = Some pf
      /\ (n = 1%nat -> pf = [CStr "Unknown"])
      /\ ((2 <= n)%nat -> (n mod 3 <> 1)%nat ->
          pf = map (fun k => CStr (nth (frequency_bin n k - 1) frequency_labels EmptyString))
                   ranks
          /\ (forall k, In k ranks -> (1 <= frequency_bin n k <= 3)%nat)
          /\ (forall i j ci cj ri rj,
                 nth_error counts i = Some ci -> nth_error counts j = Some cj ->
                 nth_error ranks i = Some ri -> nth_error ranks j = Some rj ->
                 (ci < cj)%Z \/ (ci = cj /\ (i < j)%nat) ->
                 (ri < rj)%Z /\ (frequency_bin n ri <= frequency_bin n rj)%nat)).
Proof.
  intros h r d Hr Hacc counts n ranks.
  destruct (segment_customer_base_run h r Hr Hacc) as [pc [_ Hrun]].
  destruct (purchase_frequency_cases d) as [C1 C2]. fold counts in C1, C2. fold n in C1, C2.
  eexists. eexists. exists (purchase_frequency_column d).
  split; [exact Hrun|]. split; [apply nth_error_alloc_new|].
  split; [now rewrite !getitem_setitem|].
  split.
  - intro N1. rewrite (C1 N1).
    assert (L : List.length (df_rows d) = 1%nat).
    { unfold n, counts, records in N1. now rewrite !length_map in N1. }
    destruct (df_rows d) as [|a [|b t]]; try discriminate. reflexivity.
  - intros N2 _. split; [exact (C2 N2)|]. split.
    + intros k Hk. apply frequency_bin_range; [lia | now apply (@count_rank_range counts)].
    + intros i j ci cj ri rj Ci Cj Ri Rj H.
      pose proof (@count_rank_order counts i j ci cj ri rj Ci Cj Ri Rj H) as Hlt.
      split; [exact Hlt|].
      apply frequency_bin_mono; [lia | | lia |].
      * apply (@count_rank_range counts ri). eapply nth_error_In; exact Ri.
      * apply (@count_rank_range counts rj). eapply nth_error_In; exact Rj.
Qed.

Lemma purchase_frequency_spec_witness :
  accepted segmentation_required steady_table
  /\ exists (h' : heap) (out : DataFrame) (pf : list cell),
      segment_customer_base (Some 0%nat) [steady_table] = (Ok 1%nat, h')
      /\ nth_error h' 1 = Some out
      /\ getitem out "Purchase_Frequency" = Some pf
      /\ pf = [CStr "Low"; CStr "Medium"; CStr "High"].
Proof.
  assert (A : accepted segmentation_required steady_table) by (split; reflexivity).
  split; [exact A|].
  destruct (@purchase_frequency_spec [steady_table] 0%nat steady_table eq_refl A)
    as [h' [out [pf [Hrun [Hout [Hget [_ H2]]]]]]].
  exists h', out, pf. split; [exact Hrun|]. split; [exact Hout|]. split; [exact Hget|].
  destruct H2 as [Hpf _]; [simpl; lia | simpl; lia |]. rewrite Hpf. vm_compute. reflexivity.
Defined.

Lemma count_all : forall (A : Type) (f : A -> bool) l,
    (forall x, In x l -> f x = true) -> count f l = List.length l.
Proof.
  intros A f l H. unfold count. rewrite filter_all; [reflexivity|].
  now apply Forall_forall.
Qed.

Lemma count_none : forall (A : Type) (f : A -> bool) l,
    (forall x, In x l -> f x = false) -> count f l = 0%nat.
Proof.
  intros A f l H. unfold count. rewrite filter_none; [reflexivity|].
  now apply Forall_forall.
Qed.

(** Equal entries are ranked by position. *)
Lemma rank_first_constant : forall (counts : list Z) (c : Z) i,
    (forall x, In x counts -> x = c) ->
    (i < List.length counts)%nat ->
    nth_error (rank_first Z.ltb Z.eqb counts) i = Some (Z.of_nat (S i)).
Proof.
  intros counts c i Hc Hi.
  destruct (nth_error counts i) as [x|] eqn:E; [|apply nth_error_None in E; lia].
  assert (x = c) by (apply Hc; eapply nth_error_In; exact E). subst x.
  rewrite (rank_first_nth Z.ltb Z.eqb counts i E).
  rewrite count_none, count_all.
  - rewrite length_firstn, Nat.min_l by lia. f_equal. lia.
  - intros x Hx. apply Z.eqb_eq. apply Hc.
    rewrite <- (firstn_skipn i counts). apply in_or_app. now left.
  - intros x Hx. apply Z.ltb_ge. rewrite (Hc x Hx). lia.
Qed.

Lemma frequency_bin_first : forall n, frequency_bin n 1 = 1%nat.
Proof. reflexivity. Qed.

Lemma frequency_bin_last : forall n,
    (2 <= n)%nat -> frequency_bin n (Z.of_nat n) = 3%nat.
Proof.
  intros n Hn. unfold frequency_bin.
  destruct (Z.of_nat n =? 1)%Z eqn:E; [apply Z.eqb_eq in E; lia|].
  unfold Z_range. cbn [seq map]. unfold count. cbn [filter].
  assert (M : (0 < inject_Z (Z.of_nat (n - 1)))%Q).
  { change 0%Q with (inject_Z 0). rewrite <- Zlt_Qlt. lia. }
  assert (N : (inject_Z (Z.of_nat n) == 1 + inject_Z (Z.of_nat (n - 1)))%Q).
  { replace (Z.of_nat n) with (1 + Z.of_nat (n - 1))%Z at 1 by lia.
    rewrite inject_Z_plus. reflexivity. }
  assert (F0 : Qlt_bool (frequency_edge n (Z.of_nat 0)) (inject_Z (Z.of_nat n)) = true).
  { apply Qlt_bool_iff. unfold frequency_edge. rewrite N.
    change (inject_Z (Z.of_nat 0)) with 0%Q.
    unfold Qdiv. change (/ 3)%Q with (1 # 3)%Q. lra. }
  assert (F1 : Qlt_bool (frequency_edge n (Z.of_nat 1)) (inject_Z (Z.of_nat n)) = true).
  { apply Qlt_bool_iff. unfold frequency_edge. rewrite N.
    change (inject_Z (Z.of_nat 1)) with 1%Q.
    unfold Qdiv. change (/ 3)%Q with (1 # 3)%Q. lra. }
  assert (F2 : Qlt_bool (frequency_edge n (Z.of_nat 2)) (inject_Z (Z.of_nat n)) = true).
  { apply Qlt_bool_iff. unfold frequency_edge. rewrite N.
    change (inject_Z (Z.of_nat 2)) with 2%Q.
    unfold Qdiv. change (/ 3)%Q with (1 # 3)%Q. lra. }
  assert (F3 : Qlt_bool (frequency_edge n (Z.of_nat 3)) (inject_Z (Z.of_nat n)) = false).
  { apply Qlt_bool_false. change (Z.of_nat 3) with 3%Z.
    rewrite (@frequency_edge_last n ltac:(lia)). apply Qle_refl. }
  rewrite F0, F1, F2, F3. reflexivity.
Qed.

(** X7.  When all customers have the same number of rows (each bought
    once, say, or there is one customer only) and the table has two rows
    or more, ranking by row order alone decides the label: the first row
    is Low and the last row is High although their customers bought
    equally often, and when n - 1 is not a multiple of 3 the row at
    position i gets the label of the bin of rank i + 1.  (When n - 1 is a
    multiple of 3 the inner edges are whole numbers and the rounding of
    the floating-point edges, which is not modelled, decides the label of
    the ranks that sit on them.) *)
Theorem purchase_frequency_equal_counts :
  forall (h : heap) (r : ref) (d : DataFrame),
    nth_error h r = Some d ->
    accepted segmentation_required d ->
    let n := List.length (df_rows d) in
    (2 <= n)%nat ->
    (forall x y, In x (records d) -> In y (records d) -> purchases d x = purchases d y) ->
    exists (h' : heap) (out : DataFrame) (pf : list cell),
      segment_customer_base (Some r) h = (Ok (List.length h), h')
      /\ nth_error h' (List.length h) = Some out
      /\ getitem out "Purchase_Frequency" = Some pf
      /\ ((n mod 3 <> 1)%nat ->
          forall i, (i < n)%nat ->
            nth_error pf i
            = Some (CStr (nth (frequency_bin n (Z.of_nat (S i)) - 1)
                              frequency_labels EmptyString)))
      /\ nth_error pf 0 = Some (CStr "Low")
      /\ nth_error pf (n - 1) = Some (CStr "High").
Proof.
  intros h r d Hr Hacc n Hn Heq.
  destruct (segment_customer_base_run h r Hr Hacc) as [pc [_ Hrun]].
  destruct (purchase_frequency_cases d) as [_ C2].
  assert (L : List.length (map (purchases d) (records d)) = n).
  { unfold n, records. now rewrite !length_map. }
  rewrite L in C2. specialize (C2 Hn).
  eexists. eexists. exists (purchase_frequency_column d).
  split; [exact Hrun|]. split; [apply nth_error_alloc_new|].
  split; [now rewrite !getitem_setitem|].
  assert (Hc : exists c, forall x, In x (map (purchases d) (records d)) -> x = c).
  { destruct (records d) as [|r0 t] eqn:E; [simpl in L; lia|].
    exists (purchases d r0). intros x Hx. apply in_map_iff in Hx.
    destruct Hx as [y [<- Hy]]. apply Heq; [exact Hy | now left]. }
  destruct Hc as [c Hc].
  assert (P : forall i, (i < n)%nat ->
              nth_error (purchase_frequency_column d) i
              = Some (CStr (nth (frequency_bin n (Z.of_nat (S i)) - 1)
                                frequency_labels EmptyString))).
  { intros i Hi. rewrite C2, nth_error_map.
    rewrite (@rank_first_constant _ c i Hc) by (rewrite L; exact Hi). reflexivity. }
  split; [intros _; exact P|]. split.
  - rewrite (P 0%nat) by lia. reflexivity.
  - rewrite (P (n - 1)%nat) by lia.
    replace (S (n - 1)) with n by lia. now rewrite (frequency_bin_last Hn).
Qed.

Lemma purchase_frequency_equal_counts_witness :
  accepted segmentation_required sedan_customer
  /\ exists (h' : heap) (out : DataFrame) (pf : list cell),
      segment_customer_base (Some 0%nat) [sedan_customer] = (Ok 1%nat, h')
      /\ nth_error h' 1 = Some out
      /\ getitem out "Purchase_Frequency" = Some pf
      /\ nth_error pf 0 = Some (CStr "Low")
      /\ nth_error pf 2 = Some (CStr "High").
Proof.
  assert (A : accepted segmentation_required sedan_customer) by (split; reflexivity).
  split; [exact A|].
  destruct (@purchase_frequency_equal_counts [sedan_customer] 0%nat sedan_customer eq_refl A)
    as [h' [out [pf [Hrun [Hout [Hget [_ [H0 H2]]]]]]]].
  - simpl. lia.
  - intros x y Hx Hy. simpl in Hx, Hy.
    destruct Hx as [<- | [<- | [<- | []]]]; destruct Hy as [<- | [<- | [<- | []]]];
      reflexivity.
  - exists h', out, pf. repeat split; assumption.
Defined.



(** X9.  YoY_Growth at the edges, for the two latest years y1 and y2 of
    the table.  A segment without any row in y2, or without any row in y1,
    gets NaN (a segment that is new or has vanished shows no growth
    figure).  A segment whose total in y2 is 0 gets +infinity when its
    total in y1 is positive and NaN when that is 0 too; nothing is
    raised. *)
Theorem yoy_growth_edges :
  forall (d : DataFrame) (y1 y2 : Z),
    accepted market_required d ->
    latest_two d y1 y2 ->
    exists (m : Metrics) (growth : list fnum),
      calculate_market_metrics (Some d) = Ok m
      /\ YoY_Growth m = Some growth
      /\ forall s, In s (metrics_index m) ->
           (volume_in d s y2 = None -> column_at (metrics_index m) growth s = Some NaN)
           /\ (volume_in d s y1 = None -> column_at (metrics_index m) growth s = Some NaN)
           /\ (forall a, volume_in d s y1 = Some a -> volume_in d s y2 = Some 0%Z ->
                 ((0 < a)%Z -> column_at (metrics_index m) growth s = Some PInf)
                 /\ (a = 0%Z -> column_at (metrics_index m) growth s = Some NaN)).
Proof.
  intros d y1 y2 Hacc L.
  destruct (calculate_market_metrics_ok Hacc) as [m [Hm [Hi [_ [_ Hg]]]]].
  exists m. eexists. split; [exact Hm|]. split; [exact Hg|].
  destruct (latest_two_rev L) as [t Ht]. rewrite Ht, Hi.
  intros s Hs. unfold column_at. rewrite (lookup_combine_map String.eqb_eq).
  apply (mem_In String.eqb_eq) in Hs. rewrite Hs.
  split; [|split].
  - intro H. rewrite yoy_undefined by (right; exact H). reflexivity.
  - intro H. rewrite yoy_undefined by (left; exact H). reflexivity.
  - intros a Ha Hb. rewrite Ha, Hb.
    pose proof (yoy_defined (complete d) a 0) as Y. cbv zeta in Y.
    change (0 =? 0)%Z with true in Y. cbv iota in Y.
    assert (E : (if complete d then int64 (a - 0) else a - 0)%Z = a).
    { rewrite Z.sub_0_r. destruct (complete d); [|reflexivity].
      apply int64_small. exact (volume_in_range _ _ _ Ha). }
    rewrite E in Y. split.
    + intro Hpos. apply Z.ltb_lt in Hpos. rewrite Hpos in Y.
      destruct (yoy (complete d) (Some a) (Some 0%Z)); try contradiction. reflexivity.
    + intro Hz. subst a. change (0 <? 0)%Z with false in Y. cbv iota in Y.
      destruct (yoy (complete d) (Some 0%Z) (Some 0%Z)); try contradiction. reflexivity.
Qed.

Lemma yoy_growth_edges_witness :
  accepted market_required new_segment_table
  /\ latest_two new_segment_table 2021 2020
  /\ exists (m : Metrics) (growth : list fnum),
      calculate_market_metrics (Some new_segment_table) = Ok m
      /\ YoY_Growth m = Some growth
      /\ column_at (metrics_index m) growth "B" = Some NaN.
Proof.
  assert (A : accepted market_required new_segment_table) by (split; reflexivity).
  assert (L : latest_two new_segment_table 2021 2020).
  { unfold latest_two. split; [simpl; auto|]. split; [simpl; auto|]. split; [lia|].
    intros r Hr. simpl in Hr.
    destruct Hr as [<- | [<- | [<- | []]]]; simpl; split; lia. }
  split; [exact A|]. split; [exact L|].
  destruct (yoy_growth_edges A L) as [m [growth [Hm [Hg H]]]].
  exists m, growth. split; [exact Hm|]. split; [exact Hg|].
  assert (I : In "B" (metrics_index m)) by (inversion Hm; simpl; auto).
  apply (proj1 (H "B" I)). reflexivity.
Defined.

(** ** The three best models of a region *)

(** X23.  [sort_values] is called with its default kind, of which no
    more is used here than that it returns the rows in an order that is
    descending by volume.  For every such sort, on a non-empty table with
    the required columns: top_models has min(3, number of models of the
    region) rows for each region, hence at most 3; it is descending by
    Sales_Volume as a whole, hence within each region; each of its rows
    is the summed Sales_Volume of one (Region, Model) of the input, each
    such pair being summed once; and a model that is left out sold no
    more than any kept model of its region. *)
Theorem top_models_spec :
  forall (sort_values : list TopRow -> list TopRow) (d : DataFrame),
    sorts_descending sort_values ->
    accepted regional_required d ->
    exists (res : RegionalResults) (top : list TopRow),
      analyze_regional_performance sort_values (Some d) = Ok res
      /\ top_models res = Some top
      /\ (forall region,
             List.length (in_region region top)
             = Nat.min 3 (List.length (in_region region (grouped_models d))))
      /\ StronglySorted (fun a b => (tm_volume b <= tm_volume a)%Z) top
      /\ (forall x, In x top -> In x (grouped_models d))
      /\ (forall x, In x (grouped_models d) ->
                    tm_volume x = model_volume d (tm_region x) (tm_model x)
                    /\ exists r, In r (records d)
                                 /\ Region r = tm_region x /\ Model r = tm_model x)
      /\ NoDup (map (fun x => (tm_region x, tm_model x)) (grouped_models d))
      /\ (forall r, In r (records d) ->
                    exists x, In x (grouped_models d)
                              /\ tm_region x = Region r /\ tm_model x = Model r)
      /\ (forall x y,
             In x top -> In y (grouped_models d) -> ~ In y top ->
             tm_region y = tm_region x -> (tm_volume y <= tm_volume x)%Z).
Proof.
  intros sv d Hsort Hacc. eexists. eexists.
  split; [apply (analyze_regional_performance_ok sv Hacc)|].
  split; [reflexivity|].
  unfold regional_top_models. fold (grouped_models d).
  destruct (Hsort (grouped_models d)) as [Hperm Hdesc].
  split.
  { intro region. rewrite groupby_head_count. simpl count_occ.
    rewrite <- (in_region_perm region Hperm). lia. }
  split; [now apply groupby_head_sorted|].
  split.
  { intros x Hx. apply groupby_head_incl in Hx.
    eapply Permutation_in; [symmetry; exact Hperm | exact Hx]. }
  split; [apply grouped_models_In|].
  split.
  { rewrite grouped_models_keys.
    apply (group_keys_NoDup (pair_eqb_eq String.eqb_eq String.eqb_eq)). }
  split.
  { intros r Hr.
    assert (Hk : In (Region r, Model r)
                    (map (fun x => (tm_region x, tm_model x)) (grouped_models d))).
    { rewrite grouped_models_keys.
      apply (group_keys_In (pair_eqb_eq String.eqb_eq String.eqb_eq)).
      apply (in_map (fun r => (Region r, Model r))). exact Hr. }
    apply in_map_iff in Hk. destruct Hk as [x [E Hx]].
    exists x. inversion E. auto. }
  intros x y Hx Hy Hny Hreg.
  apply (@groupby_head_top 3 _ Hdesc [] x y); auto.
  eapply Permutation_in; [exact Hperm | exact Hy].
Qed.

Lemma top_models_spec_witness :
  sorts_descending sort_stable
  /\ accepted regional_required sample
  /\ exists (res : RegionalResults) (top : list TopRow),
      analyze_regional_performance sort_stable (Some sample) = Ok res
      /\ top_models res = Some top
      /\ List.length (in_region "EU" top) = 2%nat
      /\ List.length (in_region "US" top) = 1%nat.
Proof.
  assert (A : accepted regional_required sample) by (split; reflexivity).
  split; [exact sort_stable_descending|]. split; [exact A|].
  destruct (top_models_spec sort_stable_descending A) as [res [top [Hres [Htop [Hn _]]]]].
  exists res, top. split; [exact Hres|]. split; [exact Htop|]. split.
  - exact (Hn "EU").
  - exact (Hn "US").
Defined.

(** *** Ties under a sort that keeps them in place *)

Lemma before_cons : forall x y a l,
    before x y (a :: l) <-> (a = x /\ In y l) \/ before x y l.
Proof.
  intros x y a l. unfold before. split.
  - intros [[|b l1] [l2 [l3 E]]]; simpl in E; inversion E; subst.
    + left. split; [reflexivity|]. apply in_or_app. right. now left.
    + right. eauto.
  - intros [[-> Hy] | [l1 [l2 [l3 ->]]]].
    + apply in_split in Hy. destruct Hy as [l2 [l3 ->]]. exists [], l2, l3. reflexivity.
    + exists (a :: l1), l2, l3. reflexivity.
Qed.

(** [head] keeps the rows in the order of the frame. *)
Lemma groupby_head_before : forall n l seen x y,
    before x y (groupby_head n seen l) -> before x y l.
Proof.
  intros n l. induction l as [|a t IH]; intros seen x y H; simpl in H; [exact H|].
  apply before_cons. destruct (Nat.ltb _ n).
  - apply before_cons in H. destruct H as [[-> Hy] | H].
    + left. split; [reflexivity|]. eapply groupby_head_incl. exact Hy.
    + right. eapply IH. exact H.
  - right. eapply IH. exact H.
Qed.

(** A row that is left out comes after every kept row of its region. *)
Lemma groupby_head_first : forall n l seen x y,
    In x (groupby_head n seen l) -> In y l -> ~ In y (groupby_head n seen l) ->
    tm_region y = tm_region x -> before x y l.
Proof.
  intros n l. induction l as [|a t IH]; intros seen x y Hx Hy Hny Hreg;
    simpl in *; [contradiction|].
  apply before_cons.
  destruct (Nat.ltb _ n) eqn:E.
  - assert (Hyt : In y t /\ ~ In y (groupby_head n (tm_region a :: seen) t)).
    { split.
      - destruct Hy as [<- | Hy]; [|exact Hy]. exfalso. apply Hny. now left.
      - intro Hin. apply Hny. now right. }
    destruct Hyt as [Hyt Hny'].
    destruct Hx as [-> | Hx]; [left; auto|].
    right. exact (IH _ _ _ Hx Hyt Hny' Hreg).
  - destruct Hy as [<- | Hy]; [|right; exact (IH _ _ _ Hx Hy Hny Hreg)].
    exfalso. apply Nat.ltb_ge in E.
    pose proof (groupby_head_kept _ _ _ _ Hx) as K. simpl in K. rewrite <- Hreg in K.
    revert K.
    destruct (string_dec (tm_region a) (tm_region a)); [intro K; clear - K E; lia | congruence].
Qed.

(** [reset_index()] numbers the rows in their order. *)
Lemma reset_index_label : forall (s : list ((string * string) * Z)) a y,
    In y (map (fun ix => {| tm_label := fst ix;
                            tm_region := fst (fst (snd ix));
                            tm_model := snd (fst (snd ix));
                            tm_volume := snd (snd ix) |})
              (combine (seq a (List.length s)) s)) ->
    (a <= tm_label y)%nat.
Proof.
  intros s a y H. apply in_map_iff in H. destruct H as [[i v] [<- Hi]].
  apply in_combine_l, in_seq in Hi. simpl. lia.
Qed.

Lemma reset_index_before_from : forall (s : list ((string * string) * Z)) a x y,
    before x y (map (fun ix => {| tm_label := fst ix;
                                  tm_region := fst (fst (snd ix));
                                  tm_model := snd (fst (snd ix));
                                  tm_volume := snd (snd ix) |})
                    (combine (seq a (List.length s)) s)) ->
    (tm_label x < tm_label y)%nat.
Proof.
  induction s as [|v t IH]; intros a x y H.
  - destruct H as [[|b l1] [l2 [l3 E]]]; discriminate.
  - cbn [List.length seq combine map] in H. apply before_cons in H.
    destruct H as [[<- Hy] | H].
    + apply reset_index_label in Hy. simpl. lia.
    + exact (IH _ _ _ H).
Qed.

Lemma grouped_models_before : forall d x y,
    before x y (grouped_models d) -> (tm_label x < tm_label y)%nat.
Proof.
  intros d x y H. unfold grouped_models, reset_index in H.
  exact (reset_index_before_from _ _ H).
Qed.

(** Insertion puts a row before the rows that sold no more. *)
Lemma insert_before : forall a s x y,
    before x y (insert volume_geb a s) ->
    (x = a /\ In y s) \/ (y = a /\ In x s /\ volume_geb a x = false) \/ before x y s.
Proof.
  intros a s. induction s as [|b s' IH]; intros x y H; simpl in H.
  - apply before_cons in H. destruct H as [[_ []] | [[|c l1] [l2 [l3 E]]]]; discriminate.
  - destruct (volume_geb a b) eqn:G.
    + apply before_cons in H. destruct H as [[-> Hy] | H]; auto.
    + apply before_cons in H. destruct H as [[-> Hy] | H].
      * assert (P : In y (a :: s')).
        { eapply Permutation_in; [symmetry; apply insert_perm | exact Hy]. }
        destruct P as [<- | P].
        -- right. left. split; [reflexivity|]. split; [now left | exact G].
        -- right. right. apply before_cons. left. auto.
      * destruct (IH _ _ H) as [[-> Hy] | [[-> [Hx G']] | B]].
        -- left. split; [reflexivity | now right].
        -- right. left. split; [reflexivity|]. split; [now right | exact G'].
        -- right. right. apply before_cons. now right.
Qed.

Lemma sort_stable_keeps_ties : keeps_ties sort_stable.
Proof.
  unfold keeps_ties, sort_stable. intro l.
  induction l as [|a t IH]; intros x y H Hv; simpl in H.
  - destruct H as [[|b l1] [l2 [l3 E]]]; discriminate.
  - apply before_cons.
    destruct (insert_before _ _ H) as [[-> Hy] | [[-> [Hx G]] | B]].
    + left. split; [reflexivity|].
      eapply Permutation_in; [symmetry; apply (sort_perm volume_geb) | exact Hy].
    + exfalso. unfold volume_geb in G. apply Z.leb_gt in G. lia.
    + right. now apply IH.
Qed.

(** X24.  What the order of tied models rests on.  When [sort_values],
    besides sorting in descending volume order, keeps rows of equal volume
    in the order they had (a stable sort), models of one region with
    equal volume appear in top_models in the order of the grouped frame,
    which is ascending by model name, and a model that is left out although
    it sold as much as a kept model of its region comes after that model
    in the grouped frame. *)
Theorem top_models_stable_ties :
  forall (sort_values : list TopRow -> list TopRow) (d : DataFrame),
    sorts_descending sort_values ->
    keeps_ties sort_values ->
    accepted regional_required d ->
    exists (res : RegionalResults) (top : list TopRow),
      analyze_regional_performance sort_values (Some d) = Ok res
      /\ top_models res = Some top
      /\ ties_in_frame_order top
      /\ (forall x y,
             In x top -> In y (grouped_models d) -> ~ In y top ->
             tm_region y = tm_region x -> tm_volume y = tm_volume x ->
             (tm_label x < tm_label y)%nat).
Proof.
  intros sv d Hsort Hties Hacc. eexists. eexists.
  split; [apply (analyze_regional_performance_ok sv Hacc)|].
  split; [reflexivity|].
  unfold regional_top_models. fold (grouped_models d).
  destruct (Hsort (grouped_models d)) as [Hperm _].
  split.
  - intros x y B _ Hv. apply (@grouped_models_before d).
    apply Hties; [|exact Hv]. eapply groupby_head_before. exact B.
  - intros x y Hx Hy Hny Hreg Hv. apply (@grouped_models_before d).
    apply Hties; [|now symmetry].
    apply (@groupby_head_first 3 _ [] x y); auto.
    eapply Permutation_in; [exact Hperm | exact Hy].
Qed.

Lemma top_models_stable_ties_witness :
  sorts_descending sort_stable
  /\ keeps_ties sort_stable
  /\ accepted regional_required tie_table
  /\ exists (res : RegionalResults) (top : list TopRow),
      analyze_regional_performance sort_stable (Some tie_table) = Ok res
      /\ top_models res = Some top
      /\ map tm_model top = ["M01"; "M02"; "M03"]
      /\ ties_in_frame_order top.
Proof.
  assert (A : accepted regional_required tie_table) by (split; reflexivity).
  split; [exact sort_stable_descending|]. split; [exact sort_stable_keeps_ties|].
  split; [exact A|].
  destruct (top_models_stable_ties sort_stable_descending sort_stable_keeps_ties A)
    as [res [top [Hres [Htop [Hties _]]]]].
  exists res, top. split; [exact Hres|]. split; [exact Htop|].
  split; [|exact Hties].
  assert (C : exists sa ss,
             analyze_regional_performance sort_stable (Some tie_table)
             = Ok {| sales := sa;
                     top_models :=
                       Some [ {| tm_label := 0; tm_region := "EU"; tm_model := "M01";
                                 tm_volume := 50 |};
                              {| tm_label := 1; tm_region := "EU"; tm_model := "M02";
                                 tm_volume := 50 |};
                              {| tm_label := 2; tm_region := "EU"; tm_model := "M03";
                                 tm_volume := 50 |} ];
                     segment_share := ss |}).
  { eexists. eexists. vm_compute. reflexivity. }
  destruct C as [sa [ss C]]. rewrite Hres in C. inversion C. subst res.
  cbn [top_models] in Htop. inversion Htop. reflexivity.
Defined.

(** ** Facts about [groupby(...).head(n)] on small groups *)

Lemma groupby_head_all : forall n l seen,
    (forall region,
        (count_occ string_dec seen region + List.length (in_region region l) <= n)%nat) ->
    groupby_head n seen l = l.
Proof.
  intros n l. induction l as [|x t IH]; intros seen H; [reflexivity|].
  cbn [groupby_head].
  assert (Hx : (count_occ string_dec seen (tm_region x) < n)%nat).
  { specialize (H (tm_region x)). rewrite in_region_cons in H.
    rewrite String.eqb_refl in H. simpl in H. lia. }
  apply Nat.ltb_lt in Hx. rewrite Hx. f_equal. apply IH.
  intro region. specialize (H region). rewrite in_region_cons in H.
  destruct (string_dec (tm_region x) region) as [E | E].
  - rewrite count_occ_cons_eq by exact E. subst region.
    rewrite String.eqb_refl in H. simpl in H. lia.
  - rewrite count_occ_cons_neq by exact E.
    apply String.eqb_neq in E. rewrite E in H. exact H.
Qed.

(** X10.  When no region has more than three models, head(3) drops
    nothing: top_models is the whole frame of (Region, Model) sums as
    sort_values returned it, so every region and model of the input has
    its row there, with the summed Sales_Volume. *)
Theorem top_models_small_regions :
  forall (sort_values : list TopRow -> list TopRow) (d : DataFrame),
    sorts_descending sort_values ->
    accepted regional_required d ->
    (forall region, (List.length (in_region region (grouped_models d)) <= 3)%nat) ->
    exists (res : RegionalResults) (top : list TopRow),
      analyze_regional_performance sort_values (Some d) = Ok res
      /\ top_models res = Some top
      /\ top = sort_values (grouped_models d)
      /\ Permutation (grouped_models d) top
      /\ forall r, In r (records d) ->
           exists x, In x top /\ tm_region x = Region r /\ tm_model x = Model r
                     /\ tm_volume x = model_volume d (Region r) (Model r).
Proof.
  intros sv d Hsort Hacc Hsmall. eexists. eexists.
  split; [apply (analyze_regional_performance_ok sv Hacc)|].
  split; [reflexivity|].
  unfold regional_top_models. fold (grouped_models d).
  destruct (Hsort (grouped_models d)) as [Hperm _].
  assert (E : groupby_head 3 [] (sv (grouped_models d)) = sv (grouped_models d)).
  { apply groupby_head_all. intro region. simpl.
    rewrite <- (in_region_perm region Hperm). apply Hsmall. }
  rewrite E. split; [reflexivity|]. split; [exact Hperm|].
  intros r Hr.
  assert (Hk : In (Region r, Model r)
                  (map (fun x => (tm_region x, tm_model x)) (grouped_models d))).
  { rewrite grouped_models_keys.
    apply (group_keys_In (pair_eqb_eq String.eqb_eq String.eqb_eq)).
    apply (in_map (fun r => (Region r, Model r))). exact Hr. }
  apply in_map_iff in Hk. destruct Hk as [x [Ex Hx]].
  exists x. injection Ex as E1 E2.
  split; [eapply Permutation_in; [exact Hperm | exact Hx]|].
  split; [exact E1|]. split; [exact E2|].
  rewrite <- E1, <- E2. apply (grouped_models_In d x Hx).
Qed.

Lemma top_models_small_regions_witness :
  sorts_descending sort_stable
  /\ accepted regional_required sample
  /\ exists (res : RegionalResults) (top : list TopRow),
      analyze_regional_performance sort_stable (Some sample) = Ok res
      /\ top_models res = Some top
      /\ List.length top = 3%nat.
Proof.
  assert (A : accepted regional_required sample) by (split; reflexivity).
  split; [exact sort_stable_descending|]. split; [exact A|].
  destruct (top_models_small_regions sort_stable_descending A)
    as [res [top [Hres [Htop [Heq _]]]]].
  - intro region.
    assert (G : grouped_models sample
                = [ {| tm_label := 0; tm_region := "EU"; tm_model := "X3"; tm_volume := 60 |};
                    {| tm_label := 1; tm_region := "EU"; tm_model := "X5"; tm_volume := 100 |};
                    {| tm_label := 2; tm_region := "US"; tm_model := "X1"; tm_volume := 240 |} ])
      by (vm_compute; reflexivity).
    rewrite G. apply filter_length_le.
  - exists res, top. split; [exact Hres|]. split; [exact Htop|]. rewrite Heq. reflexivity.
Defined.

(** ** The order of strings *)

Lemma string_leb_cases : forall a b,
    String.leb a b = true <-> string_lt a b \/ a = b.
Proof.
  intros a b. unfold String.leb, string_lt.
  destruct (String.compare a b) eqn:E.
  - apply String.compare_eq_iff in E. intuition.
  - intuition.
  - split; [discriminate|]. intros [H | H]; [discriminate|].
    subst b. assert (String.compare a a = Eq) by (now apply OrderedTypeEx.String_as_OT.cmp_eq).
    congruence.
Qed.

Lemma string_lt_trans : forall a b c, string_lt a b -> string_lt b c -> string_lt a c.
Proof.
  intros a b c H1 H2. unfold string_lt in *.
  apply OrderedTypeEx.String_as_OT.cmp_lt.
  apply OrderedTypeEx.String_as_OT.cmp_lt in H1, H2.
  eapply OrderedTypeEx.String_as_OT.lt_trans; eassumption.
Qed.

Lemma string_leb_trans : forall a b c,
    String.leb a b = true -> String.leb b c = true -> String.leb a c = true.
Proof.
  intros a b c H1 H2. apply string_leb_cases in H1, H2. apply string_leb_cases.
  destruct H1 as [H1 | ->], H2 as [H2 | ->]; auto.
  left. eapply string_lt_trans; eassumption.
Qed.

(** The keys of a group-by on a string column are strictly ascending. *)
Lemma string_keys_ascending : forall l,
    StronglySorted string_lt (group_keys String.eqb String.leb l).
Proof.
  intro l.
  pose proof (group_keys_NoDup String.eqb_eq String.leb l) as ND.
  unfold group_keys in *.
  pose proof (@sort_sorted _ String.leb String.leb_total string_leb_trans (unique String.eqb l)) as S.
  induction S as [|x t _ IH Hx]; constructor.
  - apply IH. now inversion ND.
  - inversion ND as [|? ? Hnin _]; subst. rewrite Forall_forall in *.
    intros y Hy. destruct (proj1 (string_leb_cases x y) (Hx y Hy)) as [H | H]; [exact H|].
    subst y. contradiction.
Qed.

(** X11.  The metrics table of a non-empty table with the required
    columns has at least one row, its rows are the segments in strictly
    ascending order of their names, all four columns are present, and
    every column has one entry per row. *)
Theorem market_metrics_shape :
  forall d : DataFrame,
    accepted market_required d ->
    exists (m : Metrics) (avg growth : list fnum),
      calculate_market_metrics (Some d) = Ok m
      /\ Avg_Price m = Some avg
      /\ YoY_Growth m = Some growth
      /\ metrics_index m <> []
      /\ StronglySorted string_lt (metrics_index m)
      /\ List.length (Market_Share m) = List.length (metrics_index m)
      /\ List.length (Market_Share_Pct m) = List.length (metrics_index m)
      /\ List.length avg = List.length (metrics_index m)
      /\ List.length growth = List.length (metrics_index m).
Proof.
  intros d Hacc.
  destruct (calculate_market_metrics_ok Hacc) as [m [Hm [Hi [Hs [Hp Hg]]]]].
  destruct (market_avg_price_column Hacc) as [m' [Hm' [_ Ha]]].
  assert (m' = m) by congruence. subst m'.
  exists m. eexists. eexists. split; [exact Hm|]. split; [exact Ha|]. split; [exact Hg|].
  rewrite Hi. split.
  { apply (group_keys_nonempty String.eqb_eq). unfold market_rows, records.
    pose proof (accepted_rows Hacc) as N.
    destruct (df_rows d); [congruence | discriminate]. }
  split; [apply string_keys_ascending|].
  split; [now rewrite Hs, length_map|].
  split; [rewrite Hp; destruct (_ =? _)%Z; now rewrite length_map|].
  split; [now rewrite length_map|].
  destruct (rev (years_of d)) as [|a [|b t]]; now rewrite length_map.
Qed.

Lemma market_metrics_shape_witness :
  accepted market_required sample
  /\ exists (m : Metrics) (avg growth : list fnum),
      calculate_market_metrics (Some sample) = Ok m
      /\ Avg_Price m = Some avg
      /\ YoY_Growth m = Some growth
      /\ metrics_index m = ["A"; "B"]
      /\ List.length avg = 2%nat.
Proof.
  assert (A : accepted market_required sample) by (split; reflexivity).
  split; [exact A|].
  destruct (market_metrics_shape A) as [m [avg [growth [Hm [Ha [Hg [_ [_ [_ [_ [La _]]]]]]]]]]].
  exists m, avg, growth. split; [exact Hm|]. split; [exact Ha|]. split; [exact Hg|].
  assert (I : metrics_index m = ["A"; "B"]) by (inversion Hm; reflexivity).
  split; [exact I|]. now rewrite La, I.
Defined.

(** ** Facts about the order of the rows *)

Lemma filter_perm : forall (A : Type) (p : A -> bool) l l',
    Permutation l l' -> Permutation (filter p l) (filter p l').
Proof.
  intros A p l l' H. induction H as [|x l l' _ IH|x y l|l l' l'' _ IH1 _ IH2]; simpl.
  - constructor.
  - destruct (p x); [now constructor | exact IH].
  - destruct (p x), (p y); try reflexivity. apply perm_swap.
  - now rewrite IH1.
Qed.

Lemma Zsum_perm : forall l l', Permutation l l' -> Zsum l = Zsum l'.
Proof.
  intros l l' H. unfold Zsum. f_equal. now apply exact_sum_perm.
Qed.

Lemma Qsum_perm : forall l l', Permutation l l' -> (Qsum l == Qsum l')%Q.
Proof.
  intros l l' H. induction H as [|x l l' _ IH|x y l|l l' l'' _ IH1 _ IH2]; simpl.
  - reflexivity.
  - now rewrite IH.
  - ring.
  - now rewrite IH1.
Qed.

Lemma string_lt_irrefl : forall a, ~ string_lt a a.
Proof.
  intros a H. unfold string_lt in H.
  assert (String.compare a a = Eq) by (now apply OrderedTypeEx.String_as_OT.cmp_eq).
  congruence.
Qed.

(** Two strictly ascending lists of strings with the same entries are
    the same list. *)
Lemma string_ascending_unique : forall l l',
    StronglySorted string_lt l -> StronglySorted string_lt l' ->
    (forall x, In x l <-> In x l') -> l = l'.
Proof.
  induction l as [|a t IH]; intros l' H H' Hin.
  - destruct l' as [|b t']; [reflexivity|].
    exfalso. apply (Hin b). now left.
  - destruct l' as [|b t']; [exfalso; apply (Hin a); now left|].
    inversion H as [|? ? Ht Ha]; subst. inversion H' as [|? ? Ht' Hb]; subst.
    rewrite Forall_forall in Ha, Hb.
    assert (a = b).
    { destruct (proj1 (Hin a) (or_introl eq_refl)) as [E | E]; [now symmetry|].
      destruct (proj2 (Hin b) (or_introl eq_refl)) as [E' | E']; [exact E'|].
      specialize (Ha b E'). specialize (Hb a E).
      exfalso. exact (string_lt_irrefl (string_lt_trans Ha Hb)). }
    subst b. f_equal. apply IH; try assumption.
    intro x. split; intro Hx.
    + destruct (proj1 (Hin x) (or_intror Hx)) as [E | E]; [|exact E].
      subst x. exfalso. exact (string_lt_irrefl (Ha a Hx)).
    + destruct (proj2 (Hin x) (or_intror Hx)) as [E | E]; [|exact E].
      subst x. exfalso. exact (string_lt_irrefl (Hb a Hx)).
Qed.

Lemma string_keys_perm : forall l l',
    Permutation l l' ->
    group_keys String.eqb String.leb l = group_keys String.eqb String.leb l'.
Proof.
  intros l l' H. apply string_ascending_unique; try apply string_keys_ascending.
  intro x. rewrite !(group_keys_In String.eqb_eq). split; intro Hx.
  - eapply Permutation_in; [exact H | exact Hx].
  - eapply Permutation_in; [symmetry; exact H | exact Hx].
Qed.

Lemma year_keys_perm : forall l l',
    Permutation l l' -> group_keys Z.eqb Z.leb l = group_keys Z.eqb Z.leb l'.
Proof.
  intros l l' H. apply ascending_unique; try apply group_keys_ascending.
  intro x. rewrite !(group_keys_In Z.eqb_eq). split; intro Hx.
  - eapply Permutation_in; [exact H | exact Hx].
  - eapply Permutation_in; [symmetry; exact H | exact Hx].
Qed.

Lemma records_perm : forall d d',
    Permutation (df_rows d) (df_rows d') -> Permutation (records d) (records d').
Proof. intros d d' H. unfold records. now apply Permutation_map. Qed.

Lemma segment_volume_perm : forall d d' s,
    Permutation (df_rows d) (df_rows d') -> segment_volume d' s = segment_volume d s.
Proof.
  intros d d' s H. unfold segment_volume, segment_rows.
  apply Zsum_perm, Permutation_map, filter_perm. symmetry. now apply records_perm.
Qed.

Lemma volume_in_perm : forall d d' s y,
    Permutation (df_rows d) (df_rows d') -> volume_in d' s y = volume_in d s y.
Proof.
  intros d d' s y H. unfold volume_in.
  set (p := fun r : Row => String.eqb (Market_Segment r) s && Z.eqb (Year r) y).
  assert (P : Permutation (map Sales_Volume (filter p (records d')))
                          (map Sales_Volume (filter p (records d)))).
  { apply Permutation_map, filter_perm. symmetry. now apply records_perm. }
  destruct (map Sales_Volume (filter p (records d'))) as [|a t] eqn:E1,
           (map Sales_Volume (filter p (records d))) as [|b u] eqn:E2.
  - reflexivity.
  - apply Permutation_nil in P. discriminate.
  - symmetry in P. apply Permutation_nil in P. discriminate.
  - f_equal. now apply Zsum_perm.
Qed.

Lemma segments_of_perm : forall d d',
    Permutation (df_rows d) (df_rows d') -> segments_of d' = segments_of d.
Proof.
  intros d d' H. unfold segments_of, market_rows. apply string_keys_perm.
  rewrite !map_map. apply Permutation_map. symmetry. now apply records_perm.
Qed.

Lemma years_of_perm : forall d d',
    Permutation (df_rows d) (df_rows d') -> years_of d' = years_of d.
Proof.
  intros d d' H. unfold years_of. apply year_keys_perm, Permutation_map.
  symmetry. now apply records_perm.
Qed.

Lemma complete_perm : forall d d',
    Permutation (df_rows d) (df_rows d') -> complete d' = complete d.
Proof.
  intros d d' H. unfold complete.
  rewrite (@years_of_perm d d' H), (@segments_of_perm d d' H).
  apply forallb_ext_in. intros y _. apply forallb_ext_in. intros s _.
  now rewrite (@volume_in_perm d d' s y H).
Qed.

Lemma accepted_perm : forall required d d',
    df_columns d' = df_columns d ->
    Permutation (df_rows d) (df_rows d') ->
    accepted required d -> accepted required d'.
Proof.
  intros required d d' Hc Hp [E M]. split.
  - unfold empty in *. rewrite Hc.
    destruct (df_rows d) as [|r t]; [discriminate|].
    destruct (df_rows d') as [|r' t']; [symmetry in Hp; apply Permutation_nil in Hp; discriminate|].
    exact E.
  - unfold missing_columns in *. now rewrite Hc.
Qed.

(** X21.  The market metrics do not depend on the order of the rows: a
    table with the same columns and the same rows in another order gives
    the same segments in the same order and, segment by segment, the same
    Market_Share, Market_Share_Pct and YoY_Growth, and the same Avg_Price
    up to the way the mean is written as a fraction. *)
Theorem market_metrics_row_order :
  forall d d' : DataFrame,
    accepted market_required d ->
    df_columns d' = df_columns d ->
    Permutation (df_rows d) (df_rows d') ->
    exists (m m' : Metrics) (avg avg' : list fnum),
      calculate_market_metrics (Some d) = Ok m
      /\ calculate_market_metrics (Some d') = Ok m'
      /\ metrics_index m' = metrics_index m
      /\ Market_Share m' = Market_Share m
      /\ Market_Share_Pct m' = Market_Share_Pct m
      /\ YoY_Growth m' = YoY_Growth m
      /\ Avg_Price m = Some avg
      /\ Avg_Price m' = Some avg'
      /\ Forall2 feq avg' avg.
Proof.
  intros d d' Hacc Hc Hp.
  pose proof (@accepted_perm market_required d d' Hc Hp Hacc) as Hacc'.
  destruct (calculate_market_metrics_ok Hacc) as [m [Hm [Hi [Hs [Hpct Hg]]]]].
  destruct (calculate_market_metrics_ok Hacc') as [m' [Hm' [Hi' [Hs' [Hpct' Hg']]]]].
  destruct (market_avg_price_column Hacc) as [m0 [Hm0 [_ Ha]]].
  destruct (market_avg_price_column Hacc') as [m0' [Hm0' [_ Ha']]].
  assert (m0 = m) by congruence. assert (m0' = m') by congruence. subst m0 m0'.
  pose proof (@segments_of_perm d d' Hp) as Sg. pose proof (@years_of_perm d d' Hp) as Yr.
  assert (Es : Market_Share m' = Market_Share m).
  { rewrite Hs, Hs', Sg. apply map_ext. intro s. now apply segment_volume_perm. }
  exists m, m'. eexists. eexists.
  split; [exact Hm|]. split; [exact Hm'|].
  split; [now rewrite Hi, Hi'|]. split; [exact Es|].
  split.
  { rewrite Hpct, Hpct', Es, Sg. destruct (Zsum (Market_Share m) =? 0)%Z; [reflexivity|].
    apply map_ext. intro s. now rewrite (@segment_volume_perm d d' s Hp). }
  split.
  { rewrite Hg, Hg', Yr, Sg, (@complete_perm d d' Hp). f_equal.
    destruct (rev (years_of d)) as [|y1 [|y2 t]]; try reflexivity.
    apply map_ext. intro s. now rewrite !(fun y => @volume_in_perm d d' s y Hp). }
  split; [exact Ha|]. split; [exact Ha'|].
  rewrite Sg. apply Forall2_map_same. intros s Hs0.
  pose proof (segment_rows_nonempty d s Hs0) as Hne.
  assert (P : Permutation (segment_rows d' s) (segment_rows d s)).
  { unfold segment_rows. apply filter_perm. symmetry. now apply records_perm. }
  assert (Hne' : segment_rows d' s <> []).
  { intro N. rewrite N in P. apply Permutation_nil in P. contradiction. }
  rewrite (series_mean_Fin Price_USD Hne), (series_mean_Fin Price_USD Hne').
  cbn [feq]. rewrite (Permutation_length P).
  rewrite (Qsum_perm (Permutation_map Price_USD P)). reflexivity.
Qed.

Lemma market_metrics_row_order_witness :
  accepted market_required sample
  /\ exists m m' : Metrics,
      calculate_market_metrics (Some sample) = Ok m
      /\ calculate_market_metrics (Some sample_reordered) = Ok m'
      /\ Market_Share m' = Market_Share m
      /\ Market_Share_Pct m' = Market_Share_Pct m.
Proof.
  assert (A : accepted market_required sample) by (split; reflexivity).
  split; [exact A|].
  destruct (@market_metrics_row_order sample sample_reordered A eq_refl)
    as [m [m' [avg [avg' [Hm [Hm' [_ [Hs [Hp _]]]]]]]]].
  - apply Permutation_rev.
  - exists m, m'. auto.
Defined.

(** ** Facts about shares of non-negative volumes *)

(** X22.  When no Sales_Volume is negative and the volumes add up to less
    than 2^63, so that no sum wraps around, every Market_Share is between
    0 and the total and every Market_Share_Pct is a number between 0 and
    100 (it is 0 when the total is 0). *)
Theorem market_share_bounds :
  forall d : DataFrame,
    accepted market_required d ->
    no_wraparound d ->
    exists m : Metrics,
      calculate_market_metrics (Some d) = Ok m
      /\ forall s, In s (metrics_index m) ->
           exists (v : Z) (q : Q),
             at_segment m Market_Share s = Some v
             /\ at_segment m Market_Share_Pct s = Some (Fin q)
             /\ (0 <= v <= total_volume d)%Z
             /\ (0 <= q)%Q /\ (q <= 100)%Q.
Proof.
  intros d Hacc Hno.
  destruct (calculate_market_metrics_ok Hacc) as [m [Hm [Hi [Hs [Hp _]]]]].
  exists m. split; [exact Hm|]. intros s Hin.
  assert (Ht : Zsum (Market_Share m) = total_volume d)
    by (rewrite Hs; apply market_share_total).
  rewrite Ht in Hp.
  rewrite Hi in Hin. pose proof Hin as Hmem. apply (mem_In String.eqb_eq) in Hmem.
  pose proof Hno as [Hpos Hlt].
  assert (V0 : (0 <= segment_volume d s)%Z).
  { rewrite (segment_volume_exact s Hno). apply exact_sum_nonneg. intros v Hv.
    apply in_map_iff in Hv. destruct Hv as [r [<- Hr]]. apply filter_In in Hr.
    apply Hpos. tauto. }
  assert (V1 : (segment_volume d s <= total_volume d)%Z).
  { rewrite (segment_volume_exact s Hno), (total_volume_exact Hno).
    unfold segment_rows. now apply exact_sum_filter_le. }
  unfold at_segment, column_at. rewrite Hi, Hs, Hp.
  destruct (total_volume d =? 0)%Z eqn:Hz.
  - exists (segment_volume d s), 0%Q.
    rewrite !(lookup_combine_map String.eqb_eq), Hmem.
    split; [reflexivity|]. split; [reflexivity|]. split; [lia|]. split; lra.
  - apply Z.eqb_neq in Hz.
    exists (segment_volume d s),
           (inject_Z (segment_volume d s) / inject_Z (total_volume d) * 100)%Q.
    rewrite !(lookup_combine_map String.eqb_eq), Hmem.
    split; [reflexivity|]. split.
    { f_equal. unfold fdiv, of_Z. now rewrite (inject_Z_nonzero Hz). }
    split; [lia|].
    assert (T : (0 < inject_Z (total_volume d))%Q).
    { change 0%Q with (inject_Z 0). rewrite <- Zlt_Qlt. lia. }
    assert (A0 : (0 <= inject_Z (segment_volume d s))%Q).
    { change 0%Q with (inject_Z 0). now rewrite <- Zle_Qle. }
    assert (A1 : (inject_Z (segment_volume d s) <= inject_Z (total_volume d))%Q)
      by now rewrite <- Zle_Qle.
    assert (D0 : (0 <= inject_Z (segment_volume d s) / inject_Z (total_volume d))%Q).
    { apply Qle_shift_div_l; [exact T | lra]. }
    assert (D1 : (inject_Z (segment_volume d s) / inject_Z (total_volume d) <= 1)%Q).
    { apply Qle_shift_div_r; [exact T | lra]. }
    split; lra.
Qed.

Lemma market_share_bounds_witness :
  accepted market_required sample
  /\ no_wraparound sample
  /\ exists m : Metrics,
      calculate_market_metrics (Some sample) = Ok m
      /\ exists q : Q, at_segment m Market_Share_Pct "B" = Some (Fin q)
                       /\ (0 <= q)%Q /\ (q <= 100)%Q.
Proof.
  assert (A : accepted market_required sample) by (split; reflexivity).
  assert (N : no_wraparound sample).
  { split; [|reflexivity]. intros r Hr. simpl in Hr.
    destruct Hr as [<- | [<- | [<- | [<- | []]]]]; simpl; lia. }
  split; [exact A|]. split; [exact N|].
  destruct (@market_share_bounds sample A N) as [m [Hm H]].
  exists m. split; [exact Hm|].
  assert (I : In "B" (metrics_index m)) by (inversion Hm; simpl; auto).
  destruct (H "B" I) as [v [q [_ [Hq [_ [Q0 Q1]]]]]]. exists q. auto.
Defined.

(** ** Facts about the preflight *)

Lemma missing_required_spec : forall columns c,
    In c (missing_required columns) <-> In c REQUIRED_COLUMNS /\ ~ In c columns.
Proof.
  intros columns c. unfold missing_required. rewrite filter_In, negb_true_iff.
  split; intros [H1 H2]; split; try exact H1.
  - intro H. apply (mem_In String.eqb_eq) in H. congruence.
  - destruct (mem String.eqb c columns) eqn:E; [|reflexivity].
    apply (mem_In String.eqb_eq) in E. contradiction.
Qed.

Lemma missing_required_nil : forall columns,
    missing_required columns = [] <-> forall c, In c REQUIRED_COLUMNS -> In c columns.
Proof.
  intro columns. split.
  - intros E c Hc. destruct (mem String.eqb c columns) eqn:M.
    + now apply (mem_In String.eqb_eq).
    + assert (In c (missing_required columns)).
      { apply missing_required_spec. split; [exact Hc|]. intro H.
        apply (mem_In String.eqb_eq) in H. congruence. }
      rewrite E in H. contradiction.
  - intro H. destruct (missing_required columns) as [|m ms] eqn:E; [reflexivity|].
    assert (Hm : In m (missing_required columns)) by (rewrite E; now left).
    apply missing_required_spec in Hm. destruct Hm as [H1 H2]. exfalso. auto.
Qed.

(** X12.  The exit status of the preflight script is 0 or 1.  It is 0
    exactly when the raw file exists, can be read, and has every one of
    the ten required columns; whether the processed directory exists
    changes one printed line and never the status.  When columns are
    missing, the line "[WARN] Missing expected columns: [...]" is printed
    and lists exactly the required columns the file lacks. *)
Theorem preflight_exit_status :
  forall fs : Files,
    (exit_status fs = 0%Z \/ exit_status fs = 1%Z)
    /\ (exit_status fs = 0%Z
        <-> exists columns,
             raw fs = Header columns
             /\ forall c, In c REQUIRED_COLUMNS -> In c columns)
    /\ exit_status fs
       = exit_status {| raw := raw fs; processed_dir := negb (processed_dir fs) |}
    /\ (forall columns,
           raw fs = Header columns -> missing_required columns <> [] ->
           In ("[WARN] Missing expected columns: " ++ repr_list (missing_required columns))%string
              (printed fs)
           /\ forall c, In c (missing_required columns)
                        <-> In c REQUIRED_COLUMNS /\ ~ In c columns).
Proof.
  intros [rw pd]. unfold exit_status, printed, main. cbn [raw processed_dir].
  split; [|split; [|split]].
  - destruct rw as [|msg|columns]; cbn [fst snd]; auto.
    destruct (missing_required columns); cbn [fst snd]; auto.
  - destruct rw as [|msg|columns]; cbn [fst snd].
    + split; [discriminate | intros [c [E _]]; discriminate].
    + split; [discriminate | intros [c [E _]]; discriminate].
    + destruct (missing_required columns) as [|m ms] eqn:E; cbn [fst snd].
      * split; [|reflexivity]. intros _. exists columns. split; [reflexivity|].
        now apply missing_required_nil.
      * split; [discriminate|]. intros [c [Ec H]]. inversion Ec; subst c.
        apply missing_required_nil in H. congruence.
  - reflexivity.
  - intros columns E Hm. inversion E; subst rw. split; [|apply missing_required_spec].
    destruct (missing_required columns) as [|m ms] eqn:M; [congruence|].
    cbn [fst snd]. apply in_or_app. left. right. left. reflexivity.
Qed.

Lemma raised_Some : forall (A : Type) (r : result A) e, raised r = Some e -> r = Raise e.
Proof. intros A [a|e'] e H; simpl in H; congruence. Qed.

Lemma mem_same : forall (l l' : list string) c,
    (forall x, In x l <-> In x l') -> mem String.eqb c l = mem String.eqb c l'.
Proof.
  intros l l' c H.
  destruct (mem String.eqb c l) eqn:E, (mem String.eqb c l') eqn:E'; try reflexivity.
  - apply (mem_In String.eqb_eq), H, (mem_In String.eqb_eq) in E. congruence.
  - apply (mem_In String.eqb_eq), H, (mem_In String.eqb_eq) in E'. congruence.
Qed.

Lemma missing_columns_same : forall d required columns,
    (forall c, In c (df_columns d) <-> In c columns) ->
    missing_columns d required
    = filter (fun c => negb (mem String.eqb c columns)) required.
Proof.
  intros d required columns H. unfold missing_columns. apply filter_ext.
  intro c. now rewrite (@mem_same _ _ c H).
Qed.

Lemma validate_missing : forall name required d,
    empty d = false -> missing_columns d required <> [] ->
    validate name required (Some d)
    = Raise (DataAnalysisError
               ("Missing required columns: " ++ repr_list (missing_columns d required))).
Proof.
  intros name required d E M.
  pose proof (validate_cases name required (Some d)) as C. cbv beta iota in C.
  rewrite E in C. destruct (missing_columns d required); [congruence | exact C].
Qed.

(** X13.  The preflight does not ask for the columns the analysis
    needs.  A non-empty table whose columns are the ten the preflight
    requires passes the preflight (status 0) and is refused by each of the
    four analysis operations: Market_Segment is missing for the market and
    the regional metrics, Green_Vehicle for the time series, Customer_ID
    and Vehicle_Type for the segmentation, which leaves the store as it
    was. *)
Theorem preflight_columns_rejected :
  forall (sort_values : list TopRow -> list TopRow) (d : DataFrame)
         (h : heap) (r : ref) (pd : bool),
    empty d = false ->
    (forall c, In c (df_columns d) <-> In c REQUIRED_COLUMNS) ->
    nth_error h r = Some d ->
    exit_status {| raw := Header (df_columns d); processed_dir := pd |} = 0%Z
    /\ calculate_market_metrics (Some d)
       = Raise (DataAnalysisError "Missing required columns: ['Market_Segment']")
    /\ analyze_regional_performance sort_values (Some d)
       = Raise (DataAnalysisError "Missing required columns: ['Market_Segment']")
    /\ calculate_time_series_metrics (Some d)
       = Raise (DataAnalysisError "Missing required columns: ['Green_Vehicle']")
    /\ segment_customer_base (Some r) h
       = (Raise (DataAnalysisError
                   "Missing required columns: ['Customer_ID', 'Vehicle_Type']"), h).
Proof.
  intros sv d h r pd Hne Hcols Hr.
  assert (M : forall required,
             missing_columns d required
             = filter (fun c => negb (mem String.eqb c REQUIRED_COLUMNS)) required)
    by (intro; now apply missing_columns_same).
  split; [|split; [|split; [|split]]].
  - assert (E : missing_required (df_columns d) = []).
    { apply missing_required_nil. intros c Hc. now apply Hcols. }
    unfold exit_status, main. cbn [raw]. now rewrite E.
  - apply raised_Some. rewrite market_metrics_validated, validate_missing;
      rewrite ?M; [reflexivity | exact Hne | discriminate].
  - apply raised_Some. rewrite regional_validated, validate_missing;
      rewrite ?M; [reflexivity | exact Hne | discriminate].
  - apply raised_Some. rewrite time_series_validated, validate_missing;
      rewrite ?M; [reflexivity | exact Hne | discriminate].
  - unfold segment_customer_base.
    rewrite mbind_ok with (a := d) (h' := h) by (now apply load_ok).
    unfold lift at 1, require_non_empty. rewrite Hne.
    erewrite mbind_ok by reflexivity.
    unfold lift at 1, _ensure_columns.
    change (missing_columns d ["Price_USD"; "Customer_ID"; "Vehicle_Type"])
      with (missing_columns d segmentation_required).
    rewrite M. reflexivity.
Qed.

Lemma preflight_columns_rejected_witness :
  empty raw_table = false
  /\ exit_status {| raw := Header (df_columns raw_table); processed_dir := false |} = 0%Z
  /\ calculate_market_metrics (Some raw_table)
     = Raise (DataAnalysisError "Missing required columns: ['Market_Segment']").
Proof.
  split; [reflexivity|].
  destruct (@preflight_columns_rejected sort_stable raw_table [raw_table] 0%nat false)
    as [H0 [H1 _]]; [reflexivity | intro c; reflexivity | reflexivity |].
  split; [exact H0 | exact H1].
Defined.

(** ** Facts about duplicate rows *)

Lemma fnum_eqb_refl : forall a, fnum_eqb a a = true.
Proof. intros [q| | |]; simpl; auto. apply Qeq_bool_refl. Qed.

Lemma fnum_eqb_sym : forall a b, fnum_eqb a b = fnum_eqb b a.
Proof.
  intros [x| | |] [y| | |]; simpl; auto.
  destruct (Qeq_bool x y) eqn:E, (Qeq_bool y x) eqn:E'; auto.
  - apply Qeq_bool_sym' in E. congruence.
  - apply Qeq_bool_sym' in E'. congruence.
Qed.

Lemma Qeq_bool_trans' : forall a b c,
    Qeq_bool a b = true -> Qeq_bool b c = true -> Qeq_bool a c = true.
Proof. intros a b c H1 H2. apply Qeq_bool_iff in H1, H2. apply Qeq_bool_iff. now rewrite H1. Qed.

Lemma fnum_eqb_trans : forall a b c,
    fnum_eqb a b = true -> fnum_eqb b c = true -> fnum_eqb a c = true.
Proof.
  intros [x| | |] [y| | |] [z| | |]; simpl; try discriminate; auto.
  apply Qeq_bool_trans'.
Qed.

Lemma cell_eqb_refl : forall a, cell_eqb a a = true.
Proof.
  intros [z|x|s|b|]; simpl; auto.
  - apply Z.eqb_refl.
  - apply fnum_eqb_refl.
  - apply String.eqb_refl.
  - now destruct b.
Qed.

Lemma cell_eqb_sym : forall a b, cell_eqb a b = cell_eqb b a.
Proof.
  intros [z|x|s|b|] [z'|x'|s'|b'|]; simpl; auto.
  - apply Z.eqb_sym.
  - apply fnum_eqb_sym.
  - apply String.eqb_sym.
  - now destruct b, b'.
Qed.

Lemma cell_eqb_trans : forall a b c,
    cell_eqb a b = true -> cell_eqb b c = true -> cell_eqb a c = true.
Proof.
  intros [z|x|s|b|] [z'|x'|s'|b'|] [z''|x''|s''|b''|]; simpl; try discriminate; auto.
  - rewrite !Z.eqb_eq. congruence.
  - apply fnum_eqb_trans.
  - rewrite !String.eqb_eq. congruence.
  - destruct b, b', b''; auto.
Qed.

Lemma value_eqb_refl : forall a, value_eqb a a = true.
Proof.
  intros [[q|]|[s|]|c]; simpl; auto.
  - apply Qeq_bool_refl.
  - apply String.eqb_refl.
  - apply cell_eqb_refl.
Qed.

Lemma value_eqb_sym : forall a b, value_eqb a b = value_eqb b a.
Proof.
  intros [[q|]|[s|]|c] [[q'|]|[s'|]|c']; simpl; auto.
  - destruct (Qeq_bool q q') eqn:E, (Qeq_bool q' q) eqn:E'; auto.
    + apply Qeq_bool_sym' in E. congruence.
    + apply Qeq_bool_sym' in E'. congruence.
  - apply String.eqb_sym.
  - apply cell_eqb_sym.
Qed.

Lemma value_eqb_trans : forall a b c,
    value_eqb a b = true -> value_eqb b c = true -> value_eqb a c = true.
Proof.
  intros [[q|]|[s|]|x] [[q'|]|[s'|]|x'] [[q''|]|[s''|]|x'']; simpl; try discriminate; auto.
  - apply Qeq_bool_trans'.
  - rewrite !String.eqb_eq. congruence.
  - apply cell_eqb_trans.
Qed.

Lemma row_eqb_refl : forall a, row_eqb a a = true.
Proof. induction a as [|x t IH]; simpl; [reflexivity|]. now rewrite value_eqb_refl. Qed.

Lemma row_eqb_sym : forall a b, row_eqb a b = row_eqb b a.
Proof.
  induction a as [|x t IH]; intros [|y u]; simpl; auto.
  now rewrite value_eqb_sym, IH.
Qed.

Lemma row_eqb_trans : forall a b c,
    row_eqb a b = true -> row_eqb b c = true -> row_eqb a c = true.
Proof.
  induction a as [|x t IH]; intros [|y u] [|z v]; simpl; try discriminate; auto.
  rewrite !andb_true_iff. intros [H1 H2] [H3 H4]. split.
  - eapply value_eqb_trans; eassumption.
  - eapply IH; eassumption.
Qed.

Lemma kept_from_cons : forall seen r t,
    kept_from seen (r :: t)
    = if existsb (row_eqb (snd r)) seen
      then kept_from (snd r :: seen) t
      else r :: kept_from (snd r :: seen) t.
Proof.
  intros seen r t. unfold kept_from. cbn [map duplicated_from combine filter fst].
  destruct (existsb (row_eqb (snd r)) seen); reflexivity.
Qed.

Lemma kept_from_subsequence : forall rows seen, subsequence (kept_from seen rows) rows.
Proof.
  induction rows as [|r t IH]; intro seen; [constructor|].
  rewrite kept_from_cons. destruct (existsb _ seen); constructor; apply IH.
Qed.

Lemma subsequence_In : forall (A : Type) (l l' : list A) x,
    subsequence l l' -> In x l -> In x l'.
Proof.
  intros A l l' x H. induction H; simpl; intuition.
Qed.

(** A kept row holds other values than every row seen before. *)
Lemma kept_from_fresh : forall rows seen x s,
    In x (kept_from seen rows) -> In s seen -> row_eqb (snd x) s = false.
Proof.
  induction rows as [|r t IH]; intros seen x s Hx Hs; [contradiction|].
  rewrite kept_from_cons in Hx.
  destruct (existsb (row_eqb (snd r)) seen) eqn:E.
  - apply (IH (snd r :: seen)); [exact Hx | now right].
  - destruct Hx as [<- | Hx].
    + destruct (row_eqb (snd r) s) eqn:R; [|reflexivity].
      assert (existsb (row_eqb (snd r)) seen = true)
        by (apply existsb_exists; eauto).
      congruence.
    + apply (IH (snd r :: seen)); [exact Hx | now right].
Qed.

Lemma kept_from_distinct : forall rows seen,
    ForallOrdPairs (fun a b => row_eqb (snd a) (snd b) = false) (kept_from seen rows).
Proof.
  induction rows as [|r t IH]; intro seen; [constructor|].
  rewrite kept_from_cons. destruct (existsb (row_eqb (snd r)) seen); [apply IH|].
  constructor; [|apply IH].
  apply Forall_forall. intros x Hx. rewrite row_eqb_sym.
  apply (kept_from_fresh t (snd r :: seen) x (snd r) Hx). now left.
Qed.

(** Every row holds the values of a kept row or of a row seen before. *)
Lemma kept_from_covers : forall rows seen r,
    In r rows ->
    (exists s, In s seen /\ row_eqb (snd r) s = true)
    \/ (exists k, In k (kept_from seen rows) /\ row_eqb (snd r) (snd k) = true).
Proof.
  induction rows as [|a t IH]; intros seen r Hr; [contradiction|].
  rewrite kept_from_cons.
  destruct (existsb (row_eqb (snd a)) seen) eqn:E.
  - apply existsb_exists in E. destruct E as [s [Hs Es]].
    destruct Hr as [<- | Hr]; [left; eauto|].
    destruct (IH (snd a :: seen) r Hr) as [[s' [[<- | Hs'] Es']] | K]; auto.
    + left. exists s. split; [exact Hs|]. eapply row_eqb_trans; eassumption.
    + left. eauto.
  - destruct Hr as [<- | Hr].
    + right. exists a. split; [now left | apply row_eqb_refl].
    + destruct (IH (snd a :: seen) r Hr) as [[s' [[<- | Hs'] Es']] | [k [Hk Ek]]].
      * right. exists a. split; [now left | exact Es'].
      * left. eauto.
      * right. exists k. split; [now right | exact Ek].
Qed.

Lemma existsb_incl : forall (A : Type) (f : A -> bool) l l',
    incl l' l -> existsb f l = false -> existsb f l' = false.
Proof.
  intros A f l l' H E. destruct (existsb f l') eqn:E'; [|reflexivity].
  apply existsb_exists in E'. destruct E' as [x [Hx Fx]].
  assert (existsb f l = true) by (apply existsb_exists; exists x; auto). congruence.
Qed.

(** A second pass over the kept rows marks nothing. *)
Lemma kept_from_unmarked : forall rows seen seen',
    incl seen' seen ->
    duplicated_from seen' (map snd (kept_from seen rows))
    = map (fun _ => false) (kept_from seen rows).
Proof.
  induction rows as [|r t IH]; intros seen seen' H; [reflexivity|].
  rewrite kept_from_cons.
  destruct (existsb (row_eqb (snd r)) seen) eqn:E.
  - apply IH. intros x Hx. right. now apply H.
  - cbn [map duplicated_from]. rewrite (existsb_incl _ H E). f_equal.
    apply IH. intros x [<- | Hx]; [now left | right; now apply H].
Qed.

Lemma count_true_false : forall (A : Type) (l : list A),
    count_true (map (fun _ => false) l) = 0%Z.
Proof. intros A l. unfold count_true. rewrite map_map. apply exact_sum_zeros. Qed.

Lemma kept_from_all : forall rows seen,
    count_true (duplicated_from seen (map snd rows)) = 0%Z -> kept_from seen rows = rows.
Proof.
  induction rows as [|r t IH]; intros seen H; [reflexivity|].
  rewrite kept_from_cons. cbn [map duplicated_from] in H.
  unfold count_true in H. cbn [map exact_sum fold_right] in H.
  fold (exact_sum (map (fun b : bool => if b then 1%Z else 0%Z)
                       (duplicated_from (snd r :: seen) (map snd t)))) in H.
  fold (count_true (duplicated_from (snd r :: seen) (map snd t))) in H.
  pose proof (count_true_nonneg (duplicated_from (snd r :: seen) (map snd t))) as N.
  destruct (existsb (row_eqb (snd r)) seen); [lia|].
  f_equal. apply IH. lia.
Qed.

Lemma drop_duplicates_body : forall df,
    frame_empty df = false -> body (drop_duplicates df) = kept_from [] (body df).
Proof.
  intros df E. unfold drop_duplicates, duplicated. rewrite E. reflexivity.
Qed.

Lemma drop_duplicates_frame : forall df,
    frame_empty df = false ->
    drop_duplicates df = {| names := names df; body := kept_from [] (body df) |}.
Proof.
  intros df E. unfold drop_duplicates, duplicated. rewrite E. reflexivity.
Qed.

Lemma drop_duplicates_unmarked : forall df,
    count_true (duplicated df) = 0%Z -> df = drop_duplicates df.
Proof.
  intros df H. destruct (frame_empty df) eqn:E.
  - unfold drop_duplicates. now rewrite E.
  - rewrite (drop_duplicates_frame df E). unfold duplicated in H. rewrite E in H.
    rewrite (kept_from_all _ _ H). now destruct df.
Qed.

Lemma kept_from_head : forall r t, exists k, kept_from [] (r :: t) = r :: k.
Proof. intros r t. rewrite kept_from_cons. simpl. eauto. Qed.

(** The value [remove_duplicates] returns. *)
Lemma remove_duplicates_value : forall df,
    remove_duplicates (Some df) = Cleaned (drop_duplicates df).
Proof.
  intro df. unfold remove_duplicates.
  destruct (0 <? count_true (duplicated df))%Z eqn:E; [reflexivity|].
  apply Z.ltb_ge in E. pose proof (count_true_nonneg (duplicated df)) as N.
  f_equal. apply drop_duplicates_unmarked. lia.
Qed.

Lemma drop_duplicates_not_empty : forall df,
    frame_empty df = false -> frame_empty (drop_duplicates df) = false.
Proof.
  intros df E. unfold frame_empty.
  rewrite (drop_duplicates_body df E).
  assert (N : names (drop_duplicates df) = names df).
  { unfold drop_duplicates. now rewrite E. }
  rewrite N. unfold frame_empty in E.
  destruct (body df) as [|r t]; [discriminate|].
  destruct (kept_from_head r t) as [k ->].
  destruct (names df); [discriminate | reflexivity].
Qed.

(** X14.  remove_duplicates returns a frame with the columns of its
    argument whose rows are rows of the argument, in their order and with
    their labels.  An empty frame is returned as it is.  Otherwise no two
    rows of the result hold the same values (two missing values counting
    as the same), every row of the argument has its values in a row of the
    result, the first row is always kept, the number of rows kept and the
    number marked add up to the number of rows, and a frame without
    duplicates is returned unchanged. *)
Theorem remove_duplicates_spec :
  forall df : Frame,
    exists out : Frame,
      remove_duplicates (Some df) = Cleaned out
      /\ names out = names df
      /\ subsequence (body out) (body df)
      /\ (frame_empty df = true -> out = df)
      /\ (frame_empty df = false ->
          ForallOrdPairs (fun a b => row_eqb (snd a) (snd b) = false) (body out)
          /\ (forall r, In r (body df) ->
                exists k, In k (body out) /\ row_eqb (snd r) (snd k) = true)
          /\ (forall r t, body df = r :: t -> exists k, body out = r :: k)
          /\ (count_true (duplicated df) = 0%Z -> out = df)
          /\ Z.of_nat (List.length (body out)) + count_true (duplicated df)
             = Z.of_nat (List.length (body df)))%Z.
Proof.
  intro df. exists (drop_duplicates df).
  split; [apply remove_duplicates_value|].
  destruct (frame_empty df) eqn:E.
  - unfold drop_duplicates. rewrite E.
    split; [reflexivity|]. split; [|split; [reflexivity | discriminate]].
    clear. induction (body df); constructor; assumption.
  - rewrite (drop_duplicates_body df E).
    split; [unfold drop_duplicates; now rewrite E|].
    split; [apply kept_from_subsequence|]. split; [discriminate|]. intros _.
    split; [apply kept_from_distinct|]. split.
    { intros r Hr. destruct (kept_from_covers (body df) [] r Hr) as [[s [[] _]] | K].
      exact K. }
    split; [intros r t ->; apply kept_from_head|].
    unfold duplicated. rewrite E. split.
    + intro H. symmetry. apply drop_duplicates_unmarked.
      unfold duplicated. now rewrite E.
    + generalize (@nil (list value)). induction (body df) as [|r t IH]; intro seen.
      * reflexivity.
      * rewrite kept_from_cons. cbn [map duplicated_from].
        unfold count_true. cbn [map exact_sum fold_right].
        fold (exact_sum (map (fun b : bool => if b then 1%Z else 0%Z)
                             (duplicated_from (snd r :: seen) (map snd t)))).
        fold (count_true (duplicated_from (snd r :: seen) (map snd t))).
        specialize (IH (snd r :: seen)).
        destruct (existsb (row_eqb (snd r)) seen); cbn [List.length]; lia.
Qed.

(** X15.  remove_duplicates is idempotent: in the frame it returns no
    row is marked as a duplicate, and applying it again returns the same
    frame. *)
Theorem remove_duplicates_idempotent :
  forall df : Frame,
    exists out : Frame,
      remove_duplicates (Some df) = Cleaned out
      /\ remove_duplicates (Some out) = Cleaned out
      /\ count_true (duplicated out) = 0%Z.
Proof.
  intro df. exists (drop_duplicates df).
  split; [apply remove_duplicates_value|].
  assert (C : count_true (duplicated (drop_duplicates df)) = 0%Z).
  { destruct (frame_empty df) eqn:E.
    - unfold drop_duplicates. rewrite E. unfold duplicated. now rewrite E.
    - unfold duplicated. rewrite (drop_duplicates_not_empty df E).
      rewrite (drop_duplicates_body df E).
      rewrite (@kept_from_unmarked (body df) [] [] (incl_refl _)).
      apply count_true_false. }
  split; [|exact C].
  unfold remove_duplicates. rewrite C. reflexivity.
Qed.

(** ** Facts about medians and modes *)

Lemma sort_length : forall (A : Type) (leb : A -> A -> bool) l,
    List.length (sort leb l) = List.length l.
Proof. intros A leb l. symmetry. apply Permutation_length, sort_perm. Qed.

Lemma nth_sorted_In : forall (l : list Q) i,
    (i < List.length l)%nat -> In (nth i (sort Qle_bool l) 0%Q) l.
Proof.
  intros l i H. eapply Permutation_in; [symmetry; apply (sort_perm Qle_bool)|].
  apply nth_In. now rewrite sort_length.
Qed.

Lemma median_defined : forall l,
    l <> [] ->
    exists m, median l = Some m
              /\ (forall lo, (forall q, In q l -> lo <= q)%Q -> (lo <= m)%Q)
              /\ (forall hi, (forall q, In q l -> q <= hi)%Q -> (m <= hi)%Q).
Proof.
  intros l Hne. unfold median. rewrite sort_length.
  set (n := List.length l).
  assert (Hn : (0 < n)%nat) by (unfold n; destruct l; [congruence | simpl; lia]).
  destruct (Nat.eqb_spec n 0) as [E | _]; [lia|].
  assert (H2 : (n / 2 < n)%nat) by (apply Nat.div_lt; lia).
  pose proof (@nth_sorted_In l (n / 2) H2) as I2.
  destruct (Nat.even n) eqn:Ev.
  - assert (H1 : (n / 2 - 1 < n)%nat) by lia.
    pose proof (@nth_sorted_In l (n / 2 - 1) H1) as I1.
    eexists. split; [reflexivity|].
    set (a := nth (n / 2 - 1) (sort Qle_bool l) 0%Q) in *.
    set (b := nth (n / 2) (sort Qle_bool l) 0%Q) in *.
    split.
    + intros lo H. pose proof (H a I1). pose proof (H b I2).
      apply Qle_shift_div_l; [reflexivity | lra].
    + intros hi H. pose proof (H a I1). pose proof (H b I2).
      apply Qle_shift_div_r; [reflexivity | lra].
  - eexists. split; [reflexivity|]. split; intros bound H; now apply H.
Qed.

Lemma median_nil : median [] = None.
Proof. reflexivity. Qed.

Lemma fold_max_bound : forall (A : Type) (f : A -> nat) l x,
    In x l -> (f x <= fold_right Nat.max 0%nat (map f l))%nat.
Proof.
  intros A f l x. induction l as [|a t IH]; intro H; [contradiction|].
  simpl. destruct H as [<- | H]; [lia | specialize (IH H); lia].
Qed.

Lemma fold_max_attained : forall (A : Type) (f : A -> nat) l,
    l <> [] -> exists x, In x l /\ f x = fold_right Nat.max 0%nat (map f l).
Proof.
  intros A f l. induction l as [|a t IH]; intro H; [congruence|].
  destruct t as [|b u].
  - exists a. split; [now left|]. simpl. lia.
  - destruct (IH ltac:(discriminate)) as [x [Hx Ex]].
    cbn [map fold_right] in *.
    destruct (Nat.le_gt_cases (f a) (fold_right Nat.max 0%nat (f b :: map f u))).
    + exists x. split; [now right|]. simpl in *. lia.
    + exists a. split; [now left|]. simpl in *. lia.
Qed.

Lemma filter_sorted : forall (A : Type) (R : A -> A -> Prop) (f : A -> bool) l,
    StronglySorted R l -> StronglySorted R (filter f l).
Proof.
  intros A R f l H. induction H as [|x t _ IH Hx]; simpl; [constructor|].
  destruct (f x); [|exact IH]. constructor; [exact IH|].
  rewrite Forall_forall in *. intros y Hy. apply Hx. apply filter_In in Hy. tauto.
Qed.

(** The first mode of a series with at least one defined value: a most
    frequent value, and the least of these. *)
Lemma first_mode_spec : forall (l : list (option string)),
    dropna l <> [] ->
    exists m t,
      series_mode l = m :: t
      /\ In m (dropna l)
      /\ (forall s, count_occ string_dec (dropna l) s
                    <= count_occ string_dec (dropna l) m)%nat
      /\ (forall s, count_occ string_dec (dropna l) s = count_occ string_dec (dropna l) m ->
                    s = m \/ string_lt m s).
Proof.
  intros l Hne. unfold series_mode.
  set (vals := dropna l) in *.
  set (keys := group_keys String.eqb String.leb vals).
  set (occ := fun k => count_occ string_dec vals k).
  set (best := fold_right Nat.max 0%nat (map occ keys)).
  assert (Kne : keys <> []) by (apply (group_keys_nonempty String.eqb_eq); exact Hne).
  destruct (fold_max_attained occ Kne) as [x [Hx Ex]]. fold best in Ex.
  assert (Hbest : forall s, (occ s <= best)%nat).
  { intro s. destruct (in_dec string_dec s vals) as [I | I].
    - apply fold_max_bound. apply (group_keys_In String.eqb_eq). exact I.
    - unfold occ. rewrite (proj1 (count_occ_not_In string_dec vals s) I). lia. }
  assert (Bpos : (0 < best)%nat).
  { rewrite <- Ex. unfold occ. apply count_occ_In.
    apply (group_keys_In String.eqb_eq) in Hx. exact Hx. }
  assert (Fin_x : In x (filter (fun k => Nat.eqb (occ k) best) keys)).
  { apply filter_In. split; [exact Hx | now apply Nat.eqb_eq]. }
  pose proof (filter_sorted (fun k => Nat.eqb (occ k) best) (string_keys_ascending vals)) as S.
  fold keys in S.
  destruct (filter (fun k => Nat.eqb (occ k) best) keys) as [|m t] eqn:F; [contradiction|].
  exists m, t. split; [reflexivity|].
  assert (Hm : In m keys /\ occ m = best).
  { assert (I : In m (m :: t)) by now left. rewrite <- F in I.
    apply filter_In in I. destruct I as [I1 I2]. apply Nat.eqb_eq in I2. auto. }
  destruct Hm as [Hm1 Hm2].
  split; [now apply (group_keys_In String.eqb_eq) in Hm1|].
  split; [intro s; fold (occ s); fold (occ m); rewrite Hm2; apply Hbest|].
  intros s Hs. fold (occ s) in Hs. fold (occ m) in Hs.
  assert (Is : In s (m :: t)).
  { rewrite <- F. apply filter_In. split.
    - apply (group_keys_In String.eqb_eq). apply (count_occ_In string_dec).
      fold (occ s). lia.
    - apply Nat.eqb_eq. lia. }
  destruct Is as [E | Is]; [now left|]. right.
  inversion S as [|? ? _ Hall]; subst. rewrite Forall_forall in Hall. now apply Hall.
Qed.

Lemma series_mode_nil : forall l, dropna l = [] -> series_mode l = [].
Proof. intros l H. unfold series_mode. rewrite H. reflexivity. Qed.

(** ** Facts about filling *)

Lemma fill_row_nth : forall df r j,
    nth j (fill_row df r) (Plain CNaN) = fill_value (column df j) (nth j r (Plain CNaN)).
Proof.
  intros df r j. unfold fill_row.
  destruct (Nat.lt_ge_cases j (List.length r)) as [H | H].
  - rewrite (nth_indep _ _ (fill_value (column df (fst (0%nat, Plain CNaN)))
                                       (snd (0%nat, Plain CNaN))))
      by (now rewrite length_map, length_combine, length_seq, Nat.min_id).
    rewrite (map_nth (fun jv => fill_value (column df (fst jv)) (snd jv))).
    rewrite combine_nth by (now rewrite length_seq).
    rewrite seq_nth by exact H. reflexivity.
  - rewrite !nth_overflow; try reflexivity; [exact H|].
    now rewrite length_map, length_combine, length_seq, Nat.min_id.
Qed.

Lemma fill_row_length : forall df r, List.length (fill_row df r) = List.length r.
Proof.
  intros df r. unfold fill_row. now rewrite length_map, length_combine, length_seq, Nat.min_id.
Qed.

Lemma column_fill : forall df j,
    frame_empty df = false ->
    column (fill_missing_values WriteThrough df) j
    = map (fill_value (column df j)) (column df j).
Proof.
  intros df j E. unfold fill_missing_values. rewrite E. unfold column at 1. cbn [body].
  unfold column at 2. rewrite !map_map. apply map_ext. intro r. cbn [snd].
  apply fill_row_nth.
Qed.

Lemma numbers_In : forall col q, In q (numbers col) -> exists q', In (Num (Some q')) col.
Proof.
  induction col as [|v t IH]; intros q H; [contradiction|].
  destruct v as [[x|]|s|c]; simpl in H.
  - exists x. now left.
  - destruct (IH q H) as [q' Hq]. exists q'. now right.
  - destruct (IH q H) as [q' Hq]. exists q'. now right.
  - destruct (IH q H) as [q' Hq]. exists q'. now right.
Qed.

Lemma In_numbers : forall col q, In (Num (Some q)) col -> In q (numbers col).
Proof.
  induction col as [|v t IH]; intros q H; [contradiction|].
  destruct H as [-> | H]; [now left|].
  destruct v as [[x|]|s|c]; simpl; auto.
Qed.

Lemma In_texts : forall col s, In (Obj (Some s)) col <-> In s (dropna (texts col)).
Proof.
  induction col as [|v t IH]; intro s; [simpl; tauto|].
  destruct v as [x|[y|]|c]; simpl; rewrite <- ?IH;
    try (split; [intros [H | H]; [discriminate | exact H] | auto]).
  split; [intros [H | H]; [inversion H; auto | auto] | intros [-> | H]; auto].
Qed.

(** Filling keeps the defined numbers and texts of a column as a list
    when nothing is missing to fill from, and never invents a kind. *)
Lemma fill_value_defined : forall col v, missing v = false -> fill_value col v = v.
Proof. intros col [[q|]|[s|]|c] H; try reflexivity; discriminate. Qed.

Lemma fill_value_idem : forall col col' v,
    (numbers col = [] -> numbers col' = []) ->
    (dropna (texts col) = [] -> dropna (texts col') = []) ->
    fill_value col' (fill_value col v) = fill_value col v.
Proof.
  intros col col' [[q|]|[s|]|c] Hn Ht; try reflexivity; simpl.
  - destruct (median (numbers col)) as [m|] eqn:M; [reflexivity|].
    simpl. destruct (numbers col) as [|a t] eqn:N.
    + now rewrite (Hn eq_refl).
    + destruct (@median_defined (a :: t) ltac:(discriminate)) as [m [E _]]. congruence.
  - destruct (series_mode (texts col)) as [|m t] eqn:M; [|reflexivity].
    simpl. destruct (dropna (texts col)) as [|a u] eqn:N.
    + now rewrite (series_mode_nil _ (Ht eq_refl)).
    + destruct (@first_mode_spec (texts col)) as [m [t [E _]]]; [rewrite N; discriminate|].
      congruence.
Qed.

Lemma numbers_fill_nil : forall col col0,
    numbers col = [] -> median (numbers col0) = None ->
    numbers (map (fill_value col0) col) = [].
Proof.
  induction col as [|v t IH]; intros col0 H M; [reflexivity|].
  destruct v as [[q|]|[s|]|c]; simpl in *; try discriminate;
    try (now apply IH).
  - rewrite M. simpl. now apply IH.
  - destruct (series_mode (texts col0)); simpl; now apply IH.
Qed.

Lemma texts_fill_nil : forall col col0,
    dropna (texts col) = [] -> series_mode (texts col0) = [] ->
    dropna (texts (map (fill_value col0) col)) = [].
Proof.
  induction col as [|v t IH]; intros col0 H M; [reflexivity|].
  destruct v as [[q|]|[s|]|c]; simpl in *; try discriminate;
    try (now apply IH).
  - destruct (median (numbers col0)); simpl; now apply IH.
  - rewrite M. simpl. now apply IH.
Qed.

Lemma fill_no_missing_number : forall df j,
    frame_empty df = false ->
    numbers (column df j) <> [] ->
    ~ In (Num None) (column (fill_missing_values WriteThrough df) j).
Proof.
  intros df j E Hne. rewrite (column_fill df j E).
  destruct (median_defined Hne) as [m [Hm _]].
  intro H. apply in_map_iff in H. destruct H as [v [Ev _]].
  destruct v as [[q|]|[s|]|c]; simpl in Ev; try discriminate.
  - rewrite Hm in Ev. discriminate.
  - destruct (series_mode (texts (column df j))); discriminate.
Qed.

Lemma fill_no_missing_text : forall df j s,
    frame_empty df = false ->
    In (Obj (Some s)) (column df j) ->
    ~ In (Obj None) (column (fill_missing_values WriteThrough df) j).
Proof.
  intros df j s E Hs. rewrite (column_fill df j E).
  assert (Hne : dropna (texts (column df j)) <> []).
  { apply In_texts in Hs. intro N. now rewrite N in Hs. }
  destruct (first_mode_spec _ Hne) as [m [t [Hm _]]].
  intro H. apply in_map_iff in H. destruct H as [v [Ev _]].
  destruct v as [[q|]|[s'|]|c]; simpl in Ev; try discriminate.
  - destruct (median (numbers (column df j))); discriminate.
  - rewrite Hm in Ev. discriminate.
Qed.

(** With copy-on-write the frame comes back as it was. *)
Lemma fill_missing_values_copy : forall df, fill_missing_values CopyOnWrite df = df.
Proof. intro df. unfold fill_missing_values. now destruct (frame_empty df). Qed.

(** X16.  Number columns after fill_missing_values, on a non-empty
    frame.  When in-place methods write through to the frame: in a column
    with at least one number every missing cell holds the median of the
    numbers of that column, no missing number remains, and the median
    lies between the lowest and the highest number of the column; a
    column without any number keeps its missing cells.  With
    copy-on-write every column comes back as it was, its missing cells
    included.  In both modes a number that was there is never changed. *)
Theorem fill_missing_numbers :
  forall (mode : inplace_mode) (df : Frame) (j : nat),
    frame_empty df = false ->
    let col := column df j in
    let out := column (fill_missing_values mode df) j in
    (mode = WriteThrough ->
     (numbers col <> [] ->
      exists m : Q,
        median (numbers col) = Some m
        /\ (forall i, nth_error col i = Some (Num None) ->
                      nth_error out i = Some (Num (Some m)))
        /\ ~ In (Num None) out
        /\ (forall lo, (forall q, In q (numbers col) -> lo <= q)%Q -> (lo <= m)%Q)
        /\ (forall hi, (forall q, In q (numbers col) -> q <= hi)%Q -> (m <= hi)%Q))
     /\ (numbers col = [] ->
         forall i, nth_error col i = Some (Num None) -> nth_error out i = Some (Num None)))
    /\ (mode = CopyOnWrite -> out = col)
    /\ (forall i q, nth_error col i = Some (Num (Some q)) ->
                    nth_error out i = Some (Num (Some q))).
Proof.
  intros mode df j E col out. split; [|split].
  - intros ->.
    assert (O : out = map (fill_value col) col) by (apply column_fill; exact E).
    split.
    + intro Hne. destruct (median_defined Hne) as [m [Hm [Hlo Hhi]]].
      exists m. split; [exact Hm|]. split.
      { intros i Hi. rewrite O, nth_error_map, Hi. simpl. now rewrite Hm. }
      split; [|split; assumption].
      now apply fill_no_missing_number.
    + intros Hnil i Hi. rewrite O, nth_error_map, Hi. simpl. now rewrite Hnil.
  - intros ->. unfold out. now rewrite fill_missing_values_copy.
  - intros i q Hi. unfold out. destruct mode.
    + fold col. rewrite (column_fill df j E). fold col.
      rewrite nth_error_map, Hi. reflexivity.
    + rewrite fill_missing_values_copy. exact Hi.
Qed.

(** X17.  Object columns after fill_missing_values, on a non-empty
    frame.  When in-place methods write through to the frame: in a column
    with at least one text every missing cell holds the first mode of the
    column, a text of the column that occurs at least as often as any
    other and is the least of the texts occurring that often, and no
    missing text remains; a column without any text keeps its missing
    cells.  With copy-on-write every column comes back as it was, its
    missing cells included.  In both modes a text that was there is never
    changed. *)
Theorem fill_missing_texts :
  forall (mode : inplace_mode) (df : Frame) (j : nat),
    frame_empty df = false ->
    let col := column df j in
    let out := column (fill_missing_values mode df) j in
    (mode = WriteThrough ->
     ((exists s, In (Obj (Some s)) col) ->
      exists m : string,
        In (Obj (Some m)) col
        /\ (forall s, occurrences col s <= occurrences col m)%nat
        /\ (forall s, occurrences col s = occurrences col m -> s = m \/ string_lt m s)
        /\ (forall i, nth_error col i = Some (Obj None) ->
                      nth_error out i = Some (Obj (Some m)))
        /\ ~ In (Obj None) out)
     /\ ((forall s, ~ In (Obj (Some s)) col) ->
         forall i, nth_error col i = Some (Obj None) -> nth_error out i = Some (Obj None)))
    /\ (mode = CopyOnWrite -> out = col)
    /\ (forall i s, nth_error col i = Some (Obj (Some s)) ->
                    nth_error out i = Some (Obj (Some s))).
Proof.
  intros mode df j E col out. split; [|split].
  - intros ->.
    assert (O : out = map (fill_value col) col) by (apply column_fill; exact E).
    split.
    + intros [s Hs].
      assert (Hne : dropna (texts col) <> []).
      { apply In_texts in Hs. intro N. now rewrite N in Hs. }
      destruct (first_mode_spec _ Hne) as [m [t [Hm [Hin [Hmax Hleast]]]]].
      exists m. split; [now apply In_texts|]. split; [exact Hmax|].
      split; [exact Hleast|]. split.
      { intros i Hi. rewrite O, nth_error_map, Hi. simpl. now rewrite Hm. }
      now apply (@fill_no_missing_text df j s).
    + intros Hno i Hi. rewrite O, nth_error_map, Hi. simpl.
      rewrite series_mode_nil; [reflexivity|].
      destruct (dropna (texts col)) as [|s t] eqn:N; [reflexivity|].
      exfalso. apply (Hno s). apply In_texts. rewrite N. now left.
  - intros ->. unfold out. now rewrite fill_missing_values_copy.
  - intros i s Hi. unfold out. destruct mode.
    + fold col. rewrite (column_fill df j E). fold col.
      rewrite nth_error_map, Hi. reflexivity.
    + rewrite fill_missing_values_copy. exact Hi.
Qed.

Lemma fill_row_idem : forall df r,
    frame_empty df = false ->
    fill_row (fill_missing_values WriteThrough df) (fill_row df r) = fill_row df r.
Proof.
  intros df r E. apply nth_ext with (d := Plain CNaN) (d' := Plain CNaN).
  - now rewrite !fill_row_length.
  - intros j _. rewrite !fill_row_nth, (column_fill df j E).
    apply fill_value_idem.
    + intro N. apply numbers_fill_nil; [exact N | now rewrite N].
    + intro N. apply texts_fill_nil; [exact N | now apply series_mode_nil].
Qed.

Lemma fill_row_defined : forall df r,
    (forall v, In v r -> missing v = false) -> fill_row df r = r.
Proof.
  intros df r H. apply nth_ext with (d := Plain CNaN) (d' := Plain CNaN).
  - apply fill_row_length.
  - intros j _. rewrite fill_row_nth. apply fill_value_defined.
    destruct (Nat.lt_ge_cases j (List.length r)) as [L | L].
    + apply H. now apply nth_In.
    + now rewrite nth_overflow.
Qed.

Lemma fill_missing_values_nonempty : forall df,
    frame_empty df = false ->
    fill_missing_values WriteThrough df
    = {| names := names df;
         body := map (fun r => (fst r, fill_row df (snd r))) (body df) |}.
Proof. intros df E. unfold fill_missing_values. now rewrite E. Qed.

Lemma frame_eta : forall df, {| names := names df; body := body df |} = df.
Proof. now intros []. Qed.

(** X18.  fill_missing_values keeps the frame around the cells it
    fills, whether in-place methods write through or not: the column
    labels, the row labels and their order, the length of every row, every
    cell that holds a value, and every cell of a column that is neither a
    number nor an object column.  An empty frame and a frame without
    missing cells come back unchanged, and filling a filled frame changes
    nothing. *)
Theorem fill_missing_values_frame :
  forall (mode : inplace_mode) (df : Frame),
    let out := fill_missing_values mode df in
    names out = names df
    /\ map fst (body out) = map fst (body df)
    /\ map (fun r => List.length (snd r)) (body out)
       = map (fun r => List.length (snd r)) (body df)
    /\ (frame_empty df = true -> out = df)
    /\ (forall i j v,
           nth_error (column df j) i = Some v -> missing v = false ->
           nth_error (column out j) i = Some v)
    /\ (forall i j v,
           nth_error (column df j) i = Some (Plain v) ->
           nth_error (column out j) i = Some (Plain v))
    /\ ((forall r v, In r (body df) -> In v (snd r) -> missing v = false) -> out = df)
    /\ fill_missing_values mode out = out.
Proof.
  intros mode df out. unfold out. destruct mode.
  2:{ rewrite !fill_missing_values_copy. repeat split; auto. }
  destruct (frame_empty df) eqn:E.
  - unfold fill_missing_values. rewrite E. rewrite E. repeat split; auto.
  - assert (E' : frame_empty (fill_missing_values WriteThrough df) = false).
    { unfold fill_missing_values. rewrite E. unfold frame_empty in *. cbn [names body].
      destruct (body df); [discriminate|]. destruct (names df); [discriminate | reflexivity]. }
    split; [unfold fill_missing_values; now rewrite E|].
    split; [unfold fill_missing_values; rewrite E; cbn [body]; now rewrite map_map|].
    split.
    { unfold fill_missing_values. rewrite E. cbn [body]. rewrite map_map. apply map_ext.
      intro r. apply fill_row_length. }
    split; [discriminate|].
    split.
    { intros i j v Hv Hm. rewrite (column_fill df j E), nth_error_map, Hv. simpl.
      now rewrite fill_value_defined. }
    split.
    { intros i j v Hv. rewrite (column_fill df j E), nth_error_map, Hv. reflexivity. }
    assert (B : body (fill_missing_values WriteThrough df)
                = map (fun r => (fst r, fill_row df (snd r))) (body df))
      by (unfold fill_missing_values; now rewrite E).
    split.
    { intro Hdef. rewrite (fill_missing_values_nonempty _ E).
      transitivity {| names := names df; body := body df |}; [|apply frame_eta].
      f_equal. rewrite <- (map_id (body df)) at 2. apply map_ext_in.
      intros [l r] Hr. cbn [fst snd]. f_equal. apply fill_row_defined.
      intros v Hv. exact (Hdef (l, r) v Hr Hv). }
    rewrite (fill_missing_values_nonempty _ E').
    transitivity {| names := names (fill_missing_values WriteThrough df);
                    body := body (fill_missing_values WriteThrough df) |};
      [|apply frame_eta].
    f_equal. rewrite B, map_map. apply map_ext. intro r. cbn [fst snd]. f_equal.
    apply (fill_row_idem df (snd r) E).
Qed.

Lemma fill_missing_numbers_witness :
  frame_empty raw_sample = false
  /\ (exists m : Q,
        median (numbers (column raw_sample 1)) = Some m
        /\ (m == 35000)%Q
        /\ nth_error (column (fill_missing_values WriteThrough raw_sample) 1) 1
           = Some (Num (Some m)))
  /\ nth_error (column (fill_missing_values CopyOnWrite raw_sample) 1) 1 = Some (Num None).
Proof.
  split; [reflexivity|]. split.
  - destruct (@fill_missing_numbers WriteThrough raw_sample 1%nat eq_refl) as [H _].
    destruct (H eq_refl) as [H1 _].
    destruct H1 as [m [Hm [Hfill _]]]; [discriminate|].
    exists m. split; [exact Hm|]. split.
    + assert (E : Some m = Some ((30000 + 40000) / 2)%Q) by (rewrite <- Hm; reflexivity).
      inversion E. reflexivity.
    + apply Hfill. reflexivity.
  - destruct (@fill_missing_numbers CopyOnWrite raw_sample 1%nat eq_refl) as [_ [H _]].
    rewrite (H eq_refl). reflexivity.
Defined.

Lemma fill_missing_texts_witness :
  frame_empty raw_sample = false
  /\ nth_error (column (fill_missing_values WriteThrough raw_sample) 2) 1
     = Some (Obj (Some "Black"))
  /\ nth_error (column (fill_missing_values CopyOnWrite raw_sample) 2) 1 = Some (Obj None).
Proof.
  split; [reflexivity|]. split.
  - destruct (@fill_missing_texts WriteThrough raw_sample 2%nat eq_refl) as [H _].
    destruct (H eq_refl) as [H1 _].
    destruct H1 as [m [Hin [Hmax [_ [Hfill _]]]]]; [exists "Black"; simpl; auto|].
    rewrite (Hfill 1%nat eq_refl). do 2 f_equal.
    simpl in Hin.
    destruct Hin as [E | [E | [E | [E | [E | []]]]]]; inversion E; subst m; try reflexivity.
    specialize (Hmax "Black"). vm_compute in Hmax. lia.
  - destruct (@fill_missing_texts CopyOnWrite raw_sample 2%nat eq_refl) as [_ [H _]].
    rewrite (H eq_refl). reflexivity.
Defined.

(** ** Facts about the pipeline *)

Lemma upto_last_slash_none : forall p, has_slash p = false -> upto_last_slash p = EmptyString.
Proof. intros [|c t] H; [reflexivity|]. cbn [upto_last_slash]. now rewrite H. Qed.

Lemma upto_last_slash_some : forall p, has_slash p = true -> upto_last_slash p <> EmptyString.
Proof. intros [|c t] H; [discriminate|]. cbn [upto_last_slash]. rewrite H. discriminate. Qed.

Lemma rstrip_slashes_empty : forall p, rstrip_slashes p = EmptyString -> all_slashes p = true.
Proof.
  intros [|c t] H; [reflexivity|]. cbn [rstrip_slashes] in H.
  destruct (all_slashes (String c t)); [reflexivity | discriminate].
Qed.

(** The directory part of a path is empty exactly when the path has no
    slash. *)
Lemma dirname_empty : forall p, dirname p = EmptyString <-> has_slash p = false.
Proof.
  intro p. unfold dirname. split.
  - intro H. destruct (has_slash p) eqn:S; [|reflexivity].
    pose proof (upto_last_slash_some p S) as N.
    destruct (upto_last_slash p) as [|c t] eqn:U; [congruence|].
    destruct (all_slashes (String c t)) eqn:A; [discriminate|].
    apply rstrip_slashes_empty in H. congruence.
  - intro H. now rewrite (upto_last_slash_none p H).
Qed.

Lemma row_eqb_nth : forall a b j,
    row_eqb a b = true ->
    value_eqb (nth j a (Plain CNaN)) (nth j b (Plain CNaN)) = true.
Proof.
  induction a as [|x t IH]; intros [|y u] j H; try discriminate.
  - destruct j; reflexivity.
  - simpl in H. apply andb_true_iff in H. destruct H as [H1 H2].
    destruct j; simpl; [exact H1 | now apply IH].
Qed.

Lemma value_eqb_number : forall q v,
    value_eqb (Num (Some q)) v = true -> exists q', v = Num (Some q').
Proof. intros q [[q'|]|[s|]|c] H; try discriminate. eauto. Qed.

Lemma value_eqb_text : forall s v,
    value_eqb (Obj (Some s)) v = true -> v = Obj (Some s).
Proof.
  intros s [[q'|]|[s'|]|c] H; try discriminate. simpl in H.
  apply String.eqb_eq in H. now subst.
Qed.

(** Dropping duplicate rows leaves every column with the values it
    had. *)
Lemma drop_duplicates_column : forall df j v,
    frame_empty df = false ->
    In v (column df j) ->
    exists v', In v' (column (drop_duplicates df) j) /\ value_eqb v v' = true.
Proof.
  intros df j v E Hv. unfold column in Hv. apply in_map_iff in Hv.
  destruct Hv as [r [<- Hr]].
  destruct (kept_from_covers (body df) [] r Hr) as [[s [[] _]] | [k [Hk Ek]]].
  exists (nth j (snd k) (Plain CNaN)). split; [|now apply row_eqb_nth].
  unfold column. rewrite (drop_duplicates_body df E).
  apply (in_map (fun r => nth j (snd r) (Plain CNaN))). exact Hk.
Qed.

(** X19.  When the raw file loads and the save path has no directory
    part (a bare file name), clean_dataset fails: os.makedirs is called
    with the empty name, its FileNotFoundError is wrapped in a
    DataCleaningError, and nothing is written. *)
Theorem clean_dataset_bare_filename :
  forall (w : World) (raw_path save_path : string) (df : Frame),
    load_data w raw_path = Cleaned df ->
    has_slash save_path = false ->
    clean_dataset w raw_path save_path
    = (DataCleaningError
         "Failed to clean dataset: [Errno 2] No such file or directory: ''", []).
Proof.
  intros w raw_path save_path df L S. unfold clean_dataset.
  rewrite L, remove_duplicates_value.
  rewrite (proj2 (dirname_empty save_path) S). reflexivity.
Qed.

Lemma clean_dataset_bare_filename_witness :
  load_data sample_world "raw.csv" = Cleaned raw_sample
  /\ has_slash "cleaned.csv" = false
  /\ clean_dataset sample_world "raw.csv" "cleaned.csv"
     = (DataCleaningError
          "Failed to clean dataset: [Errno 2] No such file or directory: ''", []).
Proof.
  split; [reflexivity|]. split; [reflexivity|].
  apply (@clean_dataset_bare_filename sample_world "raw.csv" "cleaned.csv" raw_sample);
    reflexivity.
Defined.

(** X20.  When clean_dataset returns a frame, the raw file held a
    non-empty table, the save path has a directory part, and the frame
    returned is the loaded table with its duplicate rows dropped and then
    passed through fill_missing_values; it is written to the save path
    without the row labels after the directory was made sure of.  The
    frame has the columns of the raw table and no more rows.  When
    in-place methods write through, a number column that had a number in
    the raw table has no missing cell left, and likewise an object column
    that had a text; with copy-on-write nothing is filled, and what is
    returned and written is the table without its duplicate rows. *)
Theorem clean_dataset_result :
  forall (w : World) (raw_path save_path : string) (out : Frame) (done : list effect),
    clean_dataset w raw_path save_path = (Cleaned out, done) ->
    exists df : Frame,
      read_csv w raw_path = inr df
      /\ frame_empty df = false
      /\ out = fill_missing_values (inplace w) (drop_duplicates df)
      /\ done = [EnsuredDir (dirname save_path);
                 Wrote save_path (names out) (map snd (body out))]
      /\ dirname save_path <> EmptyString
      /\ names out = names df
      /\ (List.length (body out) <= List.length (body df))%nat
      /\ (inplace w = WriteThrough ->
          (forall j, numbers (column df j) <> [] -> ~ In (Num None) (column out j))
          /\ (forall j s, In (Obj (Some s)) (column df j) ->
                          ~ In (Obj None) (column out j)))
      /\ (inplace w = CopyOnWrite -> out = drop_duplicates df).
Proof.
  intros w raw_path save_path out done H. unfold clean_dataset in H.
  destruct (load_data w raw_path) as [df|msg] eqn:L; [|discriminate].
  unfold load_data in L.
  destruct (path_exists w raw_path); [|discriminate]. cbn [negb] in L.
  destruct (read_csv w raw_path) as [exc|df0] eqn:R; [discriminate|].
  destruct (frame_empty df0) eqn:E; [discriminate|].
  inversion L; subst df0. clear L.
  rewrite remove_duplicates_value in H.
  destruct (makedirs w (dirname save_path)) as [exc|] eqn:Mk; [discriminate|].
  destruct (write_error w save_path) as [exc|]; [discriminate|].
  inversion H; subst out done. clear H.
  pose proof (drop_duplicates_not_empty df E) as E'.
  assert (Hn : names (drop_duplicates df) = names df)
    by (unfold drop_duplicates; now rewrite E).
  assert (Hl : (List.length (body (drop_duplicates df)) <= List.length (body df))%nat).
  { rewrite (drop_duplicates_body df E). unfold kept_from.
    rewrite length_map. etransitivity; [apply filter_length_le|].
    rewrite length_combine. apply Nat.le_min_r. }
  exists df. split; [reflexivity|]. split; [exact E|]. split; [reflexivity|].
  split; [reflexivity|].
  split.
  { intro D. rewrite D in Mk. discriminate. }
  split.
  { destruct (inplace w); [|now rewrite fill_missing_values_copy].
    rewrite (fill_missing_values_nonempty _ E'). exact Hn. }
  split.
  { destruct (inplace w); [|now rewrite fill_missing_values_copy].
    rewrite (fill_missing_values_nonempty _ E'). cbn [body]. now rewrite length_map. }
  split.
  - intros ->. split.
    + intros j Hne.
      destruct (numbers (column df j)) as [|q t] eqn:N; [congruence|].
      assert (Hq : In q (numbers (column df j))) by (rewrite N; now left).
      destruct (numbers_In _ _ Hq) as [q' Hq'].
      destruct (drop_duplicates_column df j _ E Hq') as [v' [Hv' Ev]].
      destruct (value_eqb_number _ _ Ev) as [q'' ->].
      apply (fill_no_missing_number _ j E').
      intro Z0. apply In_numbers in Hv'. now rewrite Z0 in Hv'.
    + intros j s Hs.
      destruct (drop_duplicates_column df j _ E Hs) as [v' [Hv' Ev]].
      apply value_eqb_text in Ev. subst v'.
      exact (@fill_no_missing_text _ j s E' Hv').
  - intros ->. apply fill_missing_values_copy.
Qed.

Lemma clean_dataset_result_witness :
  (exists (out : Frame) (done : list effect),
      clean_dataset sample_world "data/raw/sales.csv" "data/processed/cleaned.csv"
      = (Cleaned out, done)
      /\ done = [EnsuredDir "data/processed";
                 Wrote "data/processed/cleaned.csv" (names out) (map snd (body out))]
      /\ List.length (body out) = 4%nat
      /\ ~ In (Num None) (column out 1))
  /\ exists (out : Frame) (done : list effect),
      clean_dataset copy_on_write_world "data/raw/sales.csv" "data/processed/cleaned.csv"
      = (Cleaned out, done)
      /\ out = drop_duplicates raw_sample
      /\ In (Num None) (column out 1).
Proof.
  split.
  - eexists. eexists. split; [reflexivity|].
    destruct (@clean_dataset_result sample_world "data/raw/sales.csv"
                "data/processed/cleaned.csv" _ _ eq_refl)
      as [df [R [_ [_ [D [_ [_ [_ [Hw _]]]]]]]]].
    split; [exact D|]. split; [reflexivity|].
    apply (proj1 (Hw eq_refl)). inversion R. discriminate.
  - eexists. eexists. split; [reflexivity|].
    destruct (@clean_dataset_result copy_on_write_world "data/raw/sales.csv"
                "data/processed/cleaned.csv" _ _ eq_refl)
      as [df [R [_ [_ [_ [_ [_ [_ [_ Hc]]]]]]]]].
    inversion R. subst df. split; [exact (Hc eq_refl)|].
    right. left. reflexivity.
Defined.
